(** * ts-for-gir: module loader and symbol table

    A shallow embedding of the two pieces of the generator that decide which
    GIR modules take part in a run and how type references are turned into
    symbol-table keys:

    - [SymTable] (class [SymTable]: [getKey], [get], [set]);
    - [ModuleLoader] (class [ModuleLoader] of [packages/cli/src/module-loader.ts]).

    Modelling conventions.

    - A JavaScript string is a [string]; the methods used by the source
      ([startsWith], [includes], [split], [+]) only compare and copy code
      units, so the byte view of the text behaves like the UTF-16 view.
    - A plain object used as a dictionary is modelled by its own
      properties.  Where the source enumerates the object ([Object.keys],
      [Object.values]) the model keeps the entries in the order of the
      enumeration: array indices first, ascending, then the other keys in
      insertion order ([JsObject.set], [JsObject.addKey]).  Where the source
      reads [o[k]] for an arbitrary name [k] and only tests the value, the
      members every object inherits from [Object.prototype] count as well
      ([JsObject.prototypeMember]): in [groupGirFiles], in
      [traverseDependencies] and in [getByHand].
    - [Set<T>] is an insertion-ordered list without repetitions.  The source
      compares objects by identity ([Set], [Array.includes]); the model
      compares their contents, which agrees as long as no two modules of a
      run are equal field by field.
    - Calls to [this.log.warn] are recorded, in order, in a list of
      [Warning]s; the text built by [messages.ts] is kept symbolic.
    - A thrown [Error] is the [Throw] outcome of the function. *)

From Stdlib Require Import String Ascii List Bool Arith Lia.
From stdpp Require Import base option list strings gmap.

Import ListNotations.

(** ** JavaScript string methods *)

Module JsString.

(** [s.startsWith(searchString)] *)
Definition startsWith (s searchString : string) : bool :=
  String.prefix searchString s.

(** [s.includes(searchString)] *)
Fixpoint includes (s searchString : string) : bool :=
  String.prefix searchString s
  || match s with
     | EmptyString => false
     | String _ s' => includes s' searchString
     end.

(** [s.split(sep)] for a separator of one code unit. *)
Fixpoint split (s : string) (sep : ascii) : list string :=
  match s with
  | EmptyString => [EmptyString]
  | String c s' =>
      if Ascii.eqb c sep then EmptyString :: split s' sep
      else match split s' sep with
           | h :: t => String c h :: t
           | [] => [String c EmptyString]
           end
  end.

(** Truthiness of a string value: every string but the empty one. *)
Definition truthy (s : string) : bool := negb (String.eqb s "").

(** [a.includes(x)] on an array of strings. *)
Definition array_includes (a : list string) (x : string) : bool :=
  existsb (String.eqb x) a.

End JsString.

(** ** The symbol table *)

Module SymTable.
Import JsString.

(** Arguments of the one [this.log.warn] call of the class. *)
Inductive Warning : Type :=
| WARN_NOT_FOUND_PACKAGE_NAME (namespace implementation : string).

(** The instance fields read by the methods. *)
Record t : Type := mk {
  modPackageName : string;
  modNamespace : string;
}.

Definition getKey (self : t) (dependencies : list string) (implementation : string)
  : option string * list Warning :=
  if startsWith implementation (modPackageName self +:+ ".") then
    (Some implementation, [])
  else if startsWith implementation (modNamespace self +:+ ".") then
    (Some (modPackageName self +:+ "." +:+ implementation), [])
  else if negb (includes implementation ".") then
    (Some (modPackageName self +:+ "." +:+ modNamespace self +:+ "." +:+ implementation), [])
  else
    let split := JsString.split implementation "." in
    let namespace := List.hd EmptyString split in
    let packageName :=
      List.find (fun dependency => startsWith dependency (namespace +:+ "-")) dependencies in
    match packageName with
    | Some p =>
        if truthy p then (Some (p +:+ "." +:+ implementation), [])
        else (None, [WARN_NOT_FOUND_PACKAGE_NAME namespace implementation])
    | None => (None, [WARN_NOT_FOUND_PACKAGE_NAME namespace implementation])
    end.

Section Items.
(** [GirAnyElement]: a parsed XML element, always an object and hence
    always truthy.  [SymTable.items] is the static table shared by all
    instances; it is passed in and out explicitly. *)
Variable GirAnyElement : Type.

Definition get (self : t) (items : gmap string GirAnyElement)
    (dependencies : list string) (fullTypeName : string)
  : option GirAnyElement * list Warning :=
  let '(key, w) := getKey self dependencies fullTypeName in
  match key with
  | None => (None, w)
  | Some k =>
      if negb (truthy k) then (None, w)
      else match items !! k with
           | None => (None, w)
           | Some result => (Some result, w)
           end
  end.

(** What [SymTable.items[key]] gives for a key the table does not have:
    the member of [Object.prototype] of that name, if there is one (handed
    on as an element by the unchecked cast of [getByHand]).  The keys
    [get] and [set] work with come from [getKey] and hold a dot, so that
    none of them names such a member. *)
Variable inherited : string -> option GirAnyElement.

Definition getByHand (items : gmap string GirAnyElement) (key : string)
  : option GirAnyElement :=
  match items !! key with
  | Some result => Some result
  | None => inherited key
  end.

Definition set (self : t) (items : gmap string GirAnyElement)
    (dependencies : list string) (fullTypeName : string) (GirElement : GirAnyElement)
  : gmap string GirAnyElement * list Warning :=
  let '(key, w) := getKey self dependencies fullTypeName in
  match key with
  | Some k => if truthy k then (<[k := GirElement]> items, w) else (items, w)
  | None => (items, w)
  end.
End Items.

(** *** The resolution order as the design document words it *)

(** The text of [s] before its first [sep] (all of [s] when there is none). *)
Fixpoint before_first (sep : ascii) (s : string) : string :=
  match s with
  | EmptyString => EmptyString
  | String c s' => if Ascii.eqb c sep then EmptyString else String c (before_first sep s')
  end.

Fixpoint contains_separator (sep : ascii) (s : string) : bool :=
  match s with
  | EmptyString => false
  | String c s' => Ascii.eqb c sep || contains_separator sep s'
  end.

Fixpoint first_beginning_with (p : string) (l : list string) : option string :=
  match l with
  | [] => None
  | d :: l' => if String.prefix p d then Some d else first_beginning_with p l'
  end.

(** Resolution order, first match wins (written from the specification,
    to be compared with [getKey]). *)
Definition resolveKey_spec (dependencies : list string)
    (reference ownerPackageName ownerNamespace : string)
  : option string * list Warning :=
  if String.prefix (ownerPackageName +:+ ".") reference then
    (Some reference, [])
  else if String.prefix (ownerNamespace +:+ ".") reference then
    (Some (ownerPackageName +:+ "." +:+ reference), [])
  else if negb (contains_separator "." reference) then
    (Some (ownerPackageName +:+ "." +:+ ownerNamespace +:+ "." +:+ reference), [])
  else
    let foreignNamespace := before_first "." reference in
    match first_beginning_with (foreignNamespace +:+ "-") dependencies with
    | Some foundDependency => (Some (foundDependency +:+ "." +:+ reference), [])
    | None => (None, [WARN_NOT_FOUND_PACKAGE_NAME foreignNamespace reference])
    end.

End SymTable.

(** ** Plain objects and sets with their enumeration order *)

Module JsObject.
(** An object used as a dictionary: its own properties, in the order in
    which [Object.keys], [Object.values] and [Object.entries] list them. *)
Definition t (V : Type) : Type := list (string * V).

Fixpoint get {V} (o : t V) (k : string) : option V :=
  match o with
  | [] => None
  | (k', v) :: o' => if String.eqb k' k then Some v else get o' k
  end.

Definition keys {V} (o : t V) : list string := List.map fst o.
Definition values {V} (o : t V) : list V := List.map snd o.

(** The names every plain object ([{}]) inherits from [Object.prototype].
    Reading [o[k]] for such a name gives the inherited member when [o] has
    no own property [k]: a function, or the prototype itself for
    [__proto__]; each is truthy, none is iterable, none has a property
    [modules]. *)
Definition prototypeMember (k : string) : bool :=
  existsb (String.eqb k)
    ["constructor"; "__defineGetter__"; "__defineSetter__"; "hasOwnProperty";
     "__lookupGetter__"; "__lookupSetter__"; "isPrototypeOf"; "propertyIsEnumerable";
     "toString"; "valueOf"; "__proto__"; "toLocaleString"].

Definition digitValue (c : ascii) : option N :=
  let n := N_of_ascii c in
  if (48 <=? n)%N && (n <=? 57)%N then Some (n - 48)%N else None.

Fixpoint numeral (s : string) (acc : N) : option N :=
  match s with
  | EmptyString => Some acc
  | String c s' =>
      match digitValue c with
      | Some d => numeral s' (10 * acc + d)%N
      | None => None
      end
  end.

(** The array index a property key stands for, if any: a decimal numeral
    without leading zero, below [2^32 - 1]. *)
Definition arrayIndex (k : string) : option N :=
  match k with
  | EmptyString => None
  | String "0"%char EmptyString => Some 0%N
  | String "0"%char _ => None
  | _ =>
      match numeral k 0 with
      | Some n => if (n <? 4294967295)%N then Some n else None
      | None => None
      end
  end.

(** The own keys are listed with the array indices first, in ascending
    order, and then the other keys, oldest first.  [addIndexEntry n k v o]
    puts the new property [k], of index [n], in its place among those of
    [o]. *)
Fixpoint addIndexEntry {V} (n : N) (k : string) (v : V) (o : t V) : t V :=
  match o with
  | [] => [(k, v)]
  | (k', v') :: o' =>
      match arrayIndex k' with
      | Some n' => if (n' <? n)%N then (k', v') :: addIndexEntry n k v o' else (k, v) :: o
      | None => (k, v) :: o
      end
  end.

(** [o[k] = v] for a key [o] does not have. *)
Definition addEntry {V} (o : t V) (k : string) (v : V) : t V :=
  match arrayIndex k with
  | Some n => addIndexEntry n k v o
  | None => o ++ [(k, v)]
  end.

(** [o[k] = v] for a key [o] has: the property keeps its place. *)
Fixpoint replace {V} (o : t V) (k : string) (v : V) : t V :=
  match o with
  | [] => []
  | (k', v') :: o' => if String.eqb k' k then (k', v) :: o' else (k', v') :: replace o' k v
  end.

(** [o[k] = v] *)
Definition set {V} (o : t V) (k : string) (v : V) : t V :=
  match get o k with
  | Some _ => replace o k v
  | None => addEntry o k v
  end.

(** The same on the keys alone, for an object used as a set of names:
    [Object.keys(o)] after [o[k] = 1] for a key [k] that [o] did not have,
    when it was [keys] before. *)
Fixpoint addIndexKey (n : N) (k : string) (keys : list string) : list string :=
  match keys with
  | [] => [k]
  | k' :: keys' =>
      match arrayIndex k' with
      | Some n' => if (n' <? n)%N then k' :: addIndexKey n k keys' else k :: keys
      | None => k :: keys
      end
  end.

Definition addKey (keys : list string) (k : string) : list string :=
  match arrayIndex k with
  | Some n => addIndexKey n k keys
  | None => keys ++ [k]
  end.
End JsObject.

Module JsSet.
Section JsSet.
Context {A : Type} `{EqDecision A}.

Definition has (s : list A) (x : A) : bool := bool_decide (x ∈ s).
Definition add (s : list A) (x : A) : list A := if has s x then s else s ++ [x].
Definition add_all (s : list A) (xs : list A) : list A := fold_left add xs s.
End JsSet.
End JsSet.

(** ** The module loader *)

Module ModuleLoader.
Import JsString.

Inductive ResolveType : Type := BY_HAND | DEPENDENCE.

Record Dependency : Type := mkDependency {
  dep_namespace : string;
  dep_version : string;
  dep_packageName : string;
}.

Record GirModule : Type := mkGirModule {
  gm_packageName : string;
  dependencies : list string;
  transitiveDependencies : list string;
}.

Record GirModuleResolvedBy : Type := mkResolvedBy {
  packageName : string;
  module : GirModule;
  resolvedBy : ResolveType;
}.

Record GirModulesGrouped : Type := mkGrouped {
  namespace : string;
  modules : list GirModuleResolvedBy;
  hasConflict : bool;
}.

Abbreviation GirModulesGroupedMap := (JsObject.t GirModulesGrouped).
Abbreviation DependencyMap := (gmap string (list Dependency)).

Record AnswerVersion : Type := mkAnswer {
  selected : list string;
  unselected : list string;
}.

#[global] Instance ResolveType_eq_dec : EqDecision ResolveType.
Proof. solve_decision. Defined.
#[global] Instance GirModule_eq_dec : EqDecision GirModule.
Proof. solve_decision. Defined.
#[global] Instance GirModuleResolvedBy_eq_dec : EqDecision GirModuleResolvedBy.
Proof. solve_decision. Defined.

(** What [splitModuleName] of [utils.ts] hands back. *)
Record ModuleName : Type := mkModuleName {
  mn_namespace : string;
  mn_version : string;
}.

(** Outcome of a function that may throw. *)
Inductive Result (A : Type) : Type :=
| Ok (a : A)
| Throw (message : string).
Arguments Ok {A} a.
Arguments Throw {A} message.

(** *** Grouping *)

Section Grouper.
Variable splitModuleName : string -> ModuleName.
Variable toLowerCase : string -> string.

(** One turn of the [for] loop of [groupGirFiles].  [girModulesGrouped[id]]
    is truthy for a key the object has and for a name it inherits from
    [Object.prototype].  In the second case the [else] branch reads
    [modules] off the inherited member, which has none, and the call of
    [push] on [undefined] throws a [TypeError]. *)
Definition groupGirFiles_step (girModulesGrouped : GirModulesGroupedMap)
    (resolveGirModule : GirModuleResolvedBy) : Result GirModulesGroupedMap :=
  let namespace_ := mn_namespace (splitModuleName (packageName resolveGirModule)) in
  let id := toLowerCase namespace_ in
  match JsObject.get girModulesGrouped id with
  | None =>
      if JsObject.prototypeMember id then
        Throw "TypeError: Cannot read properties of undefined (reading 'push')"
      else
        Ok (JsObject.set girModulesGrouped id
              {| namespace := namespace_; modules := [resolveGirModule];
                 hasConflict := false |})
  | Some g =>
      Ok (JsObject.set girModulesGrouped id
            {| namespace := namespace g;
               modules := modules g ++ [resolveGirModule];
               hasConflict := true |})
  end.

(** The [for] loop of [groupGirFiles]. *)
Fixpoint groupGirFiles_loop (resolveGirModules : list GirModuleResolvedBy)
    (girModulesGrouped : GirModulesGroupedMap) : Result GirModulesGroupedMap :=
  match resolveGirModules with
  | [] => Ok girModulesGrouped
  | resolveGirModule :: rest =>
      match groupGirFiles_step girModulesGrouped resolveGirModule with
      | Ok girModulesGrouped' => groupGirFiles_loop rest girModulesGrouped'
      | Throw e => Throw e
      end
  end.

Definition groupGirFiles (resolveGirModules : list GirModuleResolvedBy)
  : Result GirModulesGroupedMap :=
  groupGirFiles_loop resolveGirModules [].
End Grouper.

(** *** Applying the answer of a version prompt *)

Definition findGirModuleByFullNames (girModules : list GirModuleResolvedBy)
    (packageNames : list string) : list GirModuleResolvedBy :=
  List.filter (fun girModule => array_includes packageNames (packageName girModule)) girModules.

Definition existsGirModules (girModules : list GirModuleResolvedBy)
    (packageNames : list string) : bool :=
  0 <? length (findGirModuleByFullNames girModules packageNames).

(** [modules[0]] of a group without members is [undefined]; the caller
    only passes groups in conflict, and the model adds nothing then. *)
Definition sortVersionsByAnswer (girModulesGrouped : GirModulesGrouped)
    (selected : list string) : Result (list GirModuleResolvedBy * list string) :=
  if negb (hasConflict girModulesGrouped) then
    Ok (JsSet.add_all [] (firstn 1 (modules girModulesGrouped)), [])
  else
    let keepModules := findGirModuleByFullNames (modules girModulesGrouped) selected in
    let girModulePackageNames := List.map packageName (modules girModulesGrouped) in
    if length keepModules <=? 0 then Throw "Module not found!"
    else
      let keep := JsSet.add_all [] keepModules in
      let toIgnore :=
        List.filter (fun packageName => negb (array_includes selected packageName))
          girModulePackageNames in
      Ok (keep, [] ++ toIgnore).

Definition generateModuleVersionQuestion_choices (girModuleGrouped : GirModulesGrouped)
  : list string :=
  "All" :: List.map packageName (modules girModuleGrouped).

(** [askForVersionsPrompt]; [answer] is what the prompter resolved to.
    [choices] is an array, so the test [!choices] never throws. *)
Definition askForVersionsPrompt (girModulesGrouped : GirModulesGrouped) (answer : string)
  : Result AnswerVersion :=
  let choices := generateModuleVersionQuestion_choices girModulesGrouped in
  if negb (truthy answer) then Throw "No valid answer!"
  else if String.eqb answer "All" then
    Ok {| selected := List.filter (fun choice => negb (String.eqb choice "All")) choices;
          unselected := [] |}
  else
    Ok {| selected := [answer];
          unselected := List.filter (fun choice => negb (String.eqb choice answer)) choices |}.

(** *** Reverse dependents *)

Definition findModulesDependOnPackage (girModulesGroupedMap : GirModulesGroupedMap)
    (packageName_ : string) : list GirModuleResolvedBy :=
  fold_left
    (fun girModules girModulesGrouped =>
       fold_left
         (fun girModules girModuleResolvedBy =>
            if String.eqb (packageName girModuleResolvedBy) packageName_ then girModules
            else
              fold_left
                (fun girModules dep =>
                   if String.eqb dep packageName_
                      && negb (bool_decide (girModuleResolvedBy ∈ girModules))
                   then girModules ++ [girModuleResolvedBy]
                   else girModules)
                (dependencies (module girModuleResolvedBy)) girModules)
         (modules girModulesGrouped) girModules)
    (JsObject.values girModulesGroupedMap) [].

Definition findModulesDependOnPackages (girModulesGroupedMap : GirModulesGroupedMap)
    (packageNames : list string) : list GirModuleResolvedBy :=
  fold_left
    (fun girModules packageName_ =>
       girModules ++ findModulesDependOnPackage girModulesGroupedMap packageName_)
    packageNames [].


(** *** The conflict protocol

    The prompter is an external collaborator: the strings it resolves to are
    an input script, read front to back.  [Pending] is a prompt left without
    an answer by the script.  Console output ([this.log.log]) is not part of
    the modelled state. *)

Inductive Outcome (A : Type) : Type :=
| Finished (a : A)
| Thrown (message : string)
| Pending.
Arguments Finished {A} a.
Arguments Thrown {A} message.
Arguments Pending {A}.

(** [askIgnoreDepsPrompt]: the question depends on [deps], the value handed
    back is the prompter's answer as it is. *)
Definition generateContinueQuestion_choices : list string := ["Yes"; "Go back"].
Definition generateIgnoreDepsQuestion_choices : list string := ["Yes"; "No"; "Go back"].

Definition askIgnoreDepsPrompt_choices (deps : list GirModuleResolvedBy) : list string :=
  if 0 <? length deps then generateIgnoreDepsQuestion_choices
  else generateContinueQuestion_choices.

Definition askIgnoreDepsPrompt (deps : list GirModuleResolvedBy) (answer : string) : string :=
  answer.

(** What the [while (goBack)] loop leaves in its three variables. *)
Record Confirmed : Type := mkConfirmed {
  versionAnswer : AnswerVersion;
  wouldIgnoreDeps : list GirModuleResolvedBy;
  ignoreDepsAnswer : string;
}.

(** The [while (goBack)] loop for one group in conflict.  Its first turn
    always runs, so [versionAnswer] is set when it ends. *)
Fixpoint whileGoBack (girModulesGroupedMap : GirModulesGroupedMap)
    (girModulesGrouped : GirModulesGrouped) (ignore : list string)
    (answers : list string) {struct answers} : Outcome (Confirmed * list string) :=
  match answers with
  | [] => Pending
  | versionChoice :: answers1 =>
      match askForVersionsPrompt girModulesGrouped versionChoice with
      | Throw e => Thrown e
      | Ok versionAnswer_ =>
          let wouldIgnoreDeps_ :=
            findModulesDependOnPackages girModulesGroupedMap (unselected versionAnswer_) in
          let wouldIgnoreDeps_ :=
            List.filter (fun dep => negb (array_includes ignore (packageName dep)))
              wouldIgnoreDeps_ in
          match answers1 with
          | [] => Pending
          | depsChoice :: answers2 =>
              let ignoreDepsAnswer_ := askIgnoreDepsPrompt wouldIgnoreDeps_ depsChoice in
              if String.eqb ignoreDepsAnswer_ "Go back" then
                whileGoBack girModulesGroupedMap girModulesGrouped ignore answers2
              else
                Finished
                  ({| versionAnswer := versionAnswer_;
                      wouldIgnoreDeps := wouldIgnoreDeps_;
                      ignoreDepsAnswer := ignoreDepsAnswer_ |}, answers2)
          end
      end
  end.

(** State of the [for] loop over the groups. *)
Record ResolverState : Type := mkResolverState {
  rs_keep : list GirModuleResolvedBy;
  rs_ignore : list string;
  rs_answers : list string;
}.

(** What [askForEachConflictVersionsPrompt] returns, with the list handed
    to [Config.addToConfig] when the user asked for it. *)
Record Resolution : Type := mkResolution {
  res_keep : list GirModuleResolvedBy;
  res_ignore : list string;
  res_addToConfig : option (list string);
}.

Section Resolver.
(** [union] of [utils.ts]: a set joined with a set or an array. *)
Variable union : list GirModuleResolvedBy -> list GirModuleResolvedBy -> list GirModuleResolvedBy.

(** The first two statements of the loop body: the group loses the members
    already ignored, and its flag is recomputed. *)
Definition removeIgnored (ignore : list string) (girModulesGrouped : GirModulesGrouped)
  : GirModulesGrouped :=
  let modules_ :=
    List.filter (fun girGroup => negb (array_includes ignore (packageName girGroup)))
      (modules girModulesGrouped) in
  {| namespace := namespace girModulesGrouped;
     modules := modules_;
     hasConflict := 2 <=? length modules_ |}.

(** One turn of the [for] loop over [Object.values(girModulesGroupedMap)].
    The groups are changed in place: [done] holds the entries already
    visited, [rest] the ones to come, and the map seen by the loop body is
    [done ++ current :: rest].  The turn hands back the entries visited so
    far and the state reached. *)
Definition forEachGroup_body (done : GirModulesGroupedMap)
    (entry : string * GirModulesGrouped) (rest : GirModulesGroupedMap)
    (st : ResolverState) : Outcome (GirModulesGroupedMap * ResolverState) :=
  let girModulesGrouped := removeIgnored (rs_ignore st) (snd entry) in
  let girModulesGroupedMap := done ++ (fst entry, girModulesGrouped) :: rest in
  let done' := done ++ [(fst entry, girModulesGrouped)] in
  if length (modules girModulesGrouped) <=? 0 then Finished (done', st)
  else if negb (hasConflict girModulesGrouped) then
    Finished
      (done',
       {| rs_keep := union (rs_keep st) (modules girModulesGrouped);
          rs_ignore := rs_ignore st;
          rs_answers := rs_answers st |})
  else
    match whileGoBack girModulesGroupedMap girModulesGrouped (rs_ignore st) (rs_answers st) with
    | Pending => Pending
    | Thrown e => Thrown e
    | Finished (c, answers') =>
        let ignore1 :=
          if String.eqb (ignoreDepsAnswer c) "Yes"
          then rs_ignore st ++ List.map packageName (wouldIgnoreDeps c)
          else rs_ignore st in
        match sortVersionsByAnswer girModulesGrouped (selected (versionAnswer c)) with
        | Throw e => Thrown e
        | Ok unionMe =>
            Finished
              (done',
               {| rs_keep := union (rs_keep st) (fst unionMe);
                  rs_ignore := ignore1 ++ snd unionMe;
                  rs_answers := answers' |})
        end
    end.

(** The [for] loop. *)
Fixpoint forEachGroup (done todo : GirModulesGroupedMap) (st : ResolverState)
    {struct todo} : Outcome (GirModulesGroupedMap * ResolverState) :=
  match todo with
  | [] => Finished (done, st)
  | entry :: rest =>
      match forEachGroup_body done entry rest st with
      | Finished (done', st') => forEachGroup done' rest st'
      | Thrown e => Thrown e
      | Pending => Pending
      end
  end.

Definition askForEachConflictVersionsPrompt (girModulesGroupedMap : GirModulesGroupedMap)
    (ignore : list string) (answers : list string) : Outcome (Resolution * list string) :=
  match forEachGroup [] girModulesGroupedMap
          {| rs_keep := []; rs_ignore := ignore; rs_answers := answers |} with
  | Pending => Pending
  | Thrown e => Thrown e
  | Finished (_, st) =>
      if 0 <? length (rs_ignore st) then
        match rs_answers st with
        | [] => Pending
        | addToIgnore :: answers' =>
            Finished
              ({| res_keep := rs_keep st;
                  res_ignore := rs_ignore st;
                  res_addToConfig :=
                    if String.eqb addToIgnore "Yes" then Some (rs_ignore st) else None |},
               answers')
        end
      else
        Finished
          ({| res_keep := rs_keep st; res_ignore := rs_ignore st; res_addToConfig := None |},
           rs_answers st)
  end.
End Resolver.

(** *** Transitive dependencies *)

(** The [for] loop of [traverseDependencies]; [recurse] is the function
    itself.  [result] lists the own keys of the object [result], in the
    order [Object.keys] gives them.  [result[dep.packageName]] is truthy
    for a key the object has (its value is [1]) and for a name it inherits
    from [Object.prototype]: both are skipped. *)
Fixpoint traverseDependencies_loop
    (recurse : string -> list string -> option (list string))
    (deps : list Dependency) (result : list string) : option (list string) :=
  match deps with
  | [] => Some result
  | dep :: deps' =>
      if array_includes result (dep_packageName dep)
         || JsObject.prototypeMember (dep_packageName dep) then
        traverseDependencies_loop recurse deps' result
      else
        match recurse (dep_packageName dep)
                (JsObject.addKey result (dep_packageName dep)) with
        | None => None
        | Some result' => traverseDependencies_loop recurse deps' result'
        end
  end.

(** [traverseDependencies] with a bound on the depth of the recursion;
    [None] when the bound is hit.  [modDependencyMap] only ever holds
    arrays, and what it inherits under other names (functions, numbers,
    plain objects) is not iterable: [isIterable(deps)] holds exactly for
    the keys the map was given. *)
Fixpoint traverseDependencies (fuel : nat) (modDependencyMap : DependencyMap)
    (packageName_ : string) (result : list string) : option (list string) :=
  match fuel with
  | O => None
  | S fuel' =>
      match modDependencyMap !! packageName_ with
      | None => Some result
      | Some deps =>
          traverseDependencies_loop (traverseDependencies fuel' modDependencyMap) deps result
      end
  end.

(** Every package name some module of the map depends on. *)
Definition dependencyNames (modDependencyMap : DependencyMap) : list string :=
  List.concat (List.map (fun kv => List.map dep_packageName (snd kv)) (map_to_list modDependencyMap)).

(** A depth no walk over the map exceeds (see [traverseDependencies_fuel]). *)
Definition closureFuel (modDependencyMap : DependencyMap) : nat :=
  S (length (dependencyNames modDependencyMap)).

(** [Object.keys(result)] after [traverseDependencies(packageName, {})]. *)
Definition transitiveClosure (modDependencyMap : DependencyMap) (packageName_ : string)
  : list string :=
  default [] (traverseDependencies (closureFuel modDependencyMap) modDependencyMap packageName_ []).

Definition setTraverseDependenciesForModules (modDependencyMap : DependencyMap)
    (girModules : list GirModuleResolvedBy) : list GirModuleResolvedBy :=
  List.map
    (fun girModule =>
       {| packageName := packageName girModule;
          module :=
            {| gm_packageName := gm_packageName (module girModule);
               dependencies := dependencies (module girModule);
               transitiveDependencies := transitiveClosure modDependencyMap (packageName girModule) |};
          resolvedBy := resolvedBy girModule |})
    girModules.

(** *** Loading documents *)

Inductive Warning : Type :=
| WARN_NO_GIR_FILE_FOUND_FOR_PACKAGE (packageName : string)
| WARN_LOAD_IGNORED_DEPENDENCY (transitiveDependency packageName : string).

(** The collections [loadGirModules] shares with its recursive calls
    ([girModules], [failedGirModules]), the field [modDependencyMap] and the
    warnings given so far. *)
Record LoaderState : Type := mkLoaderState {
  girModules : list GirModuleResolvedBy;
  failedGirModules : list string;
  modDependencyMap : DependencyMap;
  warnings : list Warning;
}.

(** How a call of [loadGirModules] ends: it returns, it throws, or the bound
    on the number of calls and loop turns is used up (the state reached is
    kept in that case). *)
Inductive Run : Type :=
| Returned (st : LoaderState)
| Raised (message : string)
| OutOfFuel (st : LoaderState).

Section Loader.
Variable splitModuleName : string -> ModuleName.
(** Looking the document of a package up in the search directories and
    parsing it ([findFileInDirs], [readFileSync], [xml2js], [new GirModule]);
    [None] when no file is found. *)
Variable parseGirFile : string -> option GirModule.

Definition extendDependencyMapByGirModule (modDependencyMap_ : DependencyMap)
    (girModule : GirModule) : DependencyMap :=
  <[ (if truthy (gm_packageName girModule) then gm_packageName girModule else "-") :=
       List.map
         (fun packageName_ =>
            {| dep_namespace := mn_namespace (splitModuleName packageName_);
               dep_version := mn_version (splitModuleName packageName_);
               dep_packageName := packageName_ |})
         (dependencies girModule) ]> modDependencyMap_.

Definition loadAndCreateGirModule (packageName_ : string) (st : LoaderState)
  : option GirModule * LoaderState :=
  match parseGirFile packageName_ with
  | None => (None, st)
  | Some girModule =>
      (Some girModule,
       {| girModules := girModules st;
          failedGirModules := failedGirModules st;
          modDependencyMap := extendDependencyMapByGirModule (modDependencyMap st) girModule;
          warnings := warnings st |})
  end.

(** The [while (girToLoad.length > 0)] loop. *)
Fixpoint whileGirToLoad (girToLoad : list string) (resolvedBy_ : ResolveType)
    (st : LoaderState) (newModuleFound : bool) : Result (LoaderState * bool) :=
  match girToLoad with
  | [] => Ok (st, newModuleFound)
  | shifted :: girToLoad' =>
      let packageName_ := if truthy shifted then shifted else "unknown" in
      if negb (truthy packageName_) then
        Throw ("Module name '" +:+ packageName_ +:+ " 'not found!")
      else if negb (existsGirModules (girModules st) [packageName_]) then
        match loadAndCreateGirModule packageName_ st with
        | (None, st1) =>
            if negb (JsSet.has (failedGirModules st1) packageName_) then
              whileGirToLoad girToLoad' resolvedBy_
                {| girModules := girModules st1;
                   failedGirModules := JsSet.add (failedGirModules st1) packageName_;
                   modDependencyMap := modDependencyMap st1;
                   warnings := warnings st1 ++ [WARN_NO_GIR_FILE_FOUND_FOR_PACKAGE packageName_] |}
                newModuleFound
            else whileGirToLoad girToLoad' resolvedBy_ st1 newModuleFound
        | (Some girModule, st1) =>
            if truthy (gm_packageName girModule) then
              let addModule :=
                {| packageName := gm_packageName girModule;
                   module := girModule;
                   resolvedBy := resolvedBy_ |} in
              whileGirToLoad girToLoad' resolvedBy_
                {| girModules := girModules st1 ++ [addModule];
                   failedGirModules := failedGirModules st1;
                   modDependencyMap := modDependencyMap st1;
                   warnings := warnings st1 |}
                true
            else whileGirToLoad girToLoad' resolvedBy_ st1 newModuleFound
        end
      else whileGirToLoad girToLoad' resolvedBy_ st newModuleFound
  end.

(** The warnings of the inner [for] loop over [transitiveDependencies]. *)
Definition warnIgnoredDependencies (ignoreDependencies : list string)
    (girModule : GirModuleResolvedBy) (st : LoaderState) : LoaderState :=
  {| girModules := girModules st;
     failedGirModules := failedGirModules st;
     modDependencyMap := modDependencyMap st;
     warnings :=
       warnings st ++
       List.map (fun transitiveDependency =>
                   WARN_LOAD_IGNORED_DEPENDENCY transitiveDependency (packageName girModule))
         (List.filter (array_includes ignoreDependencies)
            (transitiveDependencies (module girModule))) |}.

(** The [for (const girModule of girModules)] loop.  The array grows while
    it is walked, so the loop reads entry [i] of the current array and stops
    at its current end; [recurse] is [loadGirModules] itself. *)
Fixpoint forGirModules (recurse : list string -> LoaderState -> Run)
    (ignoreDependencies : list string) (turns : nat) (i : nat) (st : LoaderState) : Run :=
  match turns with
  | O => OutOfFuel st
  | S turns' =>
      match girModules st !! i with
      | None => Returned st
      | Some girModule =>
          let transitiveDependencies_ := transitiveDependencies (module girModule) in
          if 0 <? length transitiveDependencies_ then
            match recurse transitiveDependencies_
                    (warnIgnoredDependencies ignoreDependencies girModule st) with
            | Returned st' => forGirModules recurse ignoreDependencies turns' (S i) st'
            | Raised e => Raised e
            | OutOfFuel st' => OutOfFuel st'
            end
          else forGirModules recurse ignoreDependencies turns' (S i) st
      end
  end.

(** [loadGirModules]; [fuel] bounds the depth of the recursion and the
    turns of the [for] loop.  The parameters [girModules] and
    [failedGirModules] are in [st]: the first call starts with both empty. *)
Fixpoint loadGirModules (fuel : nat) (girModulesToRead : list string)
    (ignoreDependencies : list string) (resolvedBy_ : ResolveType) (st : LoaderState) : Run :=
  match fuel with
  | O => OutOfFuel st
  | S fuel' =>
      match whileGirToLoad girModulesToRead resolvedBy_ st false with
      | Throw e => Raised e
      | Ok (st1, newModuleFound) =>
          if negb newModuleFound then Returned st1
          else
            let st2 :=
              {| girModules :=
                   setTraverseDependenciesForModules (modDependencyMap st1) (girModules st1);
                 failedGirModules := failedGirModules st1;
                 modDependencyMap := modDependencyMap st1;
                 warnings := warnings st1 |} in
            forGirModules
              (fun toRead => loadGirModules fuel' toRead ignoreDependencies DEPENDENCE)
              ignoreDependencies fuel' 0 st2
      end
  end.
End Loader.

(** The names the missing-file warning was given for, oldest first. *)
Definition missingFileWarnings (ws : list Warning) : list string :=
  List.concat
    (List.map (fun w => match w with
                        | WARN_NO_GIR_FILE_FOUND_FOR_PACKAGE p => [p]
                        | WARN_LOAD_IGNORED_DEPENDENCY _ _ => []
                        end) ws).

Definition stateOf (r : Run) : option LoaderState :=
  match r with
  | Returned st => Some st
  | Raised _ => None
  | OutOfFuel st => Some st
  end.

End ModuleLoader.

(** ** Finding documents, and the entry point [getModules] *)

Module ModuleFinder.
Import JsString ModuleLoader.

(** The warnings of [findModules]. *)
Inductive FindWarning : Type :=
| WARN_FIND_ERROR (filename girDirectory : string)
| WARN_IGNORE (mod_ : string).

(** What [getModules] resolves to. *)
Record Modules : Type := mkModules {
  grouped : GirModulesGroupedMap;
  loaded : list GirModuleResolvedBy;
  failed : list string;
}.

(** How [getModules] ends; [StillLoading] when the bound on the steps of
    [loadGirModules] is used up. *)
Inductive Found : Type :=
| Resolved (result : Modules) (st : LoaderState) (findWarnings : list FindWarning)
| Rejected (message : string)
| StillLoading.

Section Finder.
(** [config.girDirectories]. *)
Variable girDirectories : list string.
(** [glob(filename, { cwd })] of tiny-glob; [None] when it throws. *)
Variable glob : string -> string -> option (list string).
(** [Path.basename(file, '.gir')]. *)
Variable basename : string -> string.
Variable splitModuleName : string -> ModuleName.
Variable toLowerCase : string -> string.
Variable parseGirFile : string -> option GirModule.

(** The [for] loop over the directories, with its [try]/[catch]. *)
Definition globInDirectories (filename : string) : list string * list FindWarning :=
  fold_left
    (fun acc girDirectory =>
       match glob filename girDirectory with
       | Some matches => (fst acc ++ matches, snd acc)
       | None => (fst acc, snd acc ++ [WARN_FIND_ERROR filename girDirectory])
       end)
    girDirectories ([], []).

(** One turn of the outer [for] loop of [findModules]. *)
Definition findModules_step (ignore : list string)
    (acc : list string * list FindWarning) (pattern : string)
  : list string * list FindWarning :=
  if truthy pattern then
    let filename := pattern +:+ ".gir" in
    let files := globInDirectories filename in
    let globModules := List.map basename (fst files) in
    (JsSet.add_all (fst acc)
       (List.filter (fun mod_ => negb (array_includes ignore mod_)) globModules),
     snd acc ++ snd files
       ++ List.map WARN_IGNORE (List.filter (array_includes ignore) globModules))
  else acc.

Definition findModules (modules ignore : list string) : list string * list FindWarning :=
  fold_left (findModules_step ignore) modules ([], []).

(** [getModules]; [modDependencyMap_] is the field of the loader when the
    call starts, [fuel] the bound handed to [loadGirModules]. *)
Definition getModules (fuel : nat) (modDependencyMap_ : DependencyMap)
    (modules ignore : list string) : Found :=
  let foundGirModules := findModules modules ignore in
  match loadGirModules splitModuleName parseGirFile fuel (fst foundGirModules) ignore BY_HAND
          {| girModules := []; failedGirModules := [];
             modDependencyMap := modDependencyMap_; warnings := [] |} with
  | Returned st =>
      match groupGirFiles splitModuleName toLowerCase (girModules st) with
      | Ok girModulesGrouped =>
          Resolved
            {| grouped := girModulesGrouped;
               loaded := girModules st;
               failed := failedGirModules st |}
            st (snd foundGirModules)
      | Throw e => Rejected e
      end
  | Raised e => Rejected e
  | OutOfFuel _ => StillLoading
  end.
End Finder.

End ModuleFinder.

(** * Notions used in the statements *)

Module Notions.
Import JsString ModuleLoader.

Section Grouping.
Variable splitModuleName : string -> ModuleName.
Variable toLowerCase : string -> string.

(** The key [groupGirFiles] files a module under. *)
Definition groupId (m : GirModuleResolvedBy) : string :=
  toLowerCase (mn_namespace (splitModuleName (packageName m))).

(** The members of key [id] among [seen], in the order of [seen]. *)
Definition membersOf (id : string) (seen : list GirModuleResolvedBy)
  : list GirModuleResolvedBy :=
  List.filter (fun m => String.eqb (groupId m) id) seen.

(** The group expected under [id] once the modules [seen] have been filed. *)
Definition expectedGroup (id : string) (seen : list GirModuleResolvedBy)
  : option GirModulesGrouped :=
  match membersOf id seen with
  | [] => None
  | first :: _ =>
      Some {| namespace := mn_namespace (splitModuleName (packageName first));
              modules := membersOf id seen;
              hasConflict := 2 <=? length (membersOf id seen) |}
  end.
End Grouping.

Section Protocol.
Variable union : list GirModuleResolvedBy -> list GirModuleResolvedBy -> list GirModuleResolvedBy.

(** The turns of the [for] loop a run of the resolver passes through:
    the entries visited, the entries to come and the state before a turn. *)
Inductive LoopReaches (girModulesGroupedMap : GirModulesGroupedMap)
    (ignore : list string) (answers : list string)
  : GirModulesGroupedMap -> GirModulesGroupedMap -> ResolverState -> Prop :=
| reach_start :
    LoopReaches girModulesGroupedMap ignore answers [] girModulesGroupedMap
      {| rs_keep := []; rs_ignore := ignore; rs_answers := answers |}
| reach_next done entry rest st done' st' :
    LoopReaches girModulesGroupedMap ignore answers done (entry :: rest) st ->
    forEachGroup_body union done entry rest st = Finished (done', st') ->
    LoopReaches girModulesGroupedMap ignore answers done' rest st'.
End Protocol.

(** The names of the map not yet in [result]: what the walk of
    [traverseDependencies] still has to visit. *)
Definition unvisited (m : DependencyMap) (result : list string) : list string :=
  list_difference (dependencyNames m) result.

(** What a finished walk from [result] to [result'] guarantees. *)
Definition Walked (m : DependencyMap) (result result' : list string) : Prop :=
  (forall x, x ∈ result -> x ∈ result')
  /\ (NoDup result -> NoDup result')
  /\ (forall x, x ∈ result' -> x ∈ result \/ x ∈ dependencyNames m).

(** The name the loop works with: [girToLoad.shift() || 'unknown']. *)
Definition shiftedName (shifted : string) : string :=
  if truthy shifted then shifted else "unknown".

Definition loadedNames (st : LoaderState) : list string :=
  List.map packageName (girModules st).

(** Each missing-file warning given so far is for a different name, and
    every such name is in [failedGirModules]. *)
Definition WarnedOnce (st : LoaderState) : Prop :=
  NoDup (missingFileWarnings (warnings st))
  /\ forall p, p ∈ missingFileWarnings (warnings st) -> p ∈ failedGirModules st.

(** The shared collections only grow. *)
Definition Grows (st st' : LoaderState) : Prop :=
  (forall p, p ∈ failedGirModules st -> p ∈ failedGirModules st')
  /\ (forall p, p ∈ loadedNames st -> p ∈ loadedNames st').

(** A run that did not throw and kept the invariants. *)
Definition GoodRun (st : LoaderState) (r : Run) : Prop :=
  match r with
  | Raised _ => False
  | Returned st' | OutOfFuel st' => WarnedOnce st' /\ Grows st st'
  end.

End Notions.

(** * Data of the examples *)

Module Examples.
Import JsString ModuleLoader.

(** Lower-casing of the letters A to Z, for the examples. *)
Definition asciiToLowerCase (c : ascii) : ascii :=
  let n := nat_of_ascii c in
  if (65 <=? n) && (n <=? 90) then ascii_of_nat (n + 32) else c.

Fixpoint exampleToLowerCase (s : string) : string :=
  match s with
  | EmptyString => EmptyString
  | String c s' => String (asciiToLowerCase c) (exampleToLowerCase s')
  end.

(** A namespace and version read off a name such as [Gtk-3.0]. *)
Definition exampleSplitModuleName (packageName_ : string) : ModuleName :=
  {| mn_namespace := SymTable.before_first "-" packageName_;
     mn_version := String.substring
                     (S (String.length (SymTable.before_first "-" packageName_)))
                     (String.length packageName_) packageName_ |}.

Definition exampleModule (packageName_ : string) (dependencies_ : list string)
  : GirModuleResolvedBy :=
  {| packageName := packageName_;
     module := {| gm_packageName := packageName_;
                  dependencies := dependencies_;
                  transitiveDependencies := [] |};
     resolvedBy := BY_HAND |}.

(** [union] as [utils.ts] has it: a new set with the members of both. *)
Definition exampleUnion (target source : list GirModuleResolvedBy) : list GirModuleResolvedBy :=
  JsSet.add_all (JsSet.add_all [] target) source.

Definition gtkGroup : GirModulesGrouped :=
  {| namespace := "Gtk";
     modules := [exampleModule "Gtk-2.0" []; exampleModule "Gtk-3.0" [];
                 exampleModule "Gtk-4.0" []];
     hasConflict := true |}.

Definition exampleGrouped : GirModulesGroupedMap :=
  match groupGirFiles exampleSplitModuleName exampleToLowerCase
          [exampleModule "Gtk-3.0" []; exampleModule "Gdk-3.0" ["Gtk-3.0"];
           exampleModule "Gtk-4.0" []] with
  | Ok girModulesGrouped => girModulesGrouped
  | Throw _ => []
  end.

Definition exampleDependency (packageName_ : string) : Dependency :=
  {| dep_namespace := mn_namespace (exampleSplitModuleName packageName_);
     dep_version := mn_version (exampleSplitModuleName packageName_);
     dep_packageName := packageName_ |}.

(** The dependency map of two modules that depend on each other. *)
Definition cycleMap : DependencyMap :=
  <["A" := [exampleDependency "B"]]> (<["B" := [exampleDependency "A"]]> ∅).

(** Two documents on disk; both need [Missing-1.0], which is not there. *)
Definition exampleParseGirFile (packageName_ : string) : option GirModule :=
  if String.eqb packageName_ "Gtk-3.0" then
    Some {| gm_packageName := "Gtk-3.0";
            dependencies := ["Gdk-3.0"; "Missing-1.0"];
            transitiveDependencies := [] |}
  else if String.eqb packageName_ "Gdk-3.0" then
    Some {| gm_packageName := "Gdk-3.0";
            dependencies := ["Missing-1.0"];
            transitiveDependencies := [] |}
  else None.

Definition emptyLoaderState : LoaderState :=
  {| girModules := []; failedGirModules := []; modDependencyMap := ∅; warnings := [] |}.

Definition exampleLoad : Run :=
  loadGirModules exampleSplitModuleName exampleParseGirFile 8
    ["Gtk-3.0"; "Absent-2.0"] [] BY_HAND emptyLoaderState.

End Examples.

(** * Properties *)

(** ** Strings *)

Module JsStringFacts.
Import JsString.

Lemma prefix_dot (s : string) :
  String.prefix "." s = match s with
                        | EmptyString => false
                        | String c _ => Ascii.eqb c "."
                        end.
Proof.
  destruct s as [|c s]; [reflexivity|].
  cbn [String.prefix].
  destruct (ascii_dec "." c) as [<-|Hne].
  - now destruct s.
  - symmetry. apply Ascii.eqb_neq. congruence.
Qed.

Lemma split_not_nil (s : string) (sep : ascii) : split s sep <> [].
Proof.
  destruct s as [|c s]; simpl; [discriminate|].
  destruct (Ascii.eqb c sep); [discriminate|].
  destruct (split s sep); discriminate.
Qed.

Lemma prefix_nonempty (p s : string) :
  p <> EmptyString -> String.prefix p s = true -> truthy s = true.
Proof.
  intros Hp H. destruct s; [|reflexivity].
  destruct p; [congruence|discriminate].
Qed.

Lemma append_nonempty_r (a b : string) : b <> EmptyString -> a +:+ b <> EmptyString.
Proof. destruct a; simpl; [auto|discriminate]. Qed.

Lemma truthy_append_dot (a b : string) : truthy (a +:+ "." +:+ b) = true.
Proof. destruct a; reflexivity. Qed.

Lemma truthy_spec (s : string) : truthy s = true <-> s <> EmptyString.
Proof.
  unfold truthy. rewrite negb_true_iff. apply String.eqb_neq.
Qed.

Lemma array_includes_In (a : list string) (x : string) :
  array_includes a x = true <-> In x a.
Proof.
  unfold array_includes. rewrite existsb_exists. split.
  - intros (y & Hy & Heq). apply String.eqb_eq in Heq. now subst.
  - intros H. exists x. split; [assumption|apply String.eqb_refl].
Qed.

Lemma array_includes_false (a : list string) (x : string) :
  array_includes a x = false <-> ~ In x a.
Proof.
  rewrite <- array_includes_In. destruct (array_includes a x); split; congruence.
Qed.

End JsStringFacts.

(** ** The symbol table *)

Module SymTableFacts.
Import JsString JsStringFacts SymTable.

Lemma includes_dot (s : string) : includes s "." = contains_separator "." s.
Proof.
  induction s as [|c s IH]; [reflexivity|].
  cbn [includes contains_separator]. rewrite prefix_dot, IH. reflexivity.
Qed.

Lemma split_head (s : string) (sep : ascii) :
  List.hd EmptyString (split s sep) = before_first sep s.
Proof.
  induction s as [|c s IH]; simpl; [reflexivity|].
  destruct (Ascii.eqb c sep); [reflexivity|].
  pose proof (split_not_nil s sep) as Hne.
  destruct (split s sep) as [|h t]; [congruence|].
  simpl in *. now rewrite IH.
Qed.

Lemma find_startsWith (p : string) (l : list string) :
  List.find (fun dependency => startsWith dependency p) l = first_beginning_with p l.
Proof.
  induction l as [|d l IH]; simpl; [reflexivity|].
  unfold startsWith at 1. destruct (String.prefix p d); [reflexivity|apply IH].
Qed.

Lemma first_beginning_with_prefix (p : string) (l : list string) (d : string) :
  first_beginning_with p l = Some d -> String.prefix p d = true.
Proof.
  induction l as [|x l IH]; simpl; [discriminate|].
  destruct (String.prefix p x) eqn:Hx; [|exact IH].
  intros [= <-]. exact Hx.
Qed.

(** The dependency picked by [find] begins with a name and a dash, so the
    test [!packageName] only fails when nothing was found. *)
Lemma found_dependency_truthy (ns : string) (l : list string) (d : string) :
  first_beginning_with (ns +:+ "-") l = Some d -> truthy d = true.
Proof.
  intros H. apply first_beginning_with_prefix in H.
  eapply prefix_nonempty; [|exact H].
  apply append_nonempty_r. discriminate.
Qed.

(** Every key computed by [getKey] is a non-empty string. *)
Lemma getKey_truthy (self : t) (deps : list string) (name key : string) :
  fst (getKey self deps name) = Some key -> truthy key = true.
Proof.
  unfold getKey.
  destruct (startsWith name (modPackageName self +:+ ".")) eqn:H1.
  { intros [= <-]. eapply prefix_nonempty; [|exact H1].
    apply append_nonempty_r. discriminate. }
  destruct (startsWith name (modNamespace self +:+ ".")) eqn:H2.
  { intros [= <-]. apply truthy_append_dot. }
  destruct (negb (includes name ".")) eqn:H3.
  { intros [= <-]. apply truthy_append_dot. }
  cbv zeta.
  destruct (find _ deps) as [p|]; [|discriminate].
  destruct (truthy p); [|discriminate].
  intros [= <-]. apply truthy_append_dot.
Qed.

Lemma contains_separator_prefix (a s : string) :
  String.prefix (a +:+ ".") s = true -> contains_separator "." s = true.
Proof.
  revert s. induction a as [|c a IH]; intros s.
  - change ("" +:+ ".") with ".". rewrite prefix_dot.
    destruct s as [|c s]; [discriminate|].
    intros H. cbn [contains_separator]. now rewrite H.
  - change (String c a +:+ ".") with (String c (a +:+ ".")).
    destruct s as [|c' s]; [discriminate|].
    cbn [String.prefix contains_separator].
    destruct (ascii_dec c c'); [|discriminate].
    intros H. rewrite (IH _ H). apply orb_true_r.
Qed.

Lemma contains_separator_append (a b : string) :
  contains_separator "." (a +:+ "." +:+ b) = true.
Proof.
  induction a as [|c a IH].
  - reflexivity.
  - change (String c a +:+ "." +:+ b) with (String c (a +:+ "." +:+ b)).
    cbn [contains_separator]. rewrite IH. apply orb_true_r.
Qed.

(** Every key has a dot in it, so no key is the name of a member of
    [Object.prototype]: reading [SymTable.items[key]] only ever finds what
    [set] has stored. *)
Lemma getKey_has_separator (self : t) (deps : list string) (name key : string) :
  fst (getKey self deps name) = Some key -> contains_separator "." key = true.
Proof.
  unfold getKey.
  destruct (startsWith name (modPackageName self +:+ ".")) eqn:H1.
  { intros [= <-]. eapply contains_separator_prefix. exact H1. }
  destruct (startsWith name (modNamespace self +:+ ".")) eqn:H2.
  { intros [= <-]. apply contains_separator_append. }
  destruct (negb (includes name ".")) eqn:H3.
  { intros [= <-]. apply contains_separator_append. }
  cbv zeta.
  destruct (find _ deps) as [p|]; [|discriminate].
  destruct (truthy p); [|discriminate].
  intros [= <-]. apply contains_separator_append.
Qed.

Example getKey_bare_name :
  getKey (SymTable.mk "Gtk-3.0" "Gtk") ["Gtk-3.0"] "Window" = (Some "Gtk-3.0.Gtk.Window", []).
Proof. reflexivity. Qed.

Example getKey_shorthand :
  getKey (SymTable.mk "Gtk-3.0" "Gtk") ["Gtk-3.0"] "Gtk.Window"
  = (Some "Gtk-3.0.Gtk.Window", []).
Proof. reflexivity. Qed.

Example getKey_foreign :
  getKey (SymTable.mk "Gtk-3.0" "Gtk") ["Gdk-3.0"; "GLib-2.0"] "Gdk.Window"
  = (Some "Gdk-3.0.Gdk.Window", []).
Proof. reflexivity. Qed.

Example getKey_unresolved :
  getKey (SymTable.mk "Gtk-3.0" "Gtk") [] "Foo.Bar"
  = (None, [WARN_NOT_FOUND_PACKAGE_NAME "Foo" "Foo.Bar"]).
Proof. reflexivity. Qed.

(** C2: [getKey] follows the four-step, first-match resolution order of the
    design document, warning included: on every dependency list, reference
    and owner it returns what [resolveKey_spec] returns. *)
Theorem getKey_resolution_order (self : t) (dependencies : list string) (reference : string) :
  getKey self dependencies reference
  = resolveKey_spec dependencies reference (modPackageName self) (modNamespace self).
Proof.
  unfold getKey, resolveKey_spec, startsWith at 1 2.
  destruct (String.prefix (modPackageName self +:+ ".") reference); [reflexivity|].
  destruct (String.prefix (modNamespace self +:+ ".") reference); [reflexivity|].
  rewrite includes_dot.
  destruct (negb (contains_separator "." reference)); [reflexivity|].
  cbv zeta. rewrite split_head, find_startsWith.
  destruct (first_beginning_with _ dependencies) as [d|] eqn:Hd; [|reflexivity].
  now rewrite (found_dependency_truthy _ _ _ Hd).
Qed.

(** C10: a reference that begins with the owner's package name and a dot,
    or with the owner's namespace and a dot, or that has no dot at all, is
    always given a key (and no warning): the [null] branch is out of reach. *)
Theorem getKey_local_reference_not_null (self : t) (dependencies : list string)
    (reference : string) :
  startsWith reference (modPackageName self +:+ ".") = true
  \/ startsWith reference (modNamespace self +:+ ".") = true
  \/ includes reference "." = false ->
  exists key : string, getKey self dependencies reference = (Some key, []).
Proof.
  intros H. unfold getKey.
  destruct (startsWith reference (modPackageName self +:+ ".")); [eauto|].
  destruct (startsWith reference (modNamespace self +:+ ".")); [eauto|].
  destruct H as [H|[H|H]]; try discriminate.
  rewrite H. simpl. eauto.
Qed.

Lemma getKey_local_reference_not_null_witness :
  exists key : string,
    getKey (SymTable.mk "Gtk-3.0" "Gtk") ["Gdk-3.0"; "GLib-2.0"] "Window" = (Some key, []).
Proof.
  apply getKey_local_reference_not_null.
  right. right. reflexivity.
Defined.

(** C9: [set] followed by [get] with the same owner, dependencies and
    reference gives the element back whenever [getKey] computes a key; when
    it computes none, [set] leaves the table as it is and [get] gives
    [null]. *)
Theorem set_get_roundtrip (GirAnyElement : Type) (self : t)
    (items : gmap string GirAnyElement) (dependencies : list string)
    (reference : string) (element : GirAnyElement) :
  (forall key : string,
      fst (getKey self dependencies reference) = Some key ->
      fst (get GirAnyElement self
             (fst (set GirAnyElement self items dependencies reference element))
             dependencies reference) = Some element)
  /\ (fst (getKey self dependencies reference) = None ->
      fst (set GirAnyElement self items dependencies reference element) = items
      /\ fst (get GirAnyElement self items dependencies reference) = None).
Proof.
  split.
  - intros key Hkey. pose proof (getKey_truthy _ _ _ _ Hkey) as Ht.
    unfold get, set.
    destruct (getKey self dependencies reference) as [k w]. simpl in Hkey. subst k.
    rewrite Ht. simpl. now rewrite lookup_insert_eq.
  - intros Hnone. unfold get, set.
    destruct (getKey self dependencies reference) as [k w]. simpl in Hnone. subst k.
    split; reflexivity.
Qed.

Lemma set_get_roundtrip_witness :
  fst (get nat (SymTable.mk "Gtk-3.0" "Gtk")
         (fst (set nat (SymTable.mk "Gtk-3.0" "Gtk") ∅ ["Gdk-3.0"] "Gdk.Window" 7))
         ["Gdk-3.0"] "Gdk.Window") = Some 7
  /\ (fst (set nat (SymTable.mk "Gtk-3.0" "Gtk") ∅ [] "Foo.Bar" 7) = ∅
      /\ fst (get nat (SymTable.mk "Gtk-3.0" "Gtk") ∅ [] "Foo.Bar") = None).
Proof.
  split.
  - apply (proj1 (set_get_roundtrip nat (SymTable.mk "Gtk-3.0" "Gtk") ∅
                    ["Gdk-3.0"] "Gdk.Window" 7) "Gdk-3.0.Gdk.Window").
    reflexivity.
  - apply (proj2 (set_get_roundtrip nat (SymTable.mk "Gtk-3.0" "Gtk") ∅
                    [] "Foo.Bar" 7)).
    reflexivity.
Defined.

End SymTableFacts.

(** ** Objects and sets *)

Module JsObjectFacts.

Lemma get_app {V} (o o' : JsObject.t V) (k : string) :
  JsObject.get (o ++ o') k
  = match JsObject.get o k with
    | Some v => Some v
    | None => JsObject.get o' k
    end.
Proof.
  induction o as [|[k' v'] o IH]; cbn [JsObject.get app]; [reflexivity|].
  destruct (String.eqb k' k); [reflexivity|exact IH].
Qed.

Lemma get_addIndexEntry {V} (n : N) (o : JsObject.t V) (k k0 : string) (v : V) :
  JsObject.get o k = None ->
  JsObject.get (JsObject.addIndexEntry n k v o) k0
  = if String.eqb k k0 then Some v else JsObject.get o k0.
Proof.
  induction o as [|[k' v'] o IH]; cbn [JsObject.get JsObject.addIndexEntry]; intros Hk.
  - reflexivity.
  - destruct (String.eqb k' k) eqn:E; [discriminate|].
    destruct (JsObject.arrayIndex k') as [n'|]; [destruct (n' <? n)%N|];
      cbn [JsObject.get]; try reflexivity.
    rewrite (IH Hk). destruct (String.eqb k' k0) eqn:E0; [|reflexivity].
    apply String.eqb_eq in E0. subst k0. rewrite String.eqb_sym, E. reflexivity.
Qed.

Lemma get_addEntry {V} (o : JsObject.t V) (k k0 : string) (v : V) :
  JsObject.get o k = None ->
  JsObject.get (JsObject.addEntry o k v) k0
  = if String.eqb k k0 then Some v else JsObject.get o k0.
Proof.
  intros Hk. unfold JsObject.addEntry.
  destruct (JsObject.arrayIndex k) as [n|]; [now apply get_addIndexEntry|].
  rewrite get_app. cbn [JsObject.get].
  destruct (String.eqb k k0) eqn:E.
  - apply String.eqb_eq in E. subst k0. now rewrite Hk.
  - now destruct (JsObject.get o k0).
Qed.

Lemma get_replace {V} (o : JsObject.t V) (k k0 : string) (v : V) :
  JsObject.get (JsObject.replace o k v) k0
  = if String.eqb k k0 then
      match JsObject.get o k with Some _ => Some v | None => None end
    else JsObject.get o k0.
Proof.
  induction o as [|[k' v'] o IH]; cbn [JsObject.get JsObject.replace].
  - now destruct (String.eqb k k0).
  - destruct (String.eqb k' k) eqn:E; cbn [JsObject.get].
    + apply String.eqb_eq in E. subst k'. now destruct (String.eqb k k0).
    + rewrite IH. destruct (String.eqb k k0) eqn:E0.
      * apply String.eqb_eq in E0. subst k0. now rewrite E.
      * reflexivity.
Qed.

Lemma get_set_eq {V} (o : JsObject.t V) (k : string) (v : V) :
  JsObject.get (JsObject.set o k v) k = Some v.
Proof.
  unfold JsObject.set. destruct (JsObject.get o k) eqn:E.
  - now rewrite get_replace, String.eqb_refl, E.
  - now rewrite (get_addEntry _ _ _ _ E), String.eqb_refl.
Qed.

Lemma get_set_ne {V} (o : JsObject.t V) (k k0 : string) (v : V) :
  k <> k0 -> JsObject.get (JsObject.set o k v) k0 = JsObject.get o k0.
Proof.
  intros Hne. apply String.eqb_neq in Hne.
  unfold JsObject.set. destruct (JsObject.get o k) eqn:E.
  - now rewrite get_replace, Hne.
  - now rewrite (get_addEntry _ _ _ _ E), Hne.
Qed.

Lemma get_None_keys {V} (o : JsObject.t V) (k : string) :
  JsObject.get o k = None <-> k ∉ JsObject.keys o.
Proof.
  induction o as [|[k' v'] o IH]; simpl.
  - split; [intros _; apply not_elem_of_nil|reflexivity].
  - rewrite not_elem_of_cons. destruct (String.eqb k' k) eqn:E.
    + apply String.eqb_eq in E. split; [discriminate|]. intros [H _]. congruence.
    + apply String.eqb_neq in E. rewrite IH. split; [|tauto].
      intros H. split; [congruence|assumption].
Qed.

Lemma keys_replace {V} (o : JsObject.t V) (k : string) (v : V) :
  JsObject.keys (JsObject.replace o k v) = JsObject.keys o.
Proof.
  induction o as [|[k' v'] o IH]; cbn [JsObject.replace]; [reflexivity|].
  destruct (String.eqb k' k); cbn [JsObject.keys List.map fst]; [reflexivity|].
  unfold JsObject.keys in IH. now rewrite IH.
Qed.

Lemma keys_addEntry {V} (o : JsObject.t V) (k : string) (v : V) :
  JsObject.keys (JsObject.addEntry o k v) = JsObject.addKey (JsObject.keys o) k.
Proof.
  unfold JsObject.addEntry, JsObject.addKey, JsObject.keys.
  destruct (JsObject.arrayIndex k) as [n|]; [|now rewrite List.map_app].
  induction o as [|[k' v'] o IH];
    cbn [JsObject.addIndexEntry JsObject.addIndexKey List.map fst]; [reflexivity|].
  destruct (JsObject.arrayIndex k') as [n'|]; [destruct (n' <? n)%N|];
    cbn [List.map fst]; try reflexivity.
  now rewrite IH.
Qed.

(** Writing a property keeps the keys in order; a new key takes its place
    among them. *)
Lemma keys_set {V} (o : JsObject.t V) (k : string) (v : V) :
  JsObject.keys (JsObject.set o k v)
  = match JsObject.get o k with
    | Some _ => JsObject.keys o
    | None => JsObject.addKey (JsObject.keys o) k
    end.
Proof.
  unfold JsObject.set. destruct (JsObject.get o k); [apply keys_replace|apply keys_addEntry].
Qed.

Lemma elem_of_get {V} (o : JsObject.t V) (k : string) (v : V) :
  NoDup (JsObject.keys o) -> ((k, v) ∈ o <-> JsObject.get o k = Some v).
Proof.
  induction o as [|[k' v'] o IH]; simpl; intros Hnd.
  - split; [intros H; inversion H|discriminate].
  - apply NoDup_cons in Hnd as [Hnotin Hnd'].
    rewrite elem_of_cons.
    destruct (String.eqb k' k) eqn:E.
    + apply String.eqb_eq in E. subst k'. split.
      * intros [[= ->]|Hin]; [reflexivity|].
        exfalso. apply Hnotin. apply list_elem_of_fmap. now exists (k, v).
      * intros [= ->]. now left.
    + apply String.eqb_neq in E. rewrite <- (IH Hnd'). split.
      * intros [[= -> ->]|Hin]; [congruence|assumption].
      * tauto.
Qed.

(** *** The order of the keys *)

Lemma addIndexKey_Permutation (n : N) (k : string) (keys : list string) :
  JsObject.addIndexKey n k keys ≡ₚ k :: keys.
Proof.
  induction keys as [|k' keys IH]; cbn [JsObject.addIndexKey]; [reflexivity|].
  destruct (JsObject.arrayIndex k') as [n'|]; [|reflexivity].
  destruct (n' <? n)%N; [|reflexivity].
  rewrite IH. apply Permutation_swap.
Qed.

Lemma addKey_Permutation (keys : list string) (k : string) :
  JsObject.addKey keys k ≡ₚ keys ++ [k].
Proof.
  unfold JsObject.addKey. destruct (JsObject.arrayIndex k) as [n|]; [|reflexivity].
  rewrite addIndexKey_Permutation. apply Permutation_cons_append.
Qed.

Lemma elem_of_addKey (x : string) (keys : list string) (k : string) :
  x ∈ JsObject.addKey keys k <-> x ∈ keys \/ x = k.
Proof. rewrite addKey_Permutation, elem_of_app, list_elem_of_singleton. reflexivity. Qed.

Lemma NoDup_addKey (keys : list string) (k : string) :
  k ∉ keys -> NoDup keys -> NoDup (JsObject.addKey keys k).
Proof.
  intros Hk Hnd. rewrite addKey_Permutation. apply NoDup_app. split; [assumption|]. split.
  - intros x Hx Hin. apply list_elem_of_singleton in Hin. now subst.
  - apply NoDup_singleton.
Qed.

Lemma NoDup_keys_set {V} (o : JsObject.t V) (k : string) (v : V) :
  NoDup (JsObject.keys o) -> NoDup (JsObject.keys (JsObject.set o k v)).
Proof.
  intros Hnd. rewrite keys_set.
  destruct (JsObject.get o k) eqn:E; [assumption|].
  apply get_None_keys in E. now apply NoDup_addKey.
Qed.

(** A key that is no array index goes last. *)
Lemma addKey_ordinary (keys : list string) (k : string) :
  JsObject.arrayIndex k = None -> JsObject.addKey keys k = keys ++ [k].
Proof. intros H. unfold JsObject.addKey. now rewrite H. Qed.

Example addKey_indices_first :
  JsObject.addKey (JsObject.addKey (JsObject.addKey (JsObject.addKey [] "b") "10") "a") "9"
  = ["9"; "10"; "b"; "a"].
Proof. reflexivity. Qed.

End JsObjectFacts.

(** ** Grouping by namespace *)

Module GrouperFacts.
Import JsString JsStringFacts JsObjectFacts ModuleLoader Examples.

Section Grouper.
Variable splitModuleName : string -> ModuleName.
Variable toLowerCase : string -> string.

Local Abbreviation groupId := (Notions.groupId splitModuleName toLowerCase).
Local Abbreviation membersOf := (Notions.membersOf splitModuleName toLowerCase).
Local Abbreviation expectedGroup := (Notions.expectedGroup splitModuleName toLowerCase).

(** The object after a turn of the loop that does not throw. *)
Definition filed (acc : GirModulesGroupedMap) (m : GirModuleResolvedBy)
  : GirModulesGroupedMap :=
  match JsObject.get acc (groupId m) with
  | None =>
      JsObject.set acc (groupId m)
        {| namespace := mn_namespace (splitModuleName (packageName m));
           modules := [m]; hasConflict := false |}
  | Some g =>
      JsObject.set acc (groupId m)
        {| namespace := namespace g; modules := modules g ++ [m]; hasConflict := true |}
  end.

(** A turn throws exactly when the key is inherited and not an own key. *)
Lemma groupGirFiles_step_cases (acc : GirModulesGroupedMap) (m : GirModuleResolvedBy) :
  groupGirFiles_step splitModuleName toLowerCase acc m
  = match JsObject.get acc (groupId m) with
    | None =>
        if JsObject.prototypeMember (groupId m) then
          Throw "TypeError: Cannot read properties of undefined (reading 'push')"
        else Ok (filed acc m)
    | Some _ => Ok (filed acc m)
    end.
Proof.
  unfold groupGirFiles_step, filed. fold (groupId m).
  destruct (JsObject.get acc (groupId m)); [reflexivity|].
  now destruct (JsObject.prototypeMember (groupId m)).
Qed.

Lemma membersOf_snoc (id : string) (seen : list GirModuleResolvedBy) (m : GirModuleResolvedBy) :
  membersOf id (seen ++ [m])
  = membersOf id seen ++ (if String.eqb (groupId m) id then [m] else []).
Proof. unfold Notions.membersOf. rewrite List.filter_app. reflexivity. Qed.

Lemma expectedGroup_step (acc : GirModulesGroupedMap)
    (seen : list GirModuleResolvedBy) (m : GirModuleResolvedBy) :
  (forall id, JsObject.get acc id = expectedGroup id seen) ->
  forall id, JsObject.get (filed acc m) id = expectedGroup id (seen ++ [m]).
Proof.
  intros Hacc id. unfold filed.
  unfold Notions.expectedGroup at 1. rewrite membersOf_snoc.
  destruct (String.eqb (groupId m) id) eqn:E.
  - apply String.eqb_eq in E. subst id.
    rewrite Hacc. unfold Notions.expectedGroup.
    destruct (membersOf (groupId m) seen) as [|first others] eqn:Hm;
      rewrite get_set_eq; simpl; [reflexivity|].
    rewrite length_app. simpl.
    replace (length others + 1) with (S (length others)) by lia.
    reflexivity.
  - apply String.eqb_neq in E.
    assert (Hother : forall g, JsObject.get (JsObject.set acc (groupId m) g) id
                               = expectedGroup id seen).
    { intros g. rewrite get_set_ne by assumption. apply Hacc. }
    rewrite app_nil_r.
    destruct (JsObject.get acc (groupId m)); rewrite Hother; reflexivity.
Qed.

Lemma NoDup_keys_step (acc : GirModulesGroupedMap) (m : GirModuleResolvedBy) :
  NoDup (JsObject.keys acc) -> NoDup (JsObject.keys (filed acc m)).
Proof.
  intros H. unfold filed.
  destruct (JsObject.get acc _); now apply NoDup_keys_set.
Qed.

Lemma membersOf_head (id : string) (seen : list GirModuleResolvedBy)
    (first : GirModuleResolvedBy) (others : list GirModuleResolvedBy) :
  membersOf id seen = first :: others -> groupId first = id /\ first ∈ seen.
Proof.
  intros H.
  assert (Hin : In first (membersOf id seen)) by (rewrite H; now left).
  unfold Notions.membersOf in Hin. apply List.filter_In in Hin as [Hseen Heq].
  split; [now apply String.eqb_eq|now apply list_elem_of_In].
Qed.

(** No group is expected under an inherited name as long as no module seen
    has such a key. *)
Lemma expectedGroup_inherited (id : string) (seen : list GirModuleResolvedBy) :
  (forall m, m ∈ seen -> JsObject.prototypeMember (groupId m) = false) ->
  JsObject.prototypeMember id = true ->
  expectedGroup id seen = None.
Proof.
  intros Hseen Hid. unfold Notions.expectedGroup.
  destruct (membersOf id seen) as [|first others] eqn:Hm; [reflexivity|].
  destruct (membersOf_head _ _ _ _ Hm) as [<- Hin]. rewrite (Hseen _ Hin) in Hid.
  discriminate.
Qed.

(** The loop, from an object that holds the groups of the modules [seen]. *)
Lemma groupGirFiles_loop_spec (l : list GirModuleResolvedBy) :
  forall (seen : list GirModuleResolvedBy) (acc : GirModulesGroupedMap),
    NoDup (JsObject.keys acc) ->
    (forall id, JsObject.get acc id = expectedGroup id seen) ->
    (forall m, m ∈ seen -> JsObject.prototypeMember (groupId m) = false) ->
    match groupGirFiles_loop splitModuleName toLowerCase l acc with
    | Ok girModulesGrouped =>
        (forall m, m ∈ l -> JsObject.prototypeMember (groupId m) = false)
        /\ NoDup (JsObject.keys girModulesGrouped)
        /\ forall id, JsObject.get girModulesGrouped id = expectedGroup id (seen ++ l)
    | Throw message =>
        message = "TypeError: Cannot read properties of undefined (reading 'push')"
        /\ exists m, m ∈ l /\ JsObject.prototypeMember (groupId m) = true
    end.
Proof.
  induction l as [|m l IH]; intros seen acc Hnd Hacc Hseen; cbn [groupGirFiles_loop].
  - rewrite app_nil_r. split; [|auto]. intros m Hm. inversion Hm.
  - rewrite groupGirFiles_step_cases.
    assert (Hok : JsObject.prototypeMember (groupId m) = false ->
                  match groupGirFiles_loop splitModuleName toLowerCase l (filed acc m) with
                  | Ok girModulesGrouped =>
                      (forall m', m' ∈ m :: l -> JsObject.prototypeMember (groupId m') = false)
                      /\ NoDup (JsObject.keys girModulesGrouped)
                      /\ forall id, JsObject.get girModulesGrouped id
                                    = expectedGroup id (seen ++ m :: l)
                  | Throw message =>
                      message
                      = "TypeError: Cannot read properties of undefined (reading 'push')"
                      /\ exists m', m' ∈ m :: l /\ JsObject.prototypeMember (groupId m') = true
                  end).
    { intros Hm.
      specialize (IH (seen ++ [m]) (filed acc m) (NoDup_keys_step _ _ Hnd)
                    (expectedGroup_step _ _ _ Hacc)).
      replace (seen ++ m :: l) with ((seen ++ [m]) ++ l) by now rewrite <- app_assoc.
      destruct (groupGirFiles_loop splitModuleName toLowerCase l (filed acc m))
        as [girModulesGrouped|message].
      - destruct IH as (Hl & Hnd' & Hget).
        { intros m' Hm'. apply elem_of_app in Hm' as [Hm'|Hm']; [auto|].
          apply list_elem_of_singleton in Hm'. now subst. }
        split; [|auto]. intros m' Hm'. apply elem_of_cons in Hm' as [->|Hm']; auto.
      - destruct IH as (Hmsg & m' & Hm' & Hp).
        { intros m' Hm'. apply elem_of_app in Hm' as [Hm'|Hm']; [auto|].
          apply list_elem_of_singleton in Hm'. now subst. }
        split; [exact Hmsg|]. exists m'. split; [now right|exact Hp]. }
    destruct (JsObject.prototypeMember (groupId m)) eqn:Hproto.
    + rewrite Hacc, (expectedGroup_inherited _ _ Hseen Hproto).
      split; [reflexivity|]. exists m. split; [left|exact Hproto].
    + destruct (JsObject.get acc (groupId m)); now apply Hok.
Qed.

(** What [groupGirFiles] does on a list of modules. *)
Lemma groupGirFiles_spec (resolveGirModules : list GirModuleResolvedBy) :
  match groupGirFiles splitModuleName toLowerCase resolveGirModules with
  | Ok girModulesGrouped =>
      (forall m, m ∈ resolveGirModules -> JsObject.prototypeMember (groupId m) = false)
      /\ NoDup (JsObject.keys girModulesGrouped)
      /\ forall id, JsObject.get girModulesGrouped id = expectedGroup id resolveGirModules
  | Throw message =>
      message = "TypeError: Cannot read properties of undefined (reading 'push')"
      /\ exists m, m ∈ resolveGirModules /\ JsObject.prototypeMember (groupId m) = true
  end.
Proof.
  unfold groupGirFiles.
  apply (groupGirFiles_loop_spec resolveGirModules [] []).
  - apply NoDup_nil_2.
  - reflexivity.
  - intros m Hm. inversion Hm.
Qed.

(** What the groups of a returned object hold. *)
Lemma grouped_partition (resolveGirModules : list GirModuleResolvedBy)
    (girModulesGrouped : GirModulesGroupedMap) :
  NoDup (JsObject.keys girModulesGrouped) ->
  (forall id, JsObject.get girModulesGrouped id = expectedGroup id resolveGirModules) ->
  (forall (id : string) (g : GirModulesGrouped),
      (id, g) ∈ girModulesGrouped ->
      id = toLowerCase (namespace g)
      /\ modules g = membersOf id resolveGirModules
      /\ modules g <> []
      /\ (hasConflict g = true <-> 2 <= length (modules g)))
  /\ (forall m : GirModuleResolvedBy,
        m ∈ resolveGirModules ->
        exists g : GirModulesGrouped,
          (groupId m, g) ∈ girModulesGrouped /\ m ∈ modules g).
Proof.
  intros Hnd Hget. split.
  - intros id g Hin. apply (elem_of_get _ _ _ Hnd) in Hin.
    rewrite Hget in Hin. unfold Notions.expectedGroup in Hin.
    destruct (membersOf id resolveGirModules) as [|first others] eqn:Hm; [discriminate|].
    injection Hin as <-. simpl.
    split; [symmetry; exact (proj1 (membersOf_head _ _ _ _ Hm))|].
    split; [reflexivity|]. split; [discriminate|].
    destruct others; simpl; split; intros H; try reflexivity; try discriminate; lia.
  - intros m Hm.
    assert (Hmem : In m (membersOf (groupId m) resolveGirModules)).
    { unfold Notions.membersOf. apply List.filter_In. split.
      - now apply list_elem_of_In.
      - apply String.eqb_refl. }
    pose proof (Hget (groupId m)) as Hg.
    unfold Notions.expectedGroup in Hg.
    destruct (membersOf (groupId m) resolveGirModules) as [|first others] eqn:Hmo;
      [destruct Hmem|].
    eexists. split.
    + apply (elem_of_get _ _ _ Hnd). exact Hg.
    + simpl. now apply list_elem_of_In.
Qed.

(** C7, as the code has it: [groupGirFiles] splits the modules by
    lower-cased namespace unless one of these is a name a plain object
    inherits from [Object.prototype] ([constructor], [__proto__]): then the
    call throws a [TypeError] and gives no groups.  Otherwise it returns;
    the keys of the result are distinct; a group filed under [id] has [id]
    as the lower-cased form of its namespace, holds exactly the input
    modules of that key in input order, is not empty, and is flagged as a
    conflict exactly when it holds two modules or more; every input module
    is in the group of its key. *)
Theorem groupGirFiles_partition (resolveGirModules : list GirModuleResolvedBy) :
  ((exists m, m ∈ resolveGirModules /\ JsObject.prototypeMember (groupId m) = true) ->
   groupGirFiles splitModuleName toLowerCase resolveGirModules
   = Throw "TypeError: Cannot read properties of undefined (reading 'push')")
  /\ ((forall m, m ∈ resolveGirModules -> JsObject.prototypeMember (groupId m) = false) ->
      exists girModulesGrouped : GirModulesGroupedMap,
        groupGirFiles splitModuleName toLowerCase resolveGirModules = Ok girModulesGrouped
        /\ NoDup (JsObject.keys girModulesGrouped)
        /\ (forall (id : string) (g : GirModulesGrouped),
              (id, g) ∈ girModulesGrouped ->
              id = toLowerCase (namespace g)
              /\ modules g = membersOf id resolveGirModules
              /\ modules g <> []
              /\ (hasConflict g = true <-> 2 <= length (modules g)))
        /\ (forall m : GirModuleResolvedBy,
              m ∈ resolveGirModules ->
              exists g : GirModulesGrouped,
                (groupId m, g) ∈ girModulesGrouped /\ m ∈ modules g)).
Proof.
  pose proof (groupGirFiles_spec resolveGirModules) as Hspec.
  destruct (groupGirFiles splitModuleName toLowerCase resolveGirModules)
    as [girModulesGrouped|message].
  - destruct Hspec as (Hall & Hnd & Hget). split.
    + intros (m & Hm & Hp). rewrite (Hall m Hm) in Hp. discriminate.
    + intros _. exists girModulesGrouped. split; [reflexivity|]. split; [exact Hnd|].
      now apply grouped_partition.
  - destruct Hspec as (-> & m & Hm & Hp). split; [reflexivity|].
    intros Hall. rewrite (Hall m Hm) in Hp. discriminate.
Qed.

End Grouper.

Example groupGirFiles_gtk :
  groupGirFiles exampleSplitModuleName exampleToLowerCase
    [exampleModule "Gtk-3.0" []; exampleModule "Gdk-3.0" []; exampleModule "Gtk-4.0" []]
  = Ok [("gtk", {| namespace := "Gtk";
                   modules := [exampleModule "Gtk-3.0" []; exampleModule "Gtk-4.0" []];
                   hasConflict := true |});
        ("gdk", {| namespace := "Gdk";
                   modules := [exampleModule "Gdk-3.0" []];
                   hasConflict := false |})].
Proof. reflexivity. Qed.

(** A namespace that is an array index is listed first. *)
Example groupGirFiles_index_first :
  groupGirFiles exampleSplitModuleName exampleToLowerCase
    [exampleModule "Gtk-3.0" []; exampleModule "7-1.0" []]
  = Ok [("7", {| namespace := "7";
                 modules := [exampleModule "7-1.0" []];
                 hasConflict := false |});
        ("gtk", {| namespace := "Gtk";
                   modules := [exampleModule "Gtk-3.0" []];
                   hasConflict := false |})].
Proof. reflexivity. Qed.

Lemma groupGirFiles_partition_witness :
  groupGirFiles exampleSplitModuleName exampleToLowerCase
    [exampleModule "Gtk-3.0" []; exampleModule "Constructor-1.0" []]
  = Throw "TypeError: Cannot read properties of undefined (reading 'push')"
  /\ exists girModulesGrouped g,
       groupGirFiles exampleSplitModuleName exampleToLowerCase
         [exampleModule "Gtk-3.0" []; exampleModule "Gtk-4.0" []] = Ok girModulesGrouped
       /\ ("gtk", g) ∈ girModulesGrouped
       /\ exampleModule "Gtk-4.0" [] ∈ modules g.
Proof.
  split.
  - apply (proj1 (groupGirFiles_partition exampleSplitModuleName exampleToLowerCase
                    [exampleModule "Gtk-3.0" []; exampleModule "Constructor-1.0" []])).
    exists (exampleModule "Constructor-1.0" []). split; [|reflexivity].
    apply list_elem_of_further, list_elem_of_here.
  - destruct (proj2 (groupGirFiles_partition exampleSplitModuleName exampleToLowerCase
                       [exampleModule "Gtk-3.0" []; exampleModule "Gtk-4.0" []]))
      as (girModulesGrouped & Hok & _ & _ & Hin).
    { intros m Hm. apply elem_of_cons in Hm as [->|Hm]; [reflexivity|].
      apply list_elem_of_singleton in Hm. now subst m. }
    destruct (Hin (exampleModule "Gtk-4.0" [])) as (g & Hg & Hm).
    { apply list_elem_of_further, list_elem_of_here. }
    exists girModulesGrouped, g. auto.
Defined.

(** The claim as the design document words it fails on a module whose
    namespace is [Constructor]: no map of groups is returned, the call
    throws. *)
Lemma groupGirFiles_partition_counterexample :
  groupGirFiles exampleSplitModuleName exampleToLowerCase
    [exampleModule "Gtk-3.0" []; exampleModule "Constructor-1.0" []]
  = Throw "TypeError: Cannot read properties of undefined (reading 'push')"
  /\ forall girModulesGrouped : GirModulesGroupedMap,
       groupGirFiles exampleSplitModuleName exampleToLowerCase
         [exampleModule "Gtk-3.0" []; exampleModule "Constructor-1.0" []]
       <> Ok girModulesGrouped.
Proof. split; [reflexivity|discriminate]. Qed.

End GrouperFacts.

(** ** The conflict protocol *)

Module ResolverFacts.
Import JsString JsStringFacts ModuleLoader Examples.

Lemma JsSet_add_elem {A} `{EqDecision A} (s : list A) (x y : A) :
  y ∈ JsSet.add s x <-> y ∈ s \/ y = x.
Proof.
  unfold JsSet.add, JsSet.has. case_bool_decide as Hx.
  - split; [tauto|]. intros [H'| ->]; assumption.
  - rewrite elem_of_app, list_elem_of_singleton. tauto.
Qed.

Lemma JsSet_add_all_elem {A} `{EqDecision A} (xs s : list A) (y : A) :
  y ∈ JsSet.add_all s xs <-> y ∈ s \/ y ∈ xs.
Proof.
  unfold JsSet.add_all. revert s. induction xs as [|x xs IH]; intros s; simpl.
  - rewrite elem_of_nil. tauto.
  - rewrite IH, JsSet_add_elem, elem_of_cons. tauto.
Qed.

Lemma JsSet_add_all_NoDup {A} `{EqDecision A} (xs s : list A) :
  NoDup s -> NoDup (JsSet.add_all s xs).
Proof.
  unfold JsSet.add_all. revert s. induction xs as [|x xs IH]; intros s Hs; simpl.
  - assumption.
  - apply IH. unfold JsSet.add, JsSet.has. case_bool_decide as Hx; [assumption|].
    apply NoDup_app. split; [assumption|]. split.
    + intros y Hy Hin. apply list_elem_of_singleton in Hin. now subst.
    + apply NoDup_singleton.
Qed.

(** Dropping the entry [All] from names none of which is [All]. *)
Lemma filter_not_All (names : list string) :
  (forall n, n ∈ names -> n <> "All") ->
  List.filter (fun choice => negb (String.eqb choice "All")) names = names.
Proof.
  induction names as [|n names IH]; intros H; simpl; [reflexivity|].
  assert (Hn : n <> "All") by (apply H; left).
  apply String.eqb_neq in Hn. rewrite Hn. simpl. f_equal.
  apply IH. intros n' Hn'. apply H. now right.
Qed.

Lemma findGirModuleByFullNames_all (ms : list GirModuleResolvedBy) :
  findGirModuleByFullNames ms (List.map packageName ms) = ms.
Proof.
  unfold findGirModuleByFullNames.
  assert (H : forall names, (forall m, In m ms -> In (packageName m) names) ->
            List.filter (fun girModule => array_includes names (packageName girModule)) ms = ms).
  { intros names. induction ms as [|m ms IH]; intros Hall; simpl; [reflexivity|].
    assert (Hm : array_includes names (packageName m) = true).
    { apply array_includes_In. apply Hall. now left. }
    rewrite Hm. f_equal. apply IH. intros m' Hm'. apply Hall. now right. }
  apply H. intros m Hm. now apply in_map.
Qed.

Lemma toIgnore_all (ms : list GirModuleResolvedBy) :
  List.filter (fun packageName_ => negb (array_includes (List.map packageName ms) packageName_))
    (List.map packageName ms) = [].
Proof.
  assert (H : forall names l, (forall n, In n l -> In n names) ->
            List.filter (fun packageName_ => negb (array_includes names packageName_)) l = []).
  { intros names l. induction l as [|n l IH]; intros Hall; simpl; [reflexivity|].
    assert (Hn : array_includes names n = true).
    { apply array_includes_In. apply Hall. now left. }
    rewrite Hn. simpl. apply IH. intros n' Hn'. apply Hall. now right. }
  apply H. auto.
Qed.

Lemma findGirModuleByFullNames_nil (ms : list GirModuleResolvedBy) (names : list string) :
  findGirModuleByFullNames ms names = [] <->
  (forall m, m ∈ ms -> packageName m ∉ names).
Proof.
  unfold findGirModuleByFullNames. induction ms as [|m ms IH]; simpl.
  - split; [|reflexivity]. intros _ m Hm. inversion Hm.
  - destruct (array_includes names (packageName m)) eqn:E.
    + split; [discriminate|]. intros H. exfalso.
      apply array_includes_In in E. apply (H m); [left|now apply list_elem_of_In].
    + rewrite IH. apply array_includes_false in E. split.
      * intros H m' Hm'. apply elem_of_cons in Hm' as [->|Hm'].
        -- intros Hin. apply E. now apply list_elem_of_In.
        -- now apply H.
      * intros H m' Hm'. apply H. now right.
Qed.

Lemma findModulesDependOnPackages_nil (girModulesGroupedMap : GirModulesGroupedMap) :
  findModulesDependOnPackages girModulesGroupedMap [] = [].
Proof. reflexivity. Qed.

(** What [sortVersionsByAnswer] does with the answer [All] of a group none
    of whose members is called [All]. *)
Lemma sortVersionsByAnswer_all (g : GirModulesGrouped) :
  hasConflict g = true -> modules g <> [] ->
  sortVersionsByAnswer g (List.map packageName (modules g))
  = Ok (JsSet.add_all [] (modules g), []).
Proof.
  intros Hc Hne. unfold sortVersionsByAnswer. rewrite Hc. simpl.
  rewrite findGirModuleByFullNames_all, toIgnore_all.
  destruct (modules g); [congruence|reflexivity].
Qed.

Section Resolver.
Variable union : list GirModuleResolvedBy -> list GirModuleResolvedBy -> list GirModuleResolvedBy.

Local Abbreviation LoopReaches := (Notions.LoopReaches union).

(** C4: in a group in conflict the answer [All] selects every member name
    but the literal [All] and leaves nothing unselected.  Package names have
    the form namespace-version, so none of them is [All]: then
    [sortVersionsByAnswer] keeps every member and ignores none, and the loop
    over the groups goes on with the members joined to [keep] and [ignore]
    as it was. *)
Theorem all_keeps_every_member (g : GirModulesGrouped) :
  askForVersionsPrompt g "All"
  = Ok {| selected := List.filter (fun choice => negb (String.eqb choice "All"))
                        (List.map packageName (modules g));
          unselected := [] |}
  /\ (hasConflict g = true -> modules g <> [] ->
      (forall m, m ∈ modules g -> packageName m <> "All") ->
      exists keep : list GirModuleResolvedBy,
        (forall a, askForVersionsPrompt g "All" = Ok a ->
                   sortVersionsByAnswer g (selected a) = Ok (keep, []))
        /\ (forall m, m ∈ keep <-> m ∈ modules g)
        /\ forall done id group0 rest keep0 ignore0 depsChoice answers,
             removeIgnored ignore0 group0 = g ->
             depsChoice <> "Go back" ->
             forEachGroup_body union done (id, group0) rest
               {| rs_keep := keep0; rs_ignore := ignore0;
                  rs_answers := "All" :: depsChoice :: answers |}
             = Finished (done ++ [(id, g)],
                         {| rs_keep := union keep0 keep; rs_ignore := ignore0;
                            rs_answers := answers |})).
Proof.
  split; [reflexivity|].
  intros Hc Hne Hall. exists (JsSet.add_all [] (modules g)).
  assert (Hsel : List.filter (fun choice => negb (String.eqb choice "All"))
                   (List.map packageName (modules g)) = List.map packageName (modules g)).
  { apply filter_not_All. intros n Hn.
    apply list_elem_of_fmap in Hn as (m & -> & Hm). now apply Hall. }
  split; [|split].
  - intros a [= <-]. simpl. rewrite Hsel. now apply sortVersionsByAnswer_all.
  - intros m. rewrite JsSet_add_all_elem, elem_of_nil. tauto.
  - intros done id group0 rest keep0 ignore0 depsChoice answers Hg Hgb.
    unfold forEachGroup_body. cbn [rs_ignore rs_answers rs_keep fst snd]. rewrite Hg.
    assert (Hlen : (length (modules g) <=? 0) = false).
    { apply Nat.leb_gt. destruct (modules g); [congruence|simpl; lia]. }
    rewrite Hlen, Hc. cbn [negb whileGoBack].
    change (askForVersionsPrompt g "All") with
      (Ok {| selected := List.filter (fun choice => negb (String.eqb choice "All"))
                           (List.map packageName (modules g));
             unselected := [] |}).
    cbn [unselected]. rewrite findModulesDependOnPackages_nil. cbn [List.filter].
    unfold askIgnoreDepsPrompt.
    apply String.eqb_neq in Hgb. rewrite Hgb.
    cbn [versionAnswer selected wouldIgnoreDeps ignoreDepsAnswer]. rewrite Hsel.
    rewrite sortVersionsByAnswer_all by assumption.
    cbn [fst snd List.map]. rewrite !app_nil_r.
    destruct (String.eqb depsChoice "Yes"); reflexivity.
Qed.

Lemma forEachGroup_from_reached girModulesGroupedMap ignore answers done todo st :
  LoopReaches girModulesGroupedMap ignore answers done todo st ->
  forEachGroup union [] girModulesGroupedMap
    {| rs_keep := []; rs_ignore := ignore; rs_answers := answers |}
  = forEachGroup union done todo st.
Proof.
  induction 1 as [|done entry rest st done' st' _ IH Hbody]; [reflexivity|].
  rewrite IH. cbn [forEachGroup]. now rewrite Hbody.
Qed.

(** A throw in one turn of the loop ends the resolver with that throw. *)
Lemma body_throw_aborts girModulesGroupedMap ignore answers done entry rest st e :
  LoopReaches girModulesGroupedMap ignore answers done (entry :: rest) st ->
  forEachGroup_body union done entry rest st = Thrown e ->
  askForEachConflictVersionsPrompt union girModulesGroupedMap ignore answers = Thrown e.
Proof.
  intros Hreach Hbody. unfold askForEachConflictVersionsPrompt.
  rewrite (forEachGroup_from_reached _ _ _ _ _ _ Hreach).
  cbn [forEachGroup]. now rewrite Hbody.
Qed.

Lemma sortVersionsByAnswer_no_match (g : GirModulesGrouped) (selected_ : list string) :
  hasConflict g = true ->
  (forall m, m ∈ modules g -> packageName m ∉ selected_) ->
  sortVersionsByAnswer g selected_ = Throw "Module not found!".
Proof.
  intros Hc Hnone. apply findGirModuleByFullNames_nil in Hnone.
  unfold sortVersionsByAnswer. now rewrite Hc, Hnone.
Qed.

(** C5: in a group in conflict, selected names that match no member make
    [sortVersionsByAnswer] throw "Module not found!"; in every other case it
    returns.  The throw is not caught: whichever turn of the loop it happens
    in, [askForEachConflictVersionsPrompt] ends with it. *)
Theorem module_not_found_aborts (g : GirModulesGrouped) (selected_ : list string) :
  (hasConflict g = true ->
   (forall m, m ∈ modules g -> packageName m ∉ selected_) ->
   sortVersionsByAnswer g selected_ = Throw "Module not found!")
  /\ (~ (hasConflict g = true /\ forall m, m ∈ modules g -> packageName m ∉ selected_) ->
      exists r, sortVersionsByAnswer g selected_ = Ok r)
  /\ (forall girModulesGroupedMap ignore answers done id group0 rest st c answers',
        LoopReaches girModulesGroupedMap ignore answers done ((id, group0) :: rest) st ->
        removeIgnored (rs_ignore st) group0 = g ->
        hasConflict g = true ->
        whileGoBack (done ++ (id, g) :: rest) g (rs_ignore st) (rs_answers st)
        = Finished (c, answers') ->
        selected (versionAnswer c) = selected_ ->
        (forall m, m ∈ modules g -> packageName m ∉ selected_) ->
        askForEachConflictVersionsPrompt union girModulesGroupedMap ignore answers
        = Thrown "Module not found!").
Proof.
  split; [apply sortVersionsByAnswer_no_match|]. split.
  - intros Hnot. unfold sortVersionsByAnswer.
    destruct (hasConflict g) eqn:Hc; simpl; [|eauto].
    destruct (findGirModuleByFullNames (modules g) selected_) as [|m ms] eqn:Hf; simpl; [|eauto].
    exfalso. apply Hnot. split; [reflexivity|].
    now apply findGirModuleByFullNames_nil.
  - intros girModulesGroupedMap ignore answers done id group0 rest st c answers'
      Hreach Hg Hc Hloop Hsel Hnone.
    eapply body_throw_aborts; [exact Hreach|].
    unfold forEachGroup_body. cbn [fst snd]. rewrite Hg, Hc.
    assert (Hlen : (length (modules g) <=? 0) = false).
    { apply Nat.leb_gt. subst g. unfold removeIgnored in Hc. cbn [hasConflict] in Hc.
      apply Nat.leb_le in Hc. unfold removeIgnored. cbn [modules]. lia. }
    rewrite Hlen. cbn [negb]. rewrite Hloop, Hsel.
    now rewrite sortVersionsByAnswer_no_match.
Qed.

Lemma whileGoBack_confirmed girModulesGroupedMap g ignore (script : list string) c answers' :
  whileGoBack girModulesGroupedMap g ignore script = Finished (c, answers') ->
  ignoreDepsAnswer c <> "Go back".
Proof.
  remember (length script) as n eqn:Hn.
  assert (Hle : length script <= n) by lia. clear Hn.
  revert script Hle. induction n as [|n IH]; intros script Hle.
  - destruct script; [discriminate|simpl in Hle; lia].
  - destruct script as [|v [|d script]]; cbn [whileGoBack].
    + discriminate.
    + destruct (askForVersionsPrompt g v); discriminate.
    + destruct (askForVersionsPrompt g v) as [a|e]; [|discriminate].
      unfold askIgnoreDepsPrompt.
      destruct (String.eqb d "Go back") eqn:E.
      * apply IH. simpl in Hle. lia.
      * intros [= <- _]. cbn [ignoreDepsAnswer]. now apply String.eqb_neq.
Qed.

(** C8: in the retry loop of a group in conflict, the answer "Go back"
    (after any version was picked) starts the loop again for the same group
    with [ignore] as it was, and the turn of the [for] loop goes on from the
    rest of the script with [keep] and [ignore] untouched; the code that
    changes [keep] and [ignore] is only reached with an answer other than
    "Go back". *)
Theorem go_back_leaves_state (done : GirModulesGroupedMap) (id : string)
    (group0 : GirModulesGrouped) (rest : GirModulesGroupedMap)
    (keep : list GirModuleResolvedBy) (ignore : list string)
    (versionChoice : string) (answers : list string) :
  hasConflict (removeIgnored ignore group0) = true ->
  truthy versionChoice = true ->
  whileGoBack (done ++ (id, removeIgnored ignore group0) :: rest)
    (removeIgnored ignore group0) ignore (versionChoice :: "Go back" :: answers)
  = whileGoBack (done ++ (id, removeIgnored ignore group0) :: rest)
      (removeIgnored ignore group0) ignore answers
  /\ forEachGroup_body union done (id, group0) rest
       {| rs_keep := keep; rs_ignore := ignore;
          rs_answers := versionChoice :: "Go back" :: answers |}
     = forEachGroup_body union done (id, group0) rest
         {| rs_keep := keep; rs_ignore := ignore; rs_answers := answers |}
  /\ forall script c answers',
       whileGoBack (done ++ (id, removeIgnored ignore group0) :: rest)
         (removeIgnored ignore group0) ignore script = Finished (c, answers') ->
       ignoreDepsAnswer c <> "Go back".
Proof.
  intros Hc Hv.
  assert (Hloop : forall m g,
            whileGoBack m g ignore (versionChoice :: "Go back" :: answers)
            = whileGoBack m g ignore answers).
  { intros m g. cbn [whileGoBack]. unfold askForVersionsPrompt. rewrite Hv. cbn [negb].
    destruct (String.eqb versionChoice "All"); reflexivity. }
  split; [apply Hloop|]. split.
  - unfold forEachGroup_body. cbn [rs_ignore rs_answers rs_keep fst snd].
    assert (Hlen : (length (modules (removeIgnored ignore group0)) <=? 0) = false).
    { apply Nat.leb_gt. unfold removeIgnored in *. cbn [hasConflict modules] in *.
      apply Nat.leb_le in Hc. lia. }
    rewrite Hlen, Hc. cbn [negb]. now rewrite Hloop.
  - intros script c answers'. apply whileGoBack_confirmed.
Qed.

End Resolver.

Example all_three_members :
  askForEachConflictVersionsPrompt exampleUnion [("gtk", gtkGroup)] [] ["All"; "Yes"]
  = Finished ({| res_keep := modules gtkGroup; res_ignore := []; res_addToConfig := None |}, []).
Proof. reflexivity. Qed.

Example cascade_yes :
  askForEachConflictVersionsPrompt exampleUnion exampleGrouped [] ["Gtk-4.0"; "Yes"; "No"]
  = Finished ({| res_keep := [exampleModule "Gtk-4.0" []];
                 res_ignore := ["Gdk-3.0"; "Gtk-3.0"];
                 res_addToConfig := None |}, []).
Proof. reflexivity. Qed.

Lemma all_keeps_every_member_witness :
  exists keep : list GirModuleResolvedBy,
    (forall a, askForVersionsPrompt gtkGroup "All" = Ok a ->
               sortVersionsByAnswer gtkGroup (selected a) = Ok (keep, []))
    /\ (forall m, m ∈ keep <-> m ∈ modules gtkGroup)
    /\ forall done id group0 rest keep0 ignore0 depsChoice answers,
         removeIgnored ignore0 group0 = gtkGroup ->
         depsChoice <> "Go back" ->
         forEachGroup_body exampleUnion done (id, group0) rest
           {| rs_keep := keep0; rs_ignore := ignore0;
              rs_answers := "All" :: depsChoice :: answers |}
         = Finished (done ++ [(id, gtkGroup)],
                     {| rs_keep := exampleUnion keep0 keep; rs_ignore := ignore0;
                        rs_answers := answers |}).
Proof.
  apply (proj2 (all_keeps_every_member exampleUnion gtkGroup)).
  - reflexivity.
  - discriminate.
  - intros m Hm. apply list_elem_of_In in Hm. simpl in Hm.
    destruct Hm as [<-|[<-|[<-|[]]]]; discriminate.
Defined.

Lemma module_not_found_aborts_witness :
  askForEachConflictVersionsPrompt exampleUnion exampleGrouped [] ["Gtk-5.0"; "Yes"]
  = Thrown "Module not found!".
Proof.
  eapply (proj2 (proj2 (module_not_found_aborts exampleUnion
                          (removeIgnored [] (mkGrouped "Gtk"
                             [exampleModule "Gtk-3.0" []; exampleModule "Gtk-4.0" []] true))
                          ["Gtk-5.0"]))
            exampleGrouped [] ["Gtk-5.0"; "Yes"] [] "gtk" _ _ _ _ _).
  - apply Notions.reach_start.
  - reflexivity.
  - reflexivity.
  - reflexivity.
  - reflexivity.
  - intros m Hm Hin. apply list_elem_of_In in Hm. apply list_elem_of_In in Hin.
    simpl in Hm, Hin. destruct Hin as [Hin|[]].
    destruct Hm as [<-|[<-|[]]]; discriminate.
Defined.

Lemma go_back_leaves_state_witness :
  forEachGroup_body exampleUnion [] ("gtk", gtkGroup) []
    {| rs_keep := []; rs_ignore := [];
       rs_answers := ["Gtk-3.0"; "Go back"; "Gtk-4.0"; "Yes"] |}
  = forEachGroup_body exampleUnion [] ("gtk", gtkGroup) []
      {| rs_keep := []; rs_ignore := []; rs_answers := ["Gtk-4.0"; "Yes"] |}.
Proof.
  apply (go_back_leaves_state exampleUnion [] "gtk" gtkGroup [] [] [] "Gtk-3.0"
           ["Gtk-4.0"; "Yes"]).
  - reflexivity.
  - reflexivity.
Defined.

End ResolverFacts.

(** ** Transitive dependencies *)

Module TraversalFacts.
Import JsString JsStringFacts JsObjectFacts ModuleLoader Notions Examples.

Lemma array_includes_elem_of (a : list string) (x : string) :
  array_includes a x = true <-> x ∈ a.
Proof. rewrite array_includes_In. symmetry. apply list_elem_of_In. Qed.

Lemma array_includes_not_elem_of (a : list string) (x : string) :
  array_includes a x = false <-> x ∉ a.
Proof.
  rewrite <- array_includes_elem_of. destruct (array_includes a x); split; congruence.
Qed.

(** *** More fuel does not change a result *)

Lemma traverseDependencies_loop_mono
    (rec1 rec2 : string -> list string -> option (list string))
    (deps : list Dependency) :
  (forall p r x, rec1 p r = Some x -> rec2 p r = Some x) ->
  forall r x,
    traverseDependencies_loop rec1 deps r = Some x ->
    traverseDependencies_loop rec2 deps r = Some x.
Proof.
  intros Hrec. induction deps as [|dep deps IH]; intros r x;
    cbn [traverseDependencies_loop]; [auto|].
  destruct (array_includes r (dep_packageName dep)
            || JsObject.prototypeMember (dep_packageName dep)); [apply IH|].
  destruct (rec1 _ _) as [r1|] eqn:E1; [|discriminate].
  rewrite (Hrec _ _ _ E1). apply IH.
Qed.

Lemma traverseDependencies_S (fuel : nat) (m : DependencyMap) :
  forall p r x,
    traverseDependencies fuel m p r = Some x ->
    traverseDependencies (S fuel) m p r = Some x.
Proof.
  induction fuel as [|fuel IH]; intros p r x; [discriminate|].
  cbn [traverseDependencies].
  destruct (m !! p) as [deps|]; [|auto].
  apply traverseDependencies_loop_mono. exact IH.
Qed.

Lemma traverseDependencies_mono (fuel fuel' : nat) (m : DependencyMap) p r x :
  fuel <= fuel' ->
  traverseDependencies fuel m p r = Some x ->
  traverseDependencies fuel' m p r = Some x.
Proof.
  induction 1 as [|fuel' _ IH]; [auto|].
  intros H. apply traverseDependencies_S. auto.
Qed.

(** *** The measure: names of the map not yet in [result] *)

Lemma length_list_difference_mono (l k k' : list string) :
  (forall x, x ∈ k -> x ∈ k') ->
  length (list_difference l k') <= length (list_difference l k).
Proof.
  intros Hsub. induction l as [|x l IH]; simpl; [lia|].
  destruct (decide_rel elem_of x k) as [Hk|Hk];
    destruct (decide_rel elem_of x k') as [Hk'|Hk']; simpl; try lia.
  exfalso. auto.
Qed.

Lemma length_list_difference_snoc (l k : list string) (d : string) :
  d ∈ l -> d ∉ k ->
  length (list_difference l (k ++ [d])) < length (list_difference l k).
Proof.
  intros Hd Hk. induction l as [|x l IH]; [inversion Hd|].
  assert (Hmono : length (list_difference l (k ++ [d])) <= length (list_difference l k)).
  { apply length_list_difference_mono. intros y Hy. apply elem_of_app. now left. }
  simpl.
  destruct (decide_rel elem_of x k) as [Hxk|Hxk];
    destruct (decide_rel elem_of x (k ++ [d])) as [Hxkd|Hxkd]; simpl.
  - apply IH. apply elem_of_cons in Hd as [->|Hd]; [contradiction|assumption].
  - exfalso. apply Hxkd. apply elem_of_app. now left.
  - lia.
  - assert (x <> d).
    { intros ->. apply Hxkd. apply elem_of_app. right. now left. }
    apply elem_of_cons in Hd as [->|Hd]; [congruence|].
    specialize (IH Hd). lia.
Qed.

Lemma length_list_difference_addKey (l k : list string) (d : string) :
  d ∈ l -> d ∉ k ->
  length (list_difference l (JsObject.addKey k d)) < length (list_difference l k).
Proof.
  intros Hd Hk. pose proof (length_list_difference_snoc l k d Hd Hk) as Hlt.
  assert (Hle : length (list_difference l (JsObject.addKey k d))
                <= length (list_difference l (k ++ [d]))).
  { apply length_list_difference_mono. intros x Hx. apply elem_of_addKey.
    apply elem_of_app in Hx as [Hx|Hx]; [now left|].
    right. now apply list_elem_of_singleton in Hx. }
  lia.
Qed.

Lemma length_unvisited (m : DependencyMap) (result : list string) :
  length (unvisited m result) < closureFuel m.
Proof.
  unfold unvisited, closureFuel.
  assert (H : forall l k : list string, length (list_difference l k) <= length l).
  { intros l k. induction l as [|x l IH]; simpl; [lia|].
    destruct (decide_rel elem_of x k); simpl; lia. }
  specialize (H (dependencyNames m) result). lia.
Qed.

Lemma dependencyNames_lookup (m : DependencyMap) (p : string) (deps : list Dependency)
    (dep : Dependency) :
  m !! p = Some deps -> dep ∈ deps -> dep_packageName dep ∈ dependencyNames m.
Proof.
  intros Hp Hdep. unfold dependencyNames. apply list_elem_of_In, in_concat.
  exists (List.map dep_packageName deps). split.
  - apply in_map_iff. exists (p, deps). split; [reflexivity|].
    apply list_elem_of_In. now apply elem_of_map_to_list.
  - apply in_map. now apply list_elem_of_In.
Qed.

(** *** The walk ends, and what it leaves in [result] *)

Lemma Walked_refl (m : DependencyMap) (r : list string) : Walked m r r.
Proof. unfold Walked. auto. Qed.

Lemma Walked_trans (m : DependencyMap) (r1 r2 r3 : list string) :
  Walked m r1 r2 -> Walked m r2 r3 -> Walked m r1 r3.
Proof.
  intros (S1 & N1 & U1) (S2 & N2 & U2). unfold Walked. split; [auto|]. split; [auto|].
  intros x Hx. destruct (U2 x Hx) as [H|H]; auto.
Qed.

Lemma Walked_addKey (m : DependencyMap) (r : list string) (d : string) :
  d ∉ r -> d ∈ dependencyNames m -> Walked m r (JsObject.addKey r d).
Proof.
  intros Hd HU. unfold Walked. split; [|split].
  - intros x Hx. apply elem_of_addKey. now left.
  - intros Hnd. now apply NoDup_addKey.
  - intros x Hx. apply elem_of_addKey in Hx as [Hx| ->]; [now left|now right].
Qed.

Lemma traverseDependencies_fuel (fuel : nat) (m : DependencyMap) :
  forall p r,
    length (unvisited m r) < fuel ->
    exists r', traverseDependencies fuel m p r = Some r' /\ Walked m r r'.
Proof.
  induction fuel as [|fuel IH]; intros p r Hfuel; [lia|].
  cbn [traverseDependencies].
  destruct (m !! p) as [deps|] eqn:Hp; [|eauto using Walked_refl].
  assert (Hdeps : forall dep, dep ∈ deps -> dep_packageName dep ∈ dependencyNames m).
  { intros dep Hdep. eapply dependencyNames_lookup; eassumption. }
  clear Hp. revert r Hfuel.
  induction deps as [|dep deps IHdeps]; intros r Hfuel; cbn [traverseDependencies_loop].
  - eauto using Walked_refl.
  - assert (Hrest : forall dep', dep' ∈ deps -> dep_packageName dep' ∈ dependencyNames m).
    { intros dep' H'. apply Hdeps. now right. }
    destruct (array_includes r (dep_packageName dep)
              || JsObject.prototypeMember (dep_packageName dep)) eqn:Hinc.
    + now apply IHdeps.
    + apply orb_false_iff in Hinc as [Hinc _].
      apply array_includes_not_elem_of in Hinc.
      assert (HU : dep_packageName dep ∈ dependencyNames m) by (apply Hdeps; left).
      pose proof (length_list_difference_addKey _ _ _ HU Hinc) as Hlt.
      fold (unvisited m (JsObject.addKey r (dep_packageName dep))) in Hlt.
      fold (unvisited m r) in Hlt.
      destruct (IH (dep_packageName dep) (JsObject.addKey r (dep_packageName dep)))
        as (r1 & -> & W1); [lia|].
      assert (W : Walked m r r1).
      { eapply Walked_trans; [|exact W1]. now apply Walked_addKey. }
      destruct (IHdeps Hrest r1) as (r2 & -> & W2).
      { pose proof (length_list_difference_mono (dependencyNames m) r r1 (proj1 W)) as Hm.
        unfold unvisited in *. lia. }
      exists r2. split; [reflexivity|]. eapply Walked_trans; eassumption.
Qed.

(** [closureFuel] is enough for every walk over the map. *)
Lemma traverseDependencies_closureFuel (m : DependencyMap) (p : string) (r : list string) :
  exists r',
    (forall fuel, closureFuel m <= fuel -> traverseDependencies fuel m p r = Some r')
    /\ Walked m r r'.
Proof.
  destruct (traverseDependencies_fuel (closureFuel m) m p r) as (r' & Hr & W).
  { apply length_unvisited. }
  exists r'. split; [|exact W].
  intros fuel Hle. eapply traverseDependencies_mono; eassumption.
Qed.

(** C3: on every dependency map, cyclic or not, the walk of
    [traverseDependencies] ends: from [closureFuel] on, every bound on the
    depth of the recursion gives the same result, which is what
    [setTraverseDependenciesForModules] stores; no name is in it twice, and
    every name in it is a dependency of some module of the map. *)
Theorem traverseDependencies_terminates (modDependencyMap : DependencyMap)
    (packageName_ : string) :
  exists result : list string,
    (forall fuel, closureFuel modDependencyMap <= fuel ->
                  traverseDependencies fuel modDependencyMap packageName_ [] = Some result)
    /\ transitiveClosure modDependencyMap packageName_ = result
    /\ NoDup result
    /\ (forall x, x ∈ result -> x ∈ dependencyNames modDependencyMap).
Proof.
  destruct (traverseDependencies_closureFuel modDependencyMap packageName_ [])
    as (r & Hr & (_ & Hnd & HU)).
  exists r. split; [exact Hr|]. split; [|split].
  - unfold transitiveClosure. now rewrite Hr.
  - apply Hnd. apply NoDup_nil_2.
  - intros x Hx. destruct (HU x Hx) as [H|H]; [inversion H|assumption].
Qed.

Lemma traverseDependencies_terminates_witness :
  exists result : list string,
    traverseDependencies 3 cycleMap "A" [] = Some result /\ NoDup result.
Proof.
  destruct (traverseDependencies_terminates cycleMap "A") as (r & Hfuel & _ & Hnd & _).
  exists r. split; [|exact Hnd].
  apply Hfuel. vm_compute. lia.
Defined.

Lemma setTraverseDependenciesForModules_closure (m : DependencyMap)
    (girModules_ : list GirModuleResolvedBy) :
  List.map (fun g => transitiveDependencies (module g))
    (setTraverseDependenciesForModules m girModules_)
  = List.map (fun g => transitiveClosure m (packageName g)) girModules_.
Proof.
  unfold setTraverseDependenciesForModules. rewrite List.map_map. reflexivity.
Qed.

(** The walk from [A] in a map where [A] depends on [B] alone and [B] on
    [A] alone, neither name being inherited from [Object.prototype]. *)
Lemma traverseDependencies_cycle (m : DependencyMap) (A B : string)
    (depA depB : Dependency) (fuel : nat) :
  A <> B ->
  dep_packageName depA = A -> dep_packageName depB = B ->
  m !! A = Some [depB] -> m !! B = Some [depA] ->
  JsObject.prototypeMember A = false -> JsObject.prototypeMember B = false ->
  traverseDependencies (S (S (S fuel))) m A [] = Some (JsObject.addKey [B] A).
Proof.
  intros Hne HA HB HmA HmB HpA HpB.
  assert (HinB : array_includes (JsObject.addKey [B] A) B = true).
  { apply array_includes_elem_of, elem_of_addKey. left. apply list_elem_of_here. }
  assert (HninA : array_includes [B] A = false).
  { apply array_includes_not_elem_of. intros H.
    apply list_elem_of_singleton in H. congruence. }
  assert (Hnil : JsObject.addKey [] B = [B]).
  { unfold JsObject.addKey. now destruct (JsObject.arrayIndex B). }
  cbn [traverseDependencies]. rewrite HmA.
  cbn [traverseDependencies_loop]. rewrite HB, HpB.
  change (array_includes [] B) with false. cbn [orb].
  rewrite Hnil, HmB. cbn [traverseDependencies_loop]. rewrite HA, HninA, HpA. cbn [orb].
  rewrite HmA. cbn [traverseDependencies_loop]. rewrite HB, HinB. cbn [orb]. reflexivity.
Qed.

(** C1, as the code has it: with [A] depending on [B] alone and [B] on [A]
    alone (two names a plain object does not inherit), the walk from [A]
    ends and leaves exactly the keys [B] and [A], once each: the walk comes
    back to [A] through [B] and records it.  [Object.keys] gives them in
    the order [B], [A] unless [A] is an array index.  The walk from [B]
    leaves [A] and [B]. *)
Theorem cycle_closure (m : DependencyMap) (A B : string) (depA depB : Dependency) :
  A <> B ->
  dep_packageName depA = A -> dep_packageName depB = B ->
  m !! A = Some [depB] -> m !! B = Some [depA] ->
  JsObject.prototypeMember A = false -> JsObject.prototypeMember B = false ->
  (forall fuel, 3 <= fuel ->
     traverseDependencies fuel m A [] = Some (JsObject.addKey [B] A))
  /\ (forall fuel, 3 <= fuel ->
        traverseDependencies fuel m B [] = Some (JsObject.addKey [A] B))
  /\ transitiveClosure m A = JsObject.addKey [B] A
  /\ transitiveClosure m B = JsObject.addKey [A] B
  /\ (forall x, x ∈ transitiveClosure m A <-> x = B \/ x = A)
  /\ (forall x, x ∈ transitiveClosure m B <-> x = A \/ x = B)
  /\ NoDup (transitiveClosure m A)
  /\ NoDup (transitiveClosure m B)
  /\ (JsObject.arrayIndex A = None -> transitiveClosure m A = [B; A])
  /\ (JsObject.arrayIndex B = None -> transitiveClosure m B = [A; B]).
Proof.
  intros Hne HA HB HmA HmB HpA HpB.
  assert (H3 : forall X Y dX dY, X <> Y -> dep_packageName dX = X -> dep_packageName dY = Y ->
            m !! X = Some [dY] -> m !! Y = Some [dX] ->
            JsObject.prototypeMember X = false -> JsObject.prototypeMember Y = false ->
            (forall fuel, 3 <= fuel ->
               traverseDependencies fuel m X [] = Some (JsObject.addKey [Y] X))
            /\ transitiveClosure m X = JsObject.addKey [Y] X
            /\ (forall x, x ∈ transitiveClosure m X <-> x = Y \/ x = X)
            /\ NoDup (transitiveClosure m X)
            /\ (JsObject.arrayIndex X = None -> transitiveClosure m X = [Y; X])).
  { intros X Y dX dY HXY HX HY HmX HmY HpX HpY.
    assert (Hall : forall fuel, 3 <= fuel ->
              traverseDependencies fuel m X [] = Some (JsObject.addKey [Y] X)).
    { intros fuel Hfuel. destruct fuel as [|[|[|fuel]]]; try lia.
      eapply traverseDependencies_cycle; eassumption. }
    assert (Hc : transitiveClosure m X = JsObject.addKey [Y] X).
    { destruct (traverseDependencies_closureFuel m X []) as (r & Hr & _).
      unfold transitiveClosure. rewrite (Hr (closureFuel m) (le_n _)). simpl.
      pose proof (Hr (closureFuel m + 3) ltac:(lia)) as H1.
      pose proof (Hall (closureFuel m + 3) ltac:(lia)) as H2.
      congruence. }
    split; [exact Hall|]. split; [exact Hc|]. rewrite Hc. split; [|split].
    - intros x. rewrite elem_of_addKey, list_elem_of_singleton. reflexivity.
    - apply NoDup_addKey; [|apply NoDup_singleton].
      intros H. apply list_elem_of_singleton in H. congruence.
    - intros Hi. now rewrite addKey_ordinary. }
  destruct (H3 A B depA depB) as (HfA & HcA & HsA & HnA & HoA); try assumption.
  destruct (H3 B A depB depA) as (HfB & HcB & HsB & HnB & HoB); try assumption;
    [congruence|].
  repeat split; try assumption; try apply HsA; try apply HsB.
Qed.

Lemma cycle_closure_witness :
  transitiveClosure cycleMap "A" = ["B"; "A"].
Proof.
  destruct (cycle_closure cycleMap "A" "B" (exampleDependency "A") (exampleDependency "B"))
    as (_ & _ & _ & _ & _ & _ & _ & _ & HA & _).
  - discriminate.
  - reflexivity.
  - reflexivity.
  - reflexivity.
  - reflexivity.
  - reflexivity.
  - reflexivity.
  - apply HA. reflexivity.
Defined.

(** Two names that are array indices come out in ascending order, and a
    dependency named like a member of [Object.prototype] is not recorded. *)
Example cycle_closure_indices :
  transitiveClosure
    (<["0" := [exampleDependency "1"]]> (<["1" := [exampleDependency "0"]]> ∅)) "0"
  = ["0"; "1"].
Proof. reflexivity. Qed.

Example cycle_closure_inherited :
  transitiveClosure
    (<["A" := [exampleDependency "constructor"]]>
       (<["constructor" := [exampleDependency "A"]]> ∅)) "A"
  = [].
Proof. reflexivity. Qed.

(** C1 as the design document words it fails: the closure of [A] in the
    cycle is not the set holding [B] alone, for [A] is in it too, and
    [setTraverseDependenciesForModules] stores both names for both modules. *)
Lemma cycle_closure_counterexample :
  traverseDependencies (closureFuel cycleMap) cycleMap "A" [] = Some ["B"; "A"]
  /\ "A" ∈ transitiveClosure cycleMap "A"
  /\ transitiveClosure cycleMap "A" <> ["B"]
  /\ transitiveClosure cycleMap "B" <> ["A"]
  /\ List.map (fun g => transitiveDependencies (module g))
       (setTraverseDependenciesForModules cycleMap
          [exampleModule "A" ["B"]; exampleModule "B" ["A"]])
     = [["B"; "A"]; ["A"; "B"]].
Proof.
  assert (HA : transitiveClosure cycleMap "A" = ["B"; "A"]) by reflexivity.
  assert (HB : transitiveClosure cycleMap "B" = ["A"; "B"]) by reflexivity.
  split; [reflexivity|]. split; [|split; [|split]].
  - rewrite HA. apply list_elem_of_In. right. now left.
  - rewrite HA. discriminate.
  - rewrite HB. discriminate.
  - rewrite setTraverseDependenciesForModules_closure. cbn [List.map packageName
      exampleModule]. now rewrite HA, HB.
Qed.

End TraversalFacts.

(** ** Loading documents *)

Module LoaderFacts.
Import JsString JsStringFacts ModuleLoader Notions Examples.

Lemma Grows_refl (st : LoaderState) : Grows st st.
Proof. unfold Grows. auto. Qed.

Lemma Grows_trans (st1 st2 st3 : LoaderState) :
  Grows st1 st2 -> Grows st2 st3 -> Grows st1 st3.
Proof. unfold Grows. intros [? ?] [? ?]. auto. Qed.

Lemma shiftedName_truthy (shifted : string) : truthy (shiftedName shifted) = true.
Proof. unfold shiftedName. destruct (truthy shifted) eqn:E; [exact E|reflexivity]. Qed.

Lemma existsGirModules_loaded (gs : list GirModuleResolvedBy) (p : string) :
  existsGirModules gs [p] = true <-> p ∈ List.map packageName gs.
Proof.
  unfold existsGirModules, findGirModuleByFullNames.
  induction gs as [|g gs IH]; simpl.
  - split; [discriminate|]. intros H. inversion H.
  - rewrite elem_of_cons, orb_false_r. destruct (String.eqb (packageName g) p) eqn:E; simpl.
    + apply String.eqb_eq in E. split; [auto|reflexivity].
    + apply String.eqb_neq in E. rewrite IH. split; [auto|].
      intros [H|H]; [congruence|assumption].
Qed.

Lemma missingFileWarnings_app (ws1 ws2 : list Warning) :
  missingFileWarnings (ws1 ++ ws2) = missingFileWarnings ws1 ++ missingFileWarnings ws2.
Proof. unfold missingFileWarnings. now rewrite List.map_app, List.concat_app. Qed.

Lemma missingFileWarnings_ignored (ws : list Warning) (ignored : list string) (p : string) :
  missingFileWarnings
    (ws ++ List.map (fun transitiveDependency =>
                       WARN_LOAD_IGNORED_DEPENDENCY transitiveDependency p) ignored)
  = missingFileWarnings ws.
Proof.
  rewrite missingFileWarnings_app.
  assert (H : missingFileWarnings
                (List.map (fun transitiveDependency =>
                             WARN_LOAD_IGNORED_DEPENDENCY transitiveDependency p) ignored) = []).
  { induction ignored as [|x l IH]; [reflexivity|exact IH]. }
  rewrite H. apply app_nil_r.
Qed.

Lemma setTraverseDependenciesForModules_names (m : DependencyMap)
    (gs : list GirModuleResolvedBy) :
  List.map packageName (setTraverseDependenciesForModules m gs) = List.map packageName gs.
Proof.
  unfold setTraverseDependenciesForModules. rewrite List.map_map. reflexivity.
Qed.

Section Loader.
Variable splitModuleName : string -> ModuleName.
Variable parseGirFile : string -> option GirModule.

(** The [while] loop never throws; it keeps the invariant, and every name of
    the queue without a document ends in [failedGirModules] (unless a module
    of that name is among the loaded ones). *)
Lemma whileGirToLoad_spec (girToLoad : list string) (resolvedBy_ : ResolveType) :
  forall (st : LoaderState) (newModuleFound : bool),
    WarnedOnce st ->
    exists st' found',
      whileGirToLoad splitModuleName parseGirFile girToLoad resolvedBy_ st newModuleFound
      = Ok (st', found')
      /\ WarnedOnce st' /\ Grows st st'
      /\ forall name, name ∈ girToLoad ->
           parseGirFile (shiftedName name) = None ->
           shiftedName name ∈ failedGirModules st' \/ shiftedName name ∈ loadedNames st'.
Proof.
  induction girToLoad as [|shifted girToLoad IH]; intros st found Hw.
  - exists st, found. split; [reflexivity|]. split; [assumption|].
    split; [apply Grows_refl|]. intros name H. inversion H.
  - cbn [whileGirToLoad]. fold (shiftedName shifted).
    rewrite shiftedName_truthy. cbn [negb].
    set (p := shiftedName shifted).
    (* What is left to show once the state [st2] after this turn is known. *)
    assert (Hnext : forall st2 found2,
              WarnedOnce st2 -> Grows st st2 ->
              (parseGirFile p = None -> p ∈ failedGirModules st2 \/ p ∈ loadedNames st2) ->
              exists st' found',
                whileGirToLoad splitModuleName parseGirFile girToLoad resolvedBy_ st2 found2
                = Ok (st', found')
                /\ WarnedOnce st' /\ Grows st st'
                /\ forall name, name ∈ shifted :: girToLoad ->
                     parseGirFile (shiftedName name) = None ->
                     shiftedName name ∈ failedGirModules st'
                     \/ shiftedName name ∈ loadedNames st').
    { intros st2 found2 Hw2 Hg2 Hp.
      destruct (IH st2 found2 Hw2) as (st' & found' & Heq & Hw' & Hg' & Hq).
      exists st', found'. split; [exact Heq|]. split; [exact Hw'|].
      split; [eapply Grows_trans; eassumption|].
      intros name Hname Hnone. apply elem_of_cons in Hname as [->|Hname]; [|auto].
      destruct (Hp Hnone) as [H|H]; [left; now apply Hg'|right; now apply Hg']. }
    destruct (existsGirModules (girModules st) [p]) eqn:Hex; cbn [negb].
    { apply Hnext; [assumption|apply Grows_refl|].
      intros _. right. now apply existsGirModules_loaded. }
    unfold loadAndCreateGirModule.
    destruct (parseGirFile p) as [girModule|] eqn:Hparse.
    + destruct (truthy (gm_packageName girModule)).
      * apply Hnext; [exact Hw| |discriminate].
        split; [auto|]. unfold loadedNames. cbn [girModules].
        intros q Hq. rewrite List.map_app. apply elem_of_app. now left.
      * apply Hnext; [exact Hw|split; auto|discriminate].
    + unfold JsSet.has. case_bool_decide as Hfailed; cbn [negb].
      * apply Hnext; [assumption|apply Grows_refl|auto].
      * destruct Hw as [Hnd Hsub]. apply Hnext.
        -- split; cbn [warnings failedGirModules]; rewrite missingFileWarnings_app;
             cbn [missingFileWarnings List.map List.concat app].
           ++ apply NoDup_app. split; [assumption|]. split; [|apply NoDup_singleton].
              intros x Hx Hin. apply list_elem_of_singleton in Hin. subst x.
              apply Hfailed. now apply Hsub.
           ++ intros x Hx. unfold JsSet.add, JsSet.has.
              rewrite bool_decide_eq_false_2 by assumption.
              apply elem_of_app in Hx as [Hx|Hx]; apply elem_of_app; [left; auto|now right].
        -- split; [|auto]. cbn [failedGirModules]. intros x Hx.
           unfold JsSet.add, JsSet.has. rewrite bool_decide_eq_false_2 by assumption.
           apply elem_of_app. now left.
        -- intros _. left. cbn [failedGirModules]. unfold JsSet.add, JsSet.has.
           rewrite bool_decide_eq_false_2 by assumption.
           apply elem_of_app. right. now left.
Qed.

Lemma forGirModules_good (recurse : list string -> LoaderState -> Run)
    (ignoreDependencies : list string) :
  (forall toRead st, WarnedOnce st -> GoodRun st (recurse toRead st)) ->
  forall turns i st,
    WarnedOnce st ->
    GoodRun st (forGirModules recurse ignoreDependencies turns i st).
Proof.
  intros Hrec. induction turns as [|turns IH]; intros i st Hw; cbn [forGirModules].
  - split; [assumption|apply Grows_refl].
  - destruct (girModules st !! i) as [girModule|]; [|split; [assumption|apply Grows_refl]].
    destruct (0 <? length (transitiveDependencies (module girModule))); [|now apply IH].
    set (st1 := warnIgnoredDependencies ignoreDependencies girModule st).
    assert (Hw1 : WarnedOnce st1).
    { destruct Hw as [Hnd Hsub]. unfold WarnedOnce, st1, warnIgnoredDependencies.
      cbn [warnings failedGirModules]. rewrite missingFileWarnings_ignored. auto. }
    assert (Hg1 : Grows st st1) by (split; auto).
    specialize (Hrec (transitiveDependencies (module girModule)) st1 Hw1).
    destruct (recurse _ st1) as [st2|e|st2]; cbn [GoodRun] in Hrec.
    + destruct Hrec as [Hw2 Hg2]. specialize (IH (S i) st2 Hw2).
      destruct (forGirModules _ _ turns (S i) st2) as [st3|e|st3]; cbn [GoodRun] in *;
        [|assumption|].
      * destruct IH as [Hw3 Hg3]. split; [assumption|].
        exact (Grows_trans _ _ _ Hg1 (Grows_trans _ _ _ Hg2 Hg3)).
      * destruct IH as [Hw3 Hg3]. split; [assumption|].
        exact (Grows_trans _ _ _ Hg1 (Grows_trans _ _ _ Hg2 Hg3)).
    + assumption.
    + destruct Hrec as [Hw2 Hg2]. split; [assumption|].
      exact (Grows_trans _ _ _ Hg1 Hg2).
Qed.

Lemma loadGirModules_good (fuel : nat) :
  forall girModulesToRead ignoreDependencies resolvedBy_ st,
    WarnedOnce st ->
    GoodRun st (loadGirModules splitModuleName parseGirFile fuel girModulesToRead
                  ignoreDependencies resolvedBy_ st).
Proof.
  induction fuel as [|fuel IH]; intros toRead ignoreDependencies resolvedBy_ st Hw;
    cbn [loadGirModules].
  - split; [assumption|apply Grows_refl].
  - destruct (whileGirToLoad_spec toRead resolvedBy_ st false Hw)
      as (st1 & found & -> & Hw1 & Hg1 & _).
    destruct found; cbn [negb]; [|split; assumption].
    match goal with
    | |- GoodRun _ (forGirModules ?r _ _ _ ?s) =>
        pose proof (forGirModules_good r ignoreDependencies
                      (fun toRead' st' Hw' => IH toRead' ignoreDependencies DEPENDENCE st' Hw')
                      fuel 0 s) as Hfor;
        set (st2 := s) in *
    end.
    assert (Hw2 : WarnedOnce st2) by exact Hw1.
    assert (Hg2 : Grows st1 st2).
    { split; [auto|]. unfold loadedNames, st2. cbn [girModules].
      now rewrite setTraverseDependenciesForModules_names. }
    specialize (Hfor Hw2).
    destruct (forGirModules _ _ fuel 0 st2) as [st3|e|st3]; cbn [GoodRun] in *;
      [|assumption|]; destruct Hfor as [Hw3 Hg3]; (split; [assumption|]);
      exact (Grows_trans _ _ _ Hg1 (Grows_trans _ _ _ Hg2 Hg3)).
Qed.

End Loader.

Example exampleLoad_result :
  match exampleLoad with
  | Returned st =>
      loadedNames st = ["Gtk-3.0"; "Gdk-3.0"]
      /\ failedGirModules st = ["Absent-2.0"; "Missing-1.0"]
      /\ warnings st = [WARN_NO_GIR_FILE_FOUND_FOR_PACKAGE "Absent-2.0";
                        WARN_NO_GIR_FILE_FOUND_FOR_PACKAGE "Missing-1.0"]
  | _ => False
  end.
Proof. vm_compute. auto. Qed.

End LoaderFacts.

(** * Further properties *)

(** ** The symbol table: keys and the shared table *)

Module SymTableMore.
Import JsString JsStringFacts SymTable SymTableFacts.

Lemma prefix_cons (c : ascii) (a s : string) :
  String.prefix (String c a) (String c s) = String.prefix a s.
Proof.
  cbn [String.prefix]. destruct (ascii_dec c c) as [_|Hne]; [reflexivity|congruence].
Qed.

Lemma prefix_append (a b : string) : String.prefix a (a +:+ b) = true.
Proof.
  induction a as [|c a IH].
  - now destruct b.
  - change (String c a +:+ b) with (String c (a +:+ b)). now rewrite prefix_cons.
Qed.

Lemma append_assoc (a b c : string) : (a +:+ b) +:+ c = a +:+ b +:+ c.
Proof.
  induction a as [|x a IH]; [reflexivity|].
  change ((String x a +:+ b) +:+ c) with (String x ((a +:+ b) +:+ c)).
  change (String x a +:+ b +:+ c) with (String x (a +:+ b +:+ c)).
  now rewrite IH.
Qed.

Lemma startsWith_own_key (pkg rest : string) :
  startsWith (pkg +:+ "." +:+ rest) (pkg +:+ ".") = true.
Proof.
  unfold startsWith. rewrite <- append_assoc. apply prefix_append.
Qed.

Lemma length_append (a b : string) :
  String.length (a +:+ b) = String.length a + String.length b.
Proof.
  induction a as [|c a IH]; [reflexivity|].
  change (String c a +:+ b) with (String c (a +:+ b)). simpl. now rewrite IH.
Qed.

Lemma append_cancel_r (a b s : string) : a +:+ s = b +:+ s -> a = b.
Proof.
  revert b. induction a as [|c a IH]; intros [|d b] H.
  - reflexivity.
  - apply (f_equal String.length) in H. rewrite !length_append in H. simpl in H. lia.
  - apply (f_equal String.length) in H. rewrite !length_append in H. simpl in H. lia.
  - change (String c (a +:+ s) = String d (b +:+ s)) in H.
    injection H as -> H. f_equal. now apply IH.
Qed.

(** A name without a dot begins with no text that ends in a dot. *)
Lemma no_separator_no_prefix (a name : string) :
  includes name "." = false -> startsWith name (a +:+ ".") = false.
Proof.
  intros Hno. unfold startsWith.
  destruct (String.prefix (a +:+ ".") name) eqn:E; [|reflexivity].
  apply contains_separator_prefix in E. rewrite includes_dot in Hno. congruence.
Qed.

(** A package name [ns-version] followed by a dot does not begin [ns.name]. *)
Lemma versioned_not_prefix (ns version name : string) :
  String.prefix ((ns +:+ "-" +:+ version) +:+ ".") (ns +:+ "." +:+ name) = false.
Proof.
  induction ns as [|c ns IH].
  - reflexivity.
  - change ((String c ns +:+ "-" +:+ version) +:+ ".")
      with (String c ((ns +:+ "-" +:+ version) +:+ ".")).
    change (String c ns +:+ "." +:+ name) with (String c (ns +:+ "." +:+ name)).
    now rewrite prefix_cons.
Qed.

(** X1: a key computed for a local reference (one that begins with the
    owner's package name and a dot, or with the owner's namespace and a dot,
    or has no dot) is itself resolved to the same key, whatever the
    dependencies, and without a warning. *)
Theorem getKey_local_key_fixed (self : t) (dependencies dependencies' : list string)
    (reference key : string) :
  startsWith reference (modPackageName self +:+ ".") = true
  \/ startsWith reference (modNamespace self +:+ ".") = true
  \/ includes reference "." = false ->
  fst (getKey self dependencies reference) = Some key ->
  getKey self dependencies' key = (Some key, []).
Proof.
  intros Hlocal Hkey.
  assert (Hown : startsWith key (modPackageName self +:+ ".") = true).
  { revert Hkey. unfold getKey.
    destruct (startsWith reference (modPackageName self +:+ ".")) eqn:H1.
    { intros [= <-]. exact H1. }
    destruct (startsWith reference (modNamespace self +:+ ".")) eqn:H2.
    { intros [= <-]. apply startsWith_own_key. }
    destruct Hlocal as [H|[H|H]]; try discriminate.
    rewrite H. cbn [negb]. intros [= <-]. apply startsWith_own_key. }
  unfold getKey. now rewrite Hown.
Qed.

Lemma getKey_local_key_fixed_witness :
  getKey (SymTable.mk "Gtk-3.0" "Gtk") [] "Gtk-3.0.Gtk.Window"
  = (Some "Gtk-3.0.Gtk.Window", []).
Proof.
  apply (getKey_local_key_fixed (SymTable.mk "Gtk-3.0" "Gtk") ["Gdk-3.0"] [] "Window").
  - right. right. reflexivity.
  - reflexivity.
Defined.

(** X2: when the owner's package name is its namespace, a dash and a
    version, the bare form [name] and the shorthand form [namespace.name] of
    a reference get the same key. *)
Theorem getKey_bare_and_shorthand_agree (ns version : string)
    (dependencies : list string) (name : string) :
  includes name "." = false ->
  getKey (SymTable.mk (ns +:+ "-" +:+ version) ns) dependencies (ns +:+ "." +:+ name)
  = getKey (SymTable.mk (ns +:+ "-" +:+ version) ns) dependencies name.
Proof.
  intros Hbare. unfold getKey. cbn [modPackageName modNamespace].
  rewrite (no_separator_no_prefix (ns +:+ "-" +:+ version) name Hbare).
  rewrite (no_separator_no_prefix ns name Hbare).
  rewrite Hbare. cbn [negb].
  unfold startsWith at 1. rewrite versioned_not_prefix.
  now rewrite startsWith_own_key.
Qed.

Lemma getKey_bare_and_shorthand_agree_witness :
  getKey (SymTable.mk "Gtk-3.0" "Gtk") ["GLib-2.0"] "Gtk.Window"
  = getKey (SymTable.mk "Gtk-3.0" "Gtk") ["GLib-2.0"] "Window".
Proof.
  apply (getKey_bare_and_shorthand_agree "Gtk" "3.0" ["GLib-2.0"] "Window").
  reflexivity.
Defined.

Section Table.
Variable GirAnyElement : Type.

Lemma set_frame (self1 self2 : t) (items : gmap string GirAnyElement)
    (dependencies1 dependencies2 : list string) (reference1 reference2 : string)
    (element : GirAnyElement) :
  fst (getKey self1 dependencies1 reference1) <> fst (getKey self2 dependencies2 reference2) ->
  get GirAnyElement self2
    (fst (set GirAnyElement self1 items dependencies1 reference1 element))
    dependencies2 reference2
  = get GirAnyElement self2 items dependencies2 reference2.
Proof.
  intros Hne. unfold get, set.
  destruct (getKey self1 dependencies1 reference1) as [[k1|] w1];
    destruct (getKey self2 dependencies2 reference2) as [[k2|] w2];
    cbn [fst] in *; try reflexivity.
  destruct (truthy k1); cbn [fst]; [|reflexivity].
  destruct (truthy k2); cbn [negb]; [|reflexivity].
  rewrite lookup_insert_ne; [reflexivity|congruence].
Qed.

(** X3: [set] only touches the entry of the key it computes: a [get], by
    any instance, of a reference with another key (or with none) gives what
    it gave before. *)
Theorem set_other_key_unchanged (self1 self2 : t) (items : gmap string GirAnyElement)
    (dependencies1 dependencies2 : list string) (reference1 reference2 : string)
    (element : GirAnyElement) :
  fst (getKey self1 dependencies1 reference1) <> fst (getKey self2 dependencies2 reference2) ->
  get GirAnyElement self2
    (fst (set GirAnyElement self1 items dependencies1 reference1 element))
    dependencies2 reference2
  = get GirAnyElement self2 items dependencies2 reference2.
Proof. apply set_frame. Qed.

(** X4: the table is keyed by the computed key alone.  An element stored
    through one instance and reference is found through any instance and
    reference with the same key, and by [getByHand] under that key
    (whatever a plain object inherits); a second [set] on the key replaces
    the first. *)
Theorem set_then_get_same_key (self1 self2 : t) (items : gmap string GirAnyElement)
    (inherited : string -> option GirAnyElement)
    (dependencies1 dependencies2 : list string) (reference1 reference2 key : string)
    (element element' : GirAnyElement) :
  fst (getKey self1 dependencies1 reference1) = Some key ->
  fst (getKey self2 dependencies2 reference2) = Some key ->
  fst (get GirAnyElement self2
         (fst (set GirAnyElement self1 items dependencies1 reference1 element))
         dependencies2 reference2) = Some element
  /\ getByHand GirAnyElement inherited
       (fst (set GirAnyElement self1 items dependencies1 reference1 element)) key
     = Some element
  /\ fst (get GirAnyElement self1
            (fst (set GirAnyElement self2
                    (fst (set GirAnyElement self1 items dependencies1 reference1 element))
                    dependencies2 reference2 element'))
            dependencies1 reference1) = Some element'.
Proof.
  intros H1 H2.
  pose proof (getKey_truthy _ _ _ _ H1) as Ht.
  unfold get, set, getByHand.
  destruct (getKey self1 dependencies1 reference1) as [k1 w1].
  destruct (getKey self2 dependencies2 reference2) as [k2 w2].
  cbn [fst] in H1, H2. subst k1 k2. rewrite Ht. cbn [fst negb].
  rewrite !lookup_insert_eq. auto.
Qed.

End Table.

Lemma set_other_key_unchanged_witness :
  get nat (SymTable.mk "Gtk-4.0" "Gtk")
    (fst (set nat (SymTable.mk "Gtk-3.0" "Gtk") ∅ [] "Window" 3)) [] "Window"
  = get nat (SymTable.mk "Gtk-4.0" "Gtk") ∅ [] "Window".
Proof.
  apply (set_other_key_unchanged nat (SymTable.mk "Gtk-3.0" "Gtk")
           (SymTable.mk "Gtk-4.0" "Gtk") ∅ [] [] "Window" "Window" 3).
  discriminate.
Defined.

Lemma set_then_get_same_key_witness :
  fst (get nat (SymTable.mk "Gtk-3.0" "Gtk")
         (fst (set nat (SymTable.mk "Gdk-3.0" "Gdk") ∅ ["Gtk-3.0"] "Gtk.Window" 5))
         [] "Window") = Some 5.
Proof.
  apply (set_then_get_same_key nat (SymTable.mk "Gdk-3.0" "Gdk")
           (SymTable.mk "Gtk-3.0" "Gtk") ∅ (fun _ => None) ["Gtk-3.0"] [] "Gtk.Window"
           "Window" "Gtk-3.0.Gtk.Window" 5 6).
  - reflexivity.
  - reflexivity.
Defined.

(** X5: two versions of a namespace never share the key of a bare name:
    owners with the same namespace and different package names compute
    different keys, so what one stores under a bare name the other does not
    read under it. *)
Theorem bare_name_keys_differ_by_version (GirAnyElement : Type) (pkg1 pkg2 ns : string)
    (items : gmap string GirAnyElement) (dependencies1 dependencies2 : list string)
    (name : string) (element : GirAnyElement) :
  pkg1 <> pkg2 ->
  includes name "." = false ->
  fst (getKey (SymTable.mk pkg1 ns) dependencies1 name)
  <> fst (getKey (SymTable.mk pkg2 ns) dependencies2 name)
  /\ get GirAnyElement (SymTable.mk pkg2 ns)
       (fst (set GirAnyElement (SymTable.mk pkg1 ns) items dependencies1 name element))
       dependencies2 name
     = get GirAnyElement (SymTable.mk pkg2 ns) items dependencies2 name.
Proof.
  intros Hpkg Hbare.
  assert (Hne : fst (getKey (SymTable.mk pkg1 ns) dependencies1 name)
                <> fst (getKey (SymTable.mk pkg2 ns) dependencies2 name)).
  { unfold getKey. cbn [modPackageName modNamespace].
    rewrite !(no_separator_no_prefix _ name Hbare). rewrite Hbare. cbn [negb fst].
    intros [= H]. apply Hpkg. eapply append_cancel_r. exact H. }
  split; [exact Hne|]. now apply set_frame.
Qed.

Lemma bare_name_keys_differ_by_version_witness :
  fst (getKey (SymTable.mk "Gtk-3.0" "Gtk") [] "Window")
  <> fst (getKey (SymTable.mk "Gtk-4.0" "Gtk") [] "Window").
Proof.
  apply (bare_name_keys_differ_by_version nat "Gtk-3.0" "Gtk-4.0" "Gtk" ∅ [] [] "Window" 0).
  - discriminate.
  - reflexivity.
Defined.

End SymTableMore.

(** ** The conflict protocol: answers, reverse dependents, the ignore list *)

Module ResolverMore.
Import JsString JsStringFacts ModuleLoader Examples ResolverFacts.

(** *** [sortVersionsByAnswer] *)

Lemma filter_elem_of_names (selected_ : list string) (names : list string) (n : string) :
  n ∈ List.filter (fun packageName_ => negb (array_includes selected_ packageName_)) names
  <-> n ∈ names /\ n ∉ selected_.
Proof.
  rewrite list_elem_of_In, List.filter_In, negb_true_iff, array_includes_false.
  rewrite <- !list_elem_of_In. tauto.
Qed.

Lemma findGirModuleByFullNames_elem_of (ms : list GirModuleResolvedBy)
    (names : list string) (m : GirModuleResolvedBy) :
  m ∈ findGirModuleByFullNames ms names <-> m ∈ ms /\ packageName m ∈ names.
Proof.
  unfold findGirModuleByFullNames.
  rewrite list_elem_of_In, List.filter_In, array_includes_In.
  rewrite <- !list_elem_of_In. tauto.
Qed.

Lemma sortVersionsByAnswer_ok (g : GirModulesGrouped) (selected_ : list string)
    (keep : list GirModuleResolvedBy) (ignore : list string) :
  hasConflict g = true ->
  sortVersionsByAnswer g selected_ = Ok (keep, ignore) ->
  (forall m, m ∈ keep <-> m ∈ modules g /\ packageName m ∈ selected_)
  /\ (forall n, n ∈ ignore <-> n ∈ List.map packageName (modules g) /\ n ∉ selected_)
  /\ NoDup keep
  /\ keep <> []
  /\ (forall m, m ∈ modules g -> m ∈ keep <-> packageName m ∉ ignore).
Proof.
  intros Hc. unfold sortVersionsByAnswer. rewrite Hc. cbn [negb].
  destruct (length (findGirModuleByFullNames (modules g) selected_) <=? 0) eqn:Hlen;
    [discriminate|].
  intros [= <- <-]. cbn [app].
  assert (Hkeep : forall m, m ∈ JsSet.add_all [] (findGirModuleByFullNames (modules g) selected_)
                            <-> m ∈ modules g /\ packageName m ∈ selected_).
  { intros m. rewrite JsSet_add_all_elem, findGirModuleByFullNames_elem_of, elem_of_nil. tauto. }
  split; [exact Hkeep|]. split; [intros n; apply filter_elem_of_names|].
  split; [apply JsSet_add_all_NoDup, NoDup_nil_2|]. split.
  - apply Nat.leb_gt in Hlen.
    destruct (findGirModuleByFullNames (modules g) selected_) as [|m ms] eqn:Hf;
      [simpl in Hlen; lia|].
    intros Hnil.
    assert (Hm : m ∈ JsSet.add_all [] (m :: ms)).
    { apply JsSet_add_all_elem. right. left. }
    rewrite Hnil in Hm. inversion Hm.
  - intros m Hm. rewrite Hkeep, filter_elem_of_names. split.
    + intros [_ Hsel] [_ Hnot]. contradiction.
    + intros Hnot. split; [assumption|].
      destruct (decide (packageName m ∈ selected_)) as [Hin|Hout]; [assumption|].
      exfalso. apply Hnot. split; [|assumption].
      apply list_elem_of_fmap. now exists m.
Qed.



(** *** Reverse dependents *)

(** The innermost loop of [findModulesDependOnPackage]: the module is
    appended once if it declares the dependency and is not listed yet. *)
Lemma dependsOn_fold (m : GirModuleResolvedBy) (p : string) (deps : list string) :
  forall acc : list GirModuleResolvedBy,
    fold_left
      (fun girModules dep =>
         if String.eqb dep p && negb (bool_decide (m ∈ girModules))
         then girModules ++ [m] else girModules)
      deps acc
    = if bool_decide (p ∈ deps) && negb (bool_decide (m ∈ acc)) then acc ++ [m] else acc.
Proof.
  induction deps as [|dep deps IH]; intros acc; cbn [fold_left].
  - rewrite bool_decide_eq_false_2 by apply not_elem_of_nil. reflexivity.
  - rewrite IH. destruct (String.eqb dep p) eqn:E; cbn [andb].
    + apply String.eqb_eq in E. subst dep.
      rewrite (bool_decide_eq_true_2 (p ∈ p :: deps)) by left. cbn [andb].
      destruct (decide (m ∈ acc)) as [Hacc|Hacc].
      * rewrite !(bool_decide_eq_true_2 (m ∈ acc) Hacc). cbn [negb].
        now rewrite andb_false_r.
      * rewrite !(bool_decide_eq_false_2 (m ∈ acc) Hacc). cbn [negb].
        rewrite (bool_decide_eq_true_2 (m ∈ acc ++ [m])); [now rewrite andb_false_r|].
        apply elem_of_app. right. left.
    + apply String.eqb_neq in E.
      replace (bool_decide (p ∈ dep :: deps)) with (bool_decide (p ∈ deps)); [reflexivity|].
      apply bool_decide_ext. rewrite elem_of_cons. split; [auto|].
      intros [->|H]; [congruence|assumption].
Qed.

(** [m] is counted as a dependent of [p]. *)
Definition dependsOn (p : string) (m : GirModuleResolvedBy) : Prop :=
  packageName m <> p /\ p ∈ dependencies (module m).

Lemma dependents_of_modules (p : string) (ms : list GirModuleResolvedBy) :
  forall acc : list GirModuleResolvedBy,
    let result :=
      fold_left
        (fun girModules girModuleResolvedBy =>
           if String.eqb (packageName girModuleResolvedBy) p then girModules
           else
             fold_left
               (fun girModules dep =>
                  if String.eqb dep p
                     && negb (bool_decide (girModuleResolvedBy ∈ girModules))
                  then girModules ++ [girModuleResolvedBy]
                  else girModules)
               (dependencies (module girModuleResolvedBy)) girModules)
        ms acc in
    (forall x, x ∈ result <-> x ∈ acc \/ (x ∈ ms /\ dependsOn p x))
    /\ (NoDup acc -> NoDup result).
Proof.
  induction ms as [|m ms IH]; intros acc; cbn [fold_left].
  - split; [|auto]. intros x. rewrite elem_of_nil. tauto.
  - destruct (String.eqb (packageName m) p) eqn:E.
    + apply String.eqb_eq in E. destruct (IH acc) as [Hin Hnd]. split; [|exact Hnd].
      intros x. rewrite Hin, elem_of_cons. unfold dependsOn. split; [tauto|].
      intros [H|[[->|H] [Hne Hdep]]]; [tauto|congruence|tauto].
    + apply String.eqb_neq in E. rewrite dependsOn_fold.
      match goal with |- context [fold_left _ ms ?a] => destruct (IH a) as [Hin Hnd] end.
      split.
      * intros x. rewrite Hin, elem_of_cons. unfold dependsOn.
        case_bool_decide as Hdep; case_bool_decide as Hacc; cbn [negb andb].
        -- split; [tauto|]. intros [H|[[->|H] H']]; tauto.
        -- rewrite elem_of_app, list_elem_of_singleton. split; [|tauto].
           intros [[H| ->]|H]; tauto.
        -- split; [tauto|]. intros [H|[[->|H] H']]; tauto.
        -- split; [tauto|]. intros [H|[[->|H] H']]; tauto.
      * intros Hacc. apply Hnd.
        case_bool_decide as Hdep; case_bool_decide as Hm; cbn [negb andb]; try assumption.
        apply NoDup_app. split; [assumption|]. split; [|apply NoDup_singleton].
        intros y Hy Hin'. apply list_elem_of_singleton in Hin'. now subst.
Qed.

Lemma dependents_of_groups (p : string) (groups : list GirModulesGrouped) :
  forall acc : list GirModuleResolvedBy,
    let result :=
      fold_left
        (fun girModules girModulesGrouped =>
           fold_left
             (fun girModules girModuleResolvedBy =>
                if String.eqb (packageName girModuleResolvedBy) p then girModules
                else
                  fold_left
                    (fun girModules dep =>
                       if String.eqb dep p
                          && negb (bool_decide (girModuleResolvedBy ∈ girModules))
                       then girModules ++ [girModuleResolvedBy]
                       else girModules)
                    (dependencies (module girModuleResolvedBy)) girModules)
             (modules girModulesGrouped) girModules)
        groups acc in
    (forall x, x ∈ result
               <-> x ∈ acc \/ exists g, g ∈ groups /\ x ∈ modules g /\ dependsOn p x)
    /\ (NoDup acc -> NoDup result).
Proof.
  induction groups as [|g groups IH]; intros acc; cbn [fold_left].
  - split; [|auto]. intros x. split; [auto|].
    intros [H|(g & Hg & _)]; [assumption|inversion Hg].
  - match goal with |- context [fold_left _ groups ?a] => destruct (IH a) as [Hin Hnd] end.
    destruct (dependents_of_modules p (modules g) acc) as [Hin1 Hnd1].
    split; [|auto].
    intros x. rewrite Hin, Hin1. split.
    + intros [[H|[H H']]|(g' & Hg' & H)]; [now left| |].
      * right. exists g. split; [left|auto].
      * right. exists g'. split; [now right|assumption].
    + intros [H|(g' & Hg' & H & H')]; [left; now left|].
      apply elem_of_cons in Hg' as [->|Hg'].
      * left. right. auto.
      * right. exists g'. auto.
Qed.

Lemma findModulesDependOnPackage_spec (girModulesGroupedMap : GirModulesGroupedMap)
    (p : string) :
  (forall x, x ∈ findModulesDependOnPackage girModulesGroupedMap p
             <-> exists g, g ∈ JsObject.values girModulesGroupedMap
                           /\ x ∈ modules g /\ dependsOn p x)
  /\ NoDup (findModulesDependOnPackage girModulesGroupedMap p).
Proof.
  destruct (dependents_of_groups p (JsObject.values girModulesGroupedMap) []) as [Hin Hnd].
  split; [|apply Hnd, NoDup_nil_2].
  intros x. unfold findModulesDependOnPackage. rewrite Hin, elem_of_nil. tauto.
Qed.

Lemma findModulesDependOnPackages_fold (girModulesGroupedMap : GirModulesGroupedMap)
    (packageNames : list string) :
  forall (acc : list GirModuleResolvedBy) x,
    x ∈ fold_left
          (fun girModules packageName_ =>
             girModules ++ findModulesDependOnPackage girModulesGroupedMap packageName_)
          packageNames acc
    <-> x ∈ acc \/ exists p, p ∈ packageNames
                            /\ x ∈ findModulesDependOnPackage girModulesGroupedMap p.
Proof.
  induction packageNames as [|p ps IH]; intros acc x; cbn [fold_left].
  - split; [auto|]. intros [H|(p & Hp & _)]; [assumption|inversion Hp].
  - rewrite IH, elem_of_app. split.
    + intros [[H|H]|(q & Hq & H)]; [now left| |].
      * right. exists p. split; [left|assumption].
      * right. exists q. split; [now right|assumption].
    + intros [H|(q & Hq & H)]; [left; now left|].
      apply elem_of_cons in Hq as [->|Hq]; [left; now right|].
      right. exists q. auto.
Qed.

Lemma findModulesDependOnPackages_elem_of (girModulesGroupedMap : GirModulesGroupedMap)
    (packageNames : list string) (x : GirModuleResolvedBy) :
  x ∈ findModulesDependOnPackages girModulesGroupedMap packageNames
  <-> exists p g, p ∈ packageNames /\ g ∈ JsObject.values girModulesGroupedMap
                  /\ x ∈ modules g /\ dependsOn p x.
Proof.
  unfold findModulesDependOnPackages. rewrite findModulesDependOnPackages_fold, elem_of_nil.
  split.
  - intros [[]|(p & Hp & H)]. apply findModulesDependOnPackage_spec in H as (g & Hg & H).
    exists p, g. tauto.
  - intros (p & g & Hp & Hg & H). right. exists p. split; [assumption|].
    apply findModulesDependOnPackage_spec. exists g. tauto.
Qed.


Example findModulesDependOnPackages_gtk :
  findModulesDependOnPackages exampleGrouped ["All"; "Gtk-3.0"]
  = [exampleModule "Gdk-3.0" ["Gtk-3.0"]].
Proof. reflexivity. Qed.

(** *** What the loop does to [ignore] *)

Lemma wouldIgnoreDeps_names (girModulesGroupedMap : GirModulesGroupedMap)
    (ignore packageNames : list string) (x : GirModuleResolvedBy) :
  x ∈ List.filter (fun dep => negb (array_includes ignore (packageName dep)))
        (findModulesDependOnPackages girModulesGroupedMap packageNames)
  <-> (packageName x ∉ ignore)
      /\ exists p g, p ∈ packageNames /\ g ∈ JsObject.values girModulesGroupedMap
                     /\ x ∈ modules g /\ dependsOn p x.
Proof.
  rewrite list_elem_of_In, List.filter_In, negb_true_iff, array_includes_false.
  rewrite <- !list_elem_of_In, findModulesDependOnPackages_elem_of. tauto.
Qed.

(** What the retry loop hands over when it ends. *)
Lemma whileGoBack_finished (girModulesGroupedMap : GirModulesGroupedMap)
    (g : GirModulesGrouped) (ignore script : list string) (c : Confirmed)
    (answers' : list string) :
  whileGoBack girModulesGroupedMap g ignore script = Finished (c, answers') ->
  (exists versionChoice, askForVersionsPrompt g versionChoice = Ok (versionAnswer c))
  /\ wouldIgnoreDeps c
     = List.filter (fun dep => negb (array_includes ignore (packageName dep)))
         (findModulesDependOnPackages girModulesGroupedMap (unselected (versionAnswer c))).
Proof.
  remember (length script) as n eqn:Hn.
  assert (Hle : length script <= n) by lia. clear Hn.
  revert script Hle. induction n as [|n IH]; intros script Hle.
  - destruct script; [discriminate|simpl in Hle; lia].
  - destruct script as [|v [|d script]]; cbn [whileGoBack].
    + discriminate.
    + destruct (askForVersionsPrompt g v); discriminate.
    + destruct (askForVersionsPrompt g v) as [a|e] eqn:Ha; [|discriminate].
      unfold askIgnoreDepsPrompt.
      destruct (String.eqb d "Go back").
      * apply IH. simpl in Hle. lia.
      * intros [= <- _]. cbn [versionAnswer wouldIgnoreDeps]. eauto.
Qed.

Lemma removeIgnored_modules (ignore : list string) (group0 : GirModulesGrouped)
    (m : GirModuleResolvedBy) :
  m ∈ modules (removeIgnored ignore group0)
  <-> m ∈ modules group0 /\ packageName m ∉ ignore.
Proof.
  unfold removeIgnored. cbn [modules].
  rewrite list_elem_of_In, List.filter_In, negb_true_iff, array_includes_false.
  rewrite <- !list_elem_of_In. tauto.
Qed.

Lemma values_app {V} (a b : JsObject.t V) :
  JsObject.values (a ++ b) = JsObject.values a ++ JsObject.values b.
Proof. unfold JsObject.values. apply List.map_app. Qed.

Section Resolver.
Variable union : list GirModuleResolvedBy -> list GirModuleResolvedBy -> list GirModuleResolvedBy.

(** One turn of the loop only appends to [ignore], and what it appends are
    names of modules of the map as the turn sees it. *)
Lemma forEachGroup_body_ignore (Q : string -> Prop) (done : GirModulesGroupedMap)
    (id : string) (group0 : GirModulesGrouped) (rest : GirModulesGroupedMap)
    (st : ResolverState) (done' : GirModulesGroupedMap) (st' : ResolverState) :
  (forall g m, g ∈ JsObject.values (done ++ (id, group0) :: rest) ->
               m ∈ modules g -> Q (packageName m)) ->
  forEachGroup_body union done (id, group0) rest st = Finished (done', st') ->
  done' = done ++ [(id, removeIgnored (rs_ignore st) group0)]
  /\ exists more, rs_ignore st' = rs_ignore st ++ more /\ forall n, n ∈ more -> Q n.
Proof.
  intros HQ. unfold forEachGroup_body. cbn [fst snd].
  set (g := removeIgnored (rs_ignore st) group0).
  assert (HQg : forall m, m ∈ modules g -> Q (packageName m)).
  { intros m Hm. apply removeIgnored_modules in Hm as [Hm _].
    apply (HQ group0); [|assumption].
    rewrite values_app. apply elem_of_app. right. left. }
  assert (HQmap : forall gr m, gr ∈ JsObject.values (done ++ (id, g) :: rest) ->
                               m ∈ modules gr -> Q (packageName m)).
  { intros gr m Hgr Hm. rewrite values_app in Hgr.
    apply elem_of_app in Hgr as [Hgr|Hgr].
    - apply (HQ gr); [|assumption]. rewrite values_app. apply elem_of_app. now left.
    - cbn [JsObject.values List.map snd] in Hgr. apply elem_of_cons in Hgr as [->|Hgr].
      + now apply HQg.
      + apply (HQ gr); [|assumption]. rewrite values_app. apply elem_of_app.
        right. now right. }
  assert (Hnil : forall l : list string, exists more, l = l ++ more /\ forall n, n ∈ more -> Q n).
  { intros l. exists []. rewrite app_nil_r. split; [reflexivity|]. intros n H. inversion H. }
  destruct (length (modules g) <=? 0).
  { intros [= <- <-]. auto. }
  destruct (negb (hasConflict g)) eqn:Hc.
  { intros [= <- <-]. cbn [rs_ignore]. auto. }
  apply negb_false_iff in Hc.
  destruct (whileGoBack _ g (rs_ignore st) (rs_answers st)) as [[c answers']|e|] eqn:Hloop;
    [|discriminate|discriminate].
  destruct (sortVersionsByAnswer g (selected (versionAnswer c))) as [[keep ign]|e] eqn:Hsort;
    [|discriminate].
  intros [= <- <-]. split; [reflexivity|]. cbn [rs_ignore fst snd].
  apply whileGoBack_finished in Hloop as [_ Hdeps].
  assert (Hign : forall n, n ∈ ign -> Q n).
  { intros n Hn.
    destruct (sortVersionsByAnswer_ok g _ keep ign Hc Hsort) as (_ & Hi & _).
    apply Hi in Hn as [Hn _]. apply list_elem_of_fmap in Hn as (m & -> & Hm). now apply HQg. }
  assert (Hdep : forall n, n ∈ List.map packageName (wouldIgnoreDeps c) -> Q n).
  { intros n Hn. apply list_elem_of_fmap in Hn as (x & -> & Hx).
    rewrite Hdeps in Hx. apply wouldIgnoreDeps_names in Hx as (_ & p & gr & _ & Hgr & Hx & _).
    now apply (HQmap gr). }
  destruct (String.eqb (ignoreDepsAnswer c) "Yes").
  - exists (List.map packageName (wouldIgnoreDeps c) ++ ign). split; [now rewrite app_assoc|].
    intros n Hn. apply elem_of_app in Hn as [Hn|Hn]; auto.
  - exists ign. auto.
Qed.

Lemma forEachGroup_ignore (Q : string -> Prop) (todo : GirModulesGroupedMap) :
  forall (done : GirModulesGroupedMap) (st : ResolverState) done' st',
    (forall g m, g ∈ JsObject.values (done ++ todo) -> m ∈ modules g -> Q (packageName m)) ->
    forEachGroup union done todo st = Finished (done', st') ->
    exists more, rs_ignore st' = rs_ignore st ++ more /\ forall n, n ∈ more -> Q n.
Proof.
  induction todo as [|[id group0] rest IH]; intros done st done' st' HQ; cbn [forEachGroup].
  - intros [= <- <-]. exists []. rewrite app_nil_r. split; [reflexivity|].
    intros n H. inversion H.
  - destruct (forEachGroup_body union done (id, group0) rest st) as [[done1 st1]|e|] eqn:Hbody;
      [|discriminate|discriminate].
    destruct (forEachGroup_body_ignore Q _ _ _ _ _ _ _ HQ Hbody) as (-> & more1 & E1 & HQ1).
    intros Hrest. apply IH in Hrest as (more2 & E2 & HQ2).
    + exists (more1 ++ more2). rewrite E2, E1, app_assoc. split; [reflexivity|].
      intros n Hn. apply elem_of_app in Hn as [Hn|Hn]; auto.
    + intros g m Hg Hm. rewrite <- app_assoc in Hg. cbn [app] in Hg.
      rewrite values_app in Hg. apply elem_of_app in Hg as [Hg|Hg].
      * apply (HQ g); [|assumption]. rewrite values_app. apply elem_of_app. now left.
      * cbn [JsObject.values List.map snd] in Hg. apply elem_of_cons in Hg as [->|Hg].
        -- apply removeIgnored_modules in Hm as [Hm _]. apply (HQ group0); [|assumption].
           rewrite values_app. apply elem_of_app. right. left.
        -- apply (HQ g); [|assumption]. rewrite values_app. apply elem_of_app.
           right. now right.
Qed.

(** X8: the resolver never takes a name off the ignore list and never
    invents one: the list it returns is the list it was given followed by
    package names of modules of the grouped map.  What goes to
    [Config.addToConfig], if anything, is that whole list. *)
Theorem askForEachConflictVersionsPrompt_ignore_grows
    (girModulesGroupedMap : GirModulesGroupedMap) (ignore answers : list string)
    (r : Resolution) (answers' : list string) :
  askForEachConflictVersionsPrompt union girModulesGroupedMap ignore answers
  = Finished (r, answers') ->
  (exists more,
      res_ignore r = ignore ++ more
      /\ forall n, n ∈ more ->
           exists g m, g ∈ JsObject.values girModulesGroupedMap
                       /\ m ∈ modules g /\ packageName m = n)
  /\ (res_addToConfig r = None \/ res_addToConfig r = Some (res_ignore r)).
Proof.
  unfold askForEachConflictVersionsPrompt.
  destruct (forEachGroup union [] girModulesGroupedMap _) as [[done' st']|e|] eqn:Hloop;
    [|discriminate|discriminate].
  apply (forEachGroup_ignore
           (fun n => exists g m, g ∈ JsObject.values girModulesGroupedMap
                                 /\ m ∈ modules g /\ packageName m = n)) in Hloop;
    [|intros g m Hg Hm; exists g, m; auto].
  cbn [rs_ignore] in Hloop.
  destruct (0 <? length (rs_ignore st')).
  - destruct (rs_answers st') as [|addToIgnore rest]; [discriminate|].
    intros [= <- _]. cbn [res_ignore res_addToConfig]. split; [exact Hloop|].
    destruct (String.eqb addToIgnore "Yes"); auto.
  - intros [= <- _]. cbn [res_ignore res_addToConfig]. auto.
Qed.

(** X9: where no group holds two modules or more once the ignored names
    are taken out, the loop asks nothing: it ends without reading the
    script and leaves [ignore] as it was.  With an empty [ignore] the whole
    resolver then ends at once, the script untouched. *)
Theorem no_conflict_no_prompt (todo : GirModulesGroupedMap) :
  (forall (done : GirModulesGroupedMap) (keep : list GirModuleResolvedBy)
          (ignore answers : list string),
      (forall id group0, (id, group0) ∈ todo ->
                         length (modules (removeIgnored ignore group0)) <= 1) ->
      exists done' keep',
        forEachGroup union done todo
          {| rs_keep := keep; rs_ignore := ignore; rs_answers := answers |}
        = Finished (done', {| rs_keep := keep'; rs_ignore := ignore; rs_answers := answers |}))
  /\ (forall answers : list string,
        (forall id group0, (id, group0) ∈ todo -> length (modules group0) <= 1) ->
        exists keep',
          askForEachConflictVersionsPrompt union todo [] answers
          = Finished ({| res_keep := keep'; res_ignore := []; res_addToConfig := None |},
                      answers)).
Proof.
  assert (Hloop : forall (done : GirModulesGroupedMap) (keep : list GirModuleResolvedBy)
                         (ignore answers : list string),
            (forall id group0, (id, group0) ∈ todo ->
                               length (modules (removeIgnored ignore group0)) <= 1) ->
            exists done' keep',
              forEachGroup union done todo
                {| rs_keep := keep; rs_ignore := ignore; rs_answers := answers |}
              = Finished (done', {| rs_keep := keep'; rs_ignore := ignore;
                                    rs_answers := answers |})).
  { induction todo as [|[id group0] rest IH]; intros done keep ignore answers Hsmall;
      cbn [forEachGroup].
    - eauto.
    - assert (Hg : length (modules (removeIgnored ignore group0)) <= 1).
      { apply (Hsmall id). left. }
      assert (Hrest : forall id' group', (id', group') ∈ rest ->
                        length (modules (removeIgnored ignore group')) <= 1).
      { intros id' group' H. apply (Hsmall id'). now right. }
      unfold forEachGroup_body. cbn [fst snd rs_ignore rs_keep rs_answers].
      destruct (length (modules (removeIgnored ignore group0)) <=? 0) eqn:E0.
      + now apply IH.
      + assert (Hc : hasConflict (removeIgnored ignore group0) = false).
        { unfold removeIgnored in *. cbn [hasConflict modules] in *.
          apply Nat.leb_gt. lia. }
        rewrite Hc. cbn [negb]. now apply IH. }
  split; [exact Hloop|].
  intros answers Hsmall. unfold askForEachConflictVersionsPrompt.
  destruct (Hloop [] [] [] answers) as (done' & keep' & ->).
  { intros id group0 Hin. specialize (Hsmall id group0 Hin).
    unfold removeIgnored. cbn [modules array_includes existsb negb].
    rewrite List.forallb_filter_id; [assumption|].
    apply List.forallb_forall. intros x _. reflexivity. }
  cbn [rs_ignore rs_keep rs_answers length Nat.ltb Nat.leb]. eauto.
Qed.

(** X10: in a group in conflict, picking one member by name and
    confirming keeps exactly the members of that name and puts the name of
    every other member on the ignore list.  If the confirmation is "Yes",
    the name of every module of the map that declares one of those other
    members as a dependency is on the list as well; with any other
    confirmation nothing else is added. *)
Theorem pick_one_version (done : GirModulesGroupedMap) (id : string)
    (group0 : GirModulesGrouped) (rest : GirModulesGroupedMap)
    (keep : list GirModuleResolvedBy) (ignore : list string)
    (versionChoice depsChoice : string) (answers : list string) :
  hasConflict (removeIgnored ignore group0) = true ->
  versionChoice ∈ List.map packageName (modules (removeIgnored ignore group0)) ->
  truthy versionChoice = true ->
  versionChoice <> "All" ->
  depsChoice <> "Go back" ->
  exists keepSet ignore',
    forEachGroup_body union done (id, group0) rest
      {| rs_keep := keep; rs_ignore := ignore;
         rs_answers := versionChoice :: depsChoice :: answers |}
    = Finished (done ++ [(id, removeIgnored ignore group0)],
                {| rs_keep := union keep keepSet; rs_ignore := ignore';
                   rs_answers := answers |})
    /\ (forall m, m ∈ keepSet
                  <-> m ∈ modules (removeIgnored ignore group0)
                      /\ packageName m = versionChoice)
    /\ (forall u, u ∈ modules (removeIgnored ignore group0) ->
                  packageName u <> versionChoice -> packageName u ∈ ignore')
    /\ (depsChoice = "Yes" ->
        forall x gr u,
          gr ∈ JsObject.values (done ++ (id, removeIgnored ignore group0) :: rest) ->
          x ∈ modules gr ->
          u ∈ modules (removeIgnored ignore group0) ->
          packageName u <> versionChoice ->
          packageName x <> packageName u ->
          packageName u ∈ dependencies (module x) ->
          packageName x ∈ ignore')
    /\ (depsChoice <> "Yes" ->
        ignore' = ignore ++ List.filter (fun n => negb (String.eqb n versionChoice))
                              (List.map packageName (modules (removeIgnored ignore group0)))).
Proof.
  set (g := removeIgnored ignore group0).
  intros Hc Hin Hv Hall Hgb.
  assert (HallB : String.eqb versionChoice "All" = false) by now apply String.eqb_neq.
  assert (HallB' : String.eqb "All" versionChoice = false).
  { apply String.eqb_neq. congruence. }
  apply String.eqb_neq in Hgb.
  assert (Hlen : (length (modules g) <=? 0) = false).
  { apply Nat.leb_gt. unfold g, removeIgnored in *. cbn [hasConflict modules] in *.
    apply Nat.leb_le in Hc. lia. }
  destruct (sortVersionsByAnswer g [versionChoice]) as [[keepSet ign]|e] eqn:Hsort.
  2:{ exfalso. revert Hsort. unfold sortVersionsByAnswer. rewrite Hc. cbn [negb].
      destruct (findGirModuleByFullNames (modules g) [versionChoice]) as [|m ms] eqn:Hf;
        [|discriminate].
      apply list_elem_of_fmap in Hin as (m & Hm & Hmg).
      assert (Hmf : m ∈ findGirModuleByFullNames (modules g) [versionChoice]).
      { apply findGirModuleByFullNames_elem_of. split; [assumption|].
        rewrite <- Hm. left. }
      rewrite Hf in Hmf. inversion Hmf. }
  destruct (sortVersionsByAnswer_ok g _ keepSet ign Hc Hsort) as (Hk & Hi & _).
  set (unselected_ :=
         List.filter (fun choice => negb (String.eqb choice versionChoice))
           (List.map packageName (modules g))).
  set (would :=
         List.filter (fun dep => negb (array_includes ignore (packageName dep)))
           (findModulesDependOnPackages (done ++ (id, g) :: rest) ("All" :: unselected_))).
  assert (Hign : ign = unselected_).
  { revert Hsort. unfold sortVersionsByAnswer. rewrite Hc. cbn [negb].
    destruct (length (findGirModuleByFullNames (modules g) [versionChoice]) <=? 0);
      [discriminate|].
    intros [= _ <-]. cbn [app]. unfold unselected_. apply List.filter_ext.
    intros n. unfold array_includes. cbn [existsb]. now rewrite orb_false_r. }
  exists keepSet,
    ((if String.eqb depsChoice "Yes" then ignore ++ List.map packageName would else ignore)
       ++ ign).
  split; [|split; [|split; [|split]]].
  - unfold forEachGroup_body. cbn [fst snd rs_ignore rs_answers rs_keep]. fold g.
    rewrite Hlen, Hc. cbn [negb whileGoBack].
    unfold askForVersionsPrompt. rewrite Hv, HallB. cbn [negb unselected].
    unfold generateModuleVersionQuestion_choices. cbn [List.filter]. rewrite HallB'.
    cbn [negb]. unfold askIgnoreDepsPrompt. rewrite Hgb.
    cbn [versionAnswer selected wouldIgnoreDeps ignoreDepsAnswer]. rewrite Hsort.
    reflexivity.
  - intros m. rewrite Hk, list_elem_of_singleton. reflexivity.
  - intros u Hu Hne. apply elem_of_app. right. apply Hi. split.
    + apply list_elem_of_fmap. now exists u.
    + rewrite list_elem_of_singleton. exact Hne.
  - intros -> x gr u Hgr Hx Hu Hne Hxu Hdep. cbn [String.eqb Ascii.eqb Bool.eqb].
    destruct (decide (packageName x ∈ ignore)) as [Hold|Hnew].
    + apply elem_of_app. left. apply elem_of_app. now left.
    + apply elem_of_app. left. apply elem_of_app. right.
      apply list_elem_of_fmap. exists x. split; [reflexivity|].
      apply wouldIgnoreDeps_names. split; [assumption|].
      exists (packageName u), gr. split; [|split; [assumption|split; [assumption|]]].
      * right. unfold unselected_.
        apply list_elem_of_In, List.filter_In. split.
        -- apply in_map. now apply list_elem_of_In.
        -- apply negb_true_iff. now apply String.eqb_neq.
      * split; assumption.
  - intros Hno. apply String.eqb_neq in Hno. rewrite Hno, Hign. reflexivity.
Qed.

End Resolver.

Lemma pick_one_version_witness :
  exists keepSet ignore',
    forEachGroup_body exampleUnion [] ("gtk", gtkGroup) []
      {| rs_keep := []; rs_ignore := []; rs_answers := ["Gtk-4.0"; "No"] |}
    = Finished ([] ++ [("gtk", removeIgnored [] gtkGroup)],
                {| rs_keep := exampleUnion [] keepSet; rs_ignore := ignore';
                   rs_answers := [] |})
    /\ (forall m, m ∈ keepSet
                  <-> m ∈ modules (removeIgnored [] gtkGroup) /\ packageName m = "Gtk-4.0").
Proof.
  destruct (pick_one_version exampleUnion [] "gtk" gtkGroup [] [] [] "Gtk-4.0" "No" [])
    as (keepSet & ignore' & Hbody & Hkeep & _).
  - reflexivity.
  - apply list_elem_of_In. right. right. left. reflexivity.
  - reflexivity.
  - discriminate.
  - discriminate.
  - exists keepSet, ignore'. split; assumption.
Defined.

Lemma askForEachConflictVersionsPrompt_ignore_grows_witness :
  exists more,
    ["Gdk-3.0"; "Gtk-3.0"] = [] ++ more
    /\ forall n, n ∈ more ->
         exists g m, g ∈ JsObject.values exampleGrouped /\ m ∈ modules g /\ packageName m = n.
Proof.
  apply (askForEachConflictVersionsPrompt_ignore_grows exampleUnion exampleGrouped []
           ["Gtk-4.0"; "Yes"; "No"]
           {| res_keep := [exampleModule "Gtk-4.0" []];
              res_ignore := ["Gdk-3.0"; "Gtk-3.0"];
              res_addToConfig := None |} []).
  reflexivity.
Defined.

Lemma no_conflict_no_prompt_witness :
  exists keep',
    askForEachConflictVersionsPrompt exampleUnion
      [("gdk", mkGrouped "Gdk" [exampleModule "Gdk-3.0" []] false)] [] ["unread"]
    = Finished ({| res_keep := keep'; res_ignore := []; res_addToConfig := None |},
                ["unread"]).
Proof.
  apply (proj2 (no_conflict_no_prompt exampleUnion
                  [("gdk", mkGrouped "Gdk" [exampleModule "Gdk-3.0" []] false)])).
  intros id group0 Hin. apply list_elem_of_singleton in Hin. injection Hin as -> ->.
  simpl. lia.
Defined.

End ResolverMore.

(** ** Transitive dependencies: what the walk collects *)

Module TraversalMore.
Import JsString JsStringFacts JsObjectFacts ModuleLoader Notions Examples TraversalFacts.

(** [p] declares [q] as a dependency in the map. *)
Definition dependsDirectly (m : DependencyMap) (p q : string) : Prop :=
  exists deps dep, m !! p = Some deps /\ dep ∈ deps /\ dep_packageName dep = q.

(** The steps the walk takes: from [p] to a dependency [q] it declares,
    unless [q] is a name the object [result] inherits. *)
Definition follows (m : DependencyMap) (p q : string) : Prop :=
  dependsDirectly m p q /\ JsObject.prototypeMember q = false.

(** *** Every name collected is reachable *)

Lemma traverseDependencies_loop_sound (m : DependencyMap)
    (recurse : string -> list string -> option (list string)) (p0 : string)
    (deps : list Dependency) :
  (forall p r r', recurse p r = Some r' ->
                  forall x, x ∈ r' -> x ∈ r \/ tc (follows m) p x) ->
  (forall dep, dep ∈ deps -> dependsDirectly m p0 (dep_packageName dep)) ->
  forall r r',
    traverseDependencies_loop recurse deps r = Some r' ->
    forall x, x ∈ r' -> x ∈ r \/ tc (follows m) p0 x.
Proof.
  intros Hrec. induction deps as [|dep deps IH]; intros Hdeps r r'; cbn [traverseDependencies_loop].
  - intros [= <-]. auto.
  - assert (Hrest : forall dep', dep' ∈ deps -> dependsDirectly m p0 (dep_packageName dep')).
    { intros dep' H. apply Hdeps. now right. }
    destruct (array_includes r (dep_packageName dep)
              || JsObject.prototypeMember (dep_packageName dep)) eqn:Hskip;
      [now apply IH|].
    apply orb_false_iff in Hskip as [_ Hproto].
    destruct (recurse _ _) as [r1|] eqn:E1; [|discriminate].
    intros Hloop x Hx.
    destruct (IH Hrest _ _ Hloop x Hx) as [H1|H]; [|now right].
    assert (Hedge : follows m p0 (dep_packageName dep)).
    { split; [apply Hdeps; left|exact Hproto]. }
    destruct (Hrec _ _ _ E1 x H1) as [H0|H0].
    + apply elem_of_addKey in H0 as [H0| ->]; [now left|].
      right. now apply tc_once.
    + right. eapply tc_l; eassumption.
Qed.

Lemma traverseDependencies_sound (m : DependencyMap) (fuel : nat) :
  forall p r r',
    traverseDependencies fuel m p r = Some r' ->
    forall x, x ∈ r' -> x ∈ r \/ tc (follows m) p x.
Proof.
  induction fuel as [|fuel IH]; intros p r r'; [discriminate|].
  cbn [traverseDependencies].
  destruct (m !! p) as [deps|] eqn:Hp.
  - apply (traverseDependencies_loop_sound m _ p deps IH).
    intros dep Hdep. exists deps, dep. auto.
  - intros [= <-]. auto.
Qed.

(** *** Every reachable name is collected *)

(** After a walk from [p] that turned [r] into [r']: nothing is lost, the
    names the walk steps to from [p] are in, and so are the names it steps
    to from every newly added name. *)
Definition Closed (m : DependencyMap) (p : string) (r r' : list string) : Prop :=
  (forall x, x ∈ r -> x ∈ r')
  /\ (forall q, follows m p q -> q ∈ r')
  /\ (forall x, x ∈ r' -> x ∉ r -> forall q, follows m x q -> q ∈ r').

Lemma traverseDependencies_loop_closed (m : DependencyMap)
    (recurse : string -> list string -> option (list string)) (deps : list Dependency) :
  (forall p r r', recurse p r = Some r' -> Closed m p r r') ->
  forall r r',
    traverseDependencies_loop recurse deps r = Some r' ->
    (forall x, x ∈ r -> x ∈ r')
    /\ (forall dep, dep ∈ deps -> JsObject.prototypeMember (dep_packageName dep) = false ->
                    dep_packageName dep ∈ r')
    /\ (forall x, x ∈ r' -> x ∉ r -> forall q, follows m x q -> q ∈ r').
Proof.
  intros Hrec. induction deps as [|dep deps IH]; intros r r'; cbn [traverseDependencies_loop].
  - intros [= <-]. split; [auto|]. split; [|tauto]. intros dep H. inversion H.
  - destruct (array_includes r (dep_packageName dep)) eqn:Hinc; cbn [orb].
    + intros Hloop. destruct (IH _ _ Hloop) as (Hsub & Hdeps & Hnew).
      split; [exact Hsub|]. split; [|exact Hnew].
      intros dep' Hd Hp. apply elem_of_cons in Hd as [->|Hd]; [|auto].
      apply Hsub. now apply array_includes_elem_of.
    + destruct (JsObject.prototypeMember (dep_packageName dep)) eqn:Hproto.
      * intros Hloop. destruct (IH _ _ Hloop) as (Hsub & Hdeps & Hnew).
        split; [exact Hsub|]. split; [|exact Hnew].
        intros dep' Hd Hp. apply elem_of_cons in Hd as [->|Hd]; [congruence|auto].
      * destruct (recurse _ _) as [r1|] eqn:E1; [|discriminate].
        intros Hloop. destruct (IH _ _ Hloop) as (Hsub & Hdeps & Hnew).
        destruct (Hrec _ _ _ E1) as (Hsub1 & Hsucc1 & Hnew1).
        assert (Hd1 : dep_packageName dep ∈ r1).
        { apply Hsub1. apply elem_of_addKey. now right. }
        split; [|split].
        -- intros x Hx. apply Hsub, Hsub1. apply elem_of_addKey. now left.
        -- intros dep' Hd Hp. apply elem_of_cons in Hd as [->|Hd]; auto.
        -- intros x Hx Hnot q Hq.
           destruct (decide (x ∈ r1)) as [Hin1|Hout1]; [|eapply Hnew; eassumption].
           apply Hsub.
           destruct (decide (x = dep_packageName dep)) as [->|Hne]; [now apply Hsucc1|].
           apply (Hnew1 x Hin1); [|assumption].
           intros H. apply elem_of_addKey in H as [H|H]; contradiction.
Qed.

Lemma traverseDependencies_closed (m : DependencyMap) (fuel : nat) :
  forall p r r', traverseDependencies fuel m p r = Some r' -> Closed m p r r'.
Proof.
  induction fuel as [|fuel IH]; intros p r r'; [discriminate|].
  cbn [traverseDependencies].
  destruct (m !! p) as [deps|] eqn:Hp.
  - intros Hloop.
    destruct (traverseDependencies_loop_closed m _ deps IH _ _ Hloop) as (Hsub & Hdeps & Hnew).
    split; [exact Hsub|]. split; [|exact Hnew].
    intros q [(deps' & dep & Hp' & Hdep & <-) Hproto].
    rewrite Hp in Hp'. injection Hp' as <-. auto.
  - intros [= <-]. split; [auto|]. split; [|tauto].
    intros q [(deps' & dep & Hp' & _) _]. congruence.
Qed.

Lemma closed_set_reaches (m : DependencyMap) (R : list string) :
  (forall x, x ∈ R -> forall q, follows m x q -> q ∈ R) ->
  forall p q, tc (follows m) p q ->
              (forall q', follows m p q' -> q' ∈ R) -> q ∈ R.
Proof.
  intros Hclosed p q Htc. induction Htc as [x y Hxy|x y z Hxy _ IH]; intros Hsucc.
  - now apply Hsucc.
  - apply IH. apply Hclosed. now apply Hsucc.
Qed.

(** The keys left by the walk from the empty object are the names the walk
    can step to from the start, in one step or more. *)
Lemma transitiveClosure_reachable (m : DependencyMap) (p q : string) :
  q ∈ transitiveClosure m p <-> tc (follows m) p q.
Proof.
  destruct (traverseDependencies_closureFuel m p []) as (r & Hr & _).
  specialize (Hr (closureFuel m) (le_n _)).
  unfold transitiveClosure. rewrite Hr. cbn.
  split.
  - intros Hq. destruct (traverseDependencies_sound m _ _ _ _ Hr q Hq) as [H|H];
      [inversion H|exact H].
  - destruct (traverseDependencies_closed m _ _ _ _ Hr) as (_ & Hsucc & Hnew).
    intros Htc. apply (closed_set_reaches m r) with (p := p); [|assumption|assumption].
    intros x Hx. apply Hnew; [assumption|apply not_elem_of_nil].
Qed.

(** Where no dependency of the map bears a name of [Object.prototype], the
    walk follows every declared dependency. *)
Lemma follows_all (m : DependencyMap) :
  (forall q, q ∈ dependencyNames m -> JsObject.prototypeMember q = false) ->
  forall p q, tc (follows m) p q <-> tc (dependsDirectly m) p q.
Proof.
  intros Hnames p q. split.
  - induction 1 as [x y [Hxy _]|x y z [Hxy _] _ IH]; [now apply tc_once|].
    eapply tc_l; eassumption.
  - assert (Hstep : forall x y, dependsDirectly m x y -> follows m x y).
    { intros x y Hxy. split; [exact Hxy|]. apply Hnames.
      destruct Hxy as (deps & dep & Hx & Hdep & <-).
      eapply dependencyNames_lookup; eassumption. }
    induction 1 as [x y Hxy|x y z Hxy _ IH]; [apply tc_once; auto|].
    eapply tc_l; [apply Hstep|]; eassumption.
Qed.

(** X11: the closure computed for a package holds exactly the package names
    the walk can step to from it in one step or more, a step going from a
    package to a dependency it declares in the map whose name is not one a
    plain object inherits from [Object.prototype] (such a name is skipped,
    together with what only it leads to).  Where no dependency of the map
    has such a name, these are the names reachable through one declared
    dependency or more.  The closure is empty for a package the map has no
    entry for. *)
Theorem transitiveClosure_exact (modDependencyMap : DependencyMap) (packageName_ : string) :
  (forall q, q ∈ transitiveClosure modDependencyMap packageName_
             <-> tc (follows modDependencyMap) packageName_ q)
  /\ ((forall q, q ∈ dependencyNames modDependencyMap ->
                 JsObject.prototypeMember q = false) ->
      forall q, q ∈ transitiveClosure modDependencyMap packageName_
                <-> tc (dependsDirectly modDependencyMap) packageName_ q)
  /\ (modDependencyMap !! packageName_ = None ->
      transitiveClosure modDependencyMap packageName_ = []).
Proof.
  split; [intros q; apply transitiveClosure_reachable|]. split.
  - intros Hnames q. rewrite transitiveClosure_reachable. now apply follows_all.
  - intros Hnone. unfold transitiveClosure, closureFuel. cbn [traverseDependencies].
    now rewrite Hnone.
Qed.

Lemma transitiveClosure_exact_witness :
  transitiveClosure cycleMap "C" = []
  /\ ("A" ∈ transitiveClosure cycleMap "A" <-> tc (dependsDirectly cycleMap) "A" "A").
Proof.
  destruct (transitiveClosure_exact cycleMap "A") as (_ & Hall & _).
  split.
  - apply (proj2 (proj2 (transitiveClosure_exact cycleMap "C"))). reflexivity.
  - apply Hall. intros q Hq. vm_compute in Hq.
    apply elem_of_cons in Hq as [->|Hq]; [reflexivity|].
    apply list_elem_of_singleton in Hq. now subst q.
Defined.

(** A dependency named like a member of [Object.prototype] is left out of
    the closure, and so is what only it leads to. *)
Example transitiveClosure_skips_inherited :
  transitiveClosure
    (<["A" := [exampleDependency "constructor"; exampleDependency "B"]]>
       (<["constructor" := [exampleDependency "C"]]> ∅)) "A"
  = ["B"].
Proof. reflexivity. Qed.

(** X12: [setTraverseDependenciesForModules] changes nothing of a module
    but its transitive dependencies, which become, without repetition, the
    package names the walk can step to from the module in the dependency
    map: the names reachable through declared dependencies, where no
    dependency of the map bears a name of [Object.prototype]. *)
Theorem setTraverseDependenciesForModules_exact (modDependencyMap : DependencyMap)
    (girModules_ : list GirModuleResolvedBy) :
  List.map packageName (setTraverseDependenciesForModules modDependencyMap girModules_)
  = List.map packageName girModules_
  /\ List.map (fun g => dependencies (module g))
       (setTraverseDependenciesForModules modDependencyMap girModules_)
     = List.map (fun g => dependencies (module g)) girModules_
  /\ List.map resolvedBy (setTraverseDependenciesForModules modDependencyMap girModules_)
     = List.map resolvedBy girModules_
  /\ forall g, g ∈ setTraverseDependenciesForModules modDependencyMap girModules_ ->
       NoDup (transitiveDependencies (module g))
       /\ (forall q, q ∈ transitiveDependencies (module g)
                     <-> tc (follows modDependencyMap) (packageName g) q)
       /\ ((forall q, q ∈ dependencyNames modDependencyMap ->
                      JsObject.prototypeMember q = false) ->
           forall q, q ∈ transitiveDependencies (module g)
                     <-> tc (dependsDirectly modDependencyMap) (packageName g) q).
Proof.
  unfold setTraverseDependenciesForModules.
  rewrite !List.map_map. cbn [packageName module dependencies resolvedBy].
  split; [reflexivity|]. split; [reflexivity|]. split; [reflexivity|].
  intros g Hg. apply list_elem_of_fmap in Hg as (g0 & -> & _).
  cbn [packageName module transitiveDependencies]. split; [|split].
  - destruct (traverseDependencies_closureFuel modDependencyMap (packageName g0) [])
      as (r & Hr & (_ & Hnd & _)).
    unfold transitiveClosure. rewrite (Hr _ (le_n _)). cbn. apply Hnd, NoDup_nil_2.
  - intros q. apply transitiveClosure_reachable.
  - intros Hnames q. rewrite transitiveClosure_reachable. now apply follows_all.
Qed.

Lemma setTraverseDependenciesForModules_exact_witness :
  tc (dependsDirectly cycleMap) "A" "A".
Proof.
  destruct (setTraverseDependenciesForModules_exact cycleMap [exampleModule "A" ["B"]])
    as (_ & _ & _ & H).
  destruct (H {| packageName := "A";
                 module := {| gm_packageName := "A";
                              dependencies := ["B"];
                              transitiveDependencies := ["B"; "A"] |};
                 resolvedBy := BY_HAND |}) as (_ & _ & Hq).
  - apply list_elem_of_In. left. reflexivity.
  - apply Hq.
    + intros q Hq'. vm_compute in Hq'.
      apply elem_of_cons in Hq' as [->|Hq']; [reflexivity|].
      apply list_elem_of_singleton in Hq'. now subst q.
    + apply list_elem_of_further, list_elem_of_here.
Defined.

End TraversalMore.

(** ** Loading documents: invariants of the loader *)

Module LoaderMore.
Import JsString JsStringFacts ModuleLoader Notions Examples LoaderFacts TraversalMore.

(** What a document declares of a loaded module, and how it was found. *)
Definition declared (g : GirModuleResolvedBy) : string * list string * ResolveType :=
  (packageName g, dependencies (module g), resolvedBy g).

Lemma setTraverseDependenciesForModules_declared (m : DependencyMap)
    (gs : list GirModuleResolvedBy) :
  List.map declared (setTraverseDependenciesForModules m gs) = List.map declared gs.
Proof.
  unfold setTraverseDependenciesForModules. rewrite List.map_map. reflexivity.
Qed.

Section Loader.
Variable splitModuleName : string -> ModuleName.
Variable parseGirFile : string -> option GirModule.

(** *** The dependency map after [extendDependencyMapByGirModule] *)

(** X13: once a module with a non-empty package name is entered, the
    packages it depends on directly, as the map has it, are exactly the
    dependencies it declares, each with the namespace and version
    [splitModuleName] reads off its name; the entries of other packages are
    untouched.  A module without a package name is entered under "-". *)
Theorem extendDependencyMapByGirModule_entry (modDependencyMap_ : DependencyMap)
    (girModule : GirModule) :
  (truthy (gm_packageName girModule) = true ->
   (forall q, dependsDirectly
                (extendDependencyMapByGirModule splitModuleName modDependencyMap_ girModule)
                (gm_packageName girModule) q
              <-> q ∈ dependencies girModule)
   /\ (exists deps,
         extendDependencyMapByGirModule splitModuleName modDependencyMap_ girModule
           !! gm_packageName girModule = Some deps
         /\ List.map dep_packageName deps = dependencies girModule
         /\ forall dep, dep ∈ deps ->
              dep_namespace dep = mn_namespace (splitModuleName (dep_packageName dep))
              /\ dep_version dep = mn_version (splitModuleName (dep_packageName dep)))
   /\ (forall p, p <> gm_packageName girModule ->
         extendDependencyMapByGirModule splitModuleName modDependencyMap_ girModule !! p
         = modDependencyMap_ !! p))
  /\ (gm_packageName girModule = "" ->
      is_Some (extendDependencyMapByGirModule splitModuleName modDependencyMap_ girModule
                 !! "-")).
Proof.
  unfold extendDependencyMapByGirModule. split.
  - intros Ht. rewrite Ht.
    set (deps := List.map _ (dependencies girModule)).
    assert (Hnames : List.map dep_packageName deps = dependencies girModule).
    { unfold deps. rewrite List.map_map. cbn [dep_packageName]. apply List.map_id. }
    split; [|split].
    + intros q. unfold dependsDirectly. rewrite lookup_insert_eq. split.
      * intros (deps' & dep & [= <-] & Hdep & <-). rewrite <- Hnames.
        apply list_elem_of_fmap. now exists dep.
      * intros Hq. rewrite <- Hnames in Hq. apply list_elem_of_fmap in Hq as (dep & -> & Hdep).
        exists deps, dep. auto.
    + exists deps. rewrite lookup_insert_eq. split; [reflexivity|]. split; [exact Hnames|].
      intros dep Hdep. unfold deps in Hdep. apply list_elem_of_fmap in Hdep as (p & -> & _).
      split; reflexivity.
    + intros p Hp. now rewrite lookup_insert_ne.
  - intros ->. cbn [truthy String.eqb negb]. rewrite lookup_insert_eq. eauto.
Qed.

(** *** A scheme for relations kept by the loader *)

Section Scheme.
Variable R : ResolveType -> LoaderState -> LoaderState -> Prop.
Hypothesis R_refl : forall rb st, R rb st st.
Hypothesis R_trans : forall rb st1 st2 st3, R rb st1 st2 -> R rb st2 st3 -> R rb st1 st3.
Hypothesis R_dependence : forall rb st1 st2, R DEPENDENCE st1 st2 -> R rb st1 st2.
Hypothesis R_while :
  forall girToLoad rb st found st' found',
    whileGirToLoad splitModuleName parseGirFile girToLoad rb st found = Ok (st', found') ->
    R rb st st'.
Hypothesis R_traverse :
  forall rb st,
    R rb st {| girModules :=
                 setTraverseDependenciesForModules (modDependencyMap st) (girModules st);
               failedGirModules := failedGirModules st;
               modDependencyMap := modDependencyMap st;
               warnings := warnings st |}.
Hypothesis R_warn :
  forall rb ignoreDependencies girModule st,
    R rb st (warnIgnoredDependencies ignoreDependencies girModule st).

Lemma forGirModules_scheme (recurse : list string -> LoaderState -> Run)
    (ignoreDependencies : list string) (rb : ResolveType) :
  (forall toRead st st', stateOf (recurse toRead st) = Some st' -> R DEPENDENCE st st') ->
  forall turns i st st',
    stateOf (forGirModules recurse ignoreDependencies turns i st) = Some st' ->
    R rb st st'.
Proof.
  intros Hrec. induction turns as [|turns IH]; intros i st st'; cbn [forGirModules].
  - intros [= <-]. apply R_refl.
  - destruct (girModules st !! i) as [girModule|]; [|intros [= <-]; apply R_refl].
    destruct (0 <? length (transitiveDependencies (module girModule))); [|apply IH].
    destruct (recurse _ _) as [st1|e|st1] eqn:E; cbn [stateOf].
    + intros H. eapply R_trans; [apply R_warn|].
      eapply R_trans; [|eapply IH; exact H].
      apply R_dependence. eapply Hrec. rewrite E. reflexivity.
    + discriminate.
    + intros [= <-]. eapply R_trans; [apply R_warn|].
      apply R_dependence. eapply Hrec. rewrite E. reflexivity.
Qed.

Lemma loadGirModules_scheme (fuel : nat) :
  forall girModulesToRead ignoreDependencies rb st st',
    stateOf (loadGirModules splitModuleName parseGirFile fuel girModulesToRead
               ignoreDependencies rb st) = Some st' ->
    R rb st st'.
Proof.
  induction fuel as [|fuel IH]; intros toRead ignoreDependencies rb st st';
    cbn [loadGirModules].
  - intros [= <-]. apply R_refl.
  - destruct (whileGirToLoad _ _ toRead rb st false) as [[st1 found]|e] eqn:Hloop;
      [|discriminate].
    apply R_while in Hloop.
    destruct found; cbn [negb]; [|intros [= <-]; exact Hloop].
    intros H. eapply R_trans; [exact Hloop|]. eapply R_trans; [apply R_traverse|].
    eapply forGirModules_scheme; [|exact H].
    intros toRead' st0 st0'. apply IH.
Qed.

End Scheme.

(** *** The steps of the [while] loop *)

(** What one turn of the [while] loop can do to the state: record a missing
    document, append a parsed module, or only enter a module without a
    package name into the dependency map (a turn for a name already loaded,
    or already failed, changes nothing). *)
Inductive LoadStep (rb : ResolveType) : LoaderState -> LoaderState -> Prop :=
| step_failed st p :
    truthy p = true -> parseGirFile p = None -> p ∉ failedGirModules st ->
    LoadStep rb st
      {| girModules := girModules st;
         failedGirModules := failedGirModules st ++ [p];
         modDependencyMap := modDependencyMap st;
         warnings := warnings st ++ [WARN_NO_GIR_FILE_FOUND_FOR_PACKAGE p] |}
| step_loaded st p girModule :
    truthy p = true -> parseGirFile p = Some girModule ->
    p ∉ loadedNames st -> truthy (gm_packageName girModule) = true ->
    LoadStep rb st
      {| girModules :=
           girModules st ++ [{| packageName := gm_packageName girModule;
                                module := girModule;
                                resolvedBy := rb |}];
         failedGirModules := failedGirModules st;
         modDependencyMap :=
           extendDependencyMapByGirModule splitModuleName (modDependencyMap st) girModule;
         warnings := warnings st |}
| step_nameless st p girModule :
    truthy p = true -> parseGirFile p = Some girModule ->
    truthy (gm_packageName girModule) = false ->
    LoadStep rb st
      {| girModules := girModules st;
         failedGirModules := failedGirModules st;
         modDependencyMap :=
           extendDependencyMapByGirModule splitModuleName (modDependencyMap st) girModule;
         warnings := warnings st |}.

Lemma existsGirModules_false (gs : list GirModuleResolvedBy) (p : string) :
  existsGirModules gs [p] = false <-> p ∉ List.map packageName gs.
Proof.
  rewrite <- existsGirModules_loaded. destruct (existsGirModules gs [p]); split; congruence.
Qed.

Lemma whileGirToLoad_steps (girToLoad : list string) (rb : ResolveType) :
  forall st found st' found',
    whileGirToLoad splitModuleName parseGirFile girToLoad rb st found = Ok (st', found') ->
    rtc (LoadStep rb) st st'.
Proof.
  induction girToLoad as [|shifted girToLoad IH]; intros st found st' found';
    cbn [whileGirToLoad].
  - intros [= <- _]. apply rtc_refl.
  - fold (shiftedName shifted). rewrite shiftedName_truthy. cbn [negb].
    set (p := shiftedName shifted).
    destruct (existsGirModules (girModules st) [p]) eqn:Hex; cbn [negb]; [apply IH|].
    apply existsGirModules_false in Hex.
    unfold loadAndCreateGirModule.
    destruct (parseGirFile p) as [girModule|] eqn:Hparse.
    + destruct (truthy (gm_packageName girModule)) eqn:Hname; intros H.
      * eapply rtc_l; [|eapply IH; exact H].
        exact (step_loaded rb st p girModule (shiftedName_truthy shifted) Hparse Hex Hname).
      * eapply rtc_l; [|eapply IH; exact H].
        exact (step_nameless rb st p girModule (shiftedName_truthy shifted) Hparse Hname).
    + unfold JsSet.has. case_bool_decide as Hfailed; cbn [negb]; [apply IH|].
      intros H. eapply rtc_l; [|eapply IH; exact H].
      unfold JsSet.add, JsSet.has. rewrite bool_decide_eq_false_2 by assumption.
      exact (step_failed rb st p (shiftedName_truthy shifted) Hparse Hfailed).
Qed.

(** A relation kept by every step, by recomputing the transitive
    dependencies and by warning is kept by [loadGirModules]. *)
Lemma loadGirModules_steps (R : ResolveType -> LoaderState -> LoaderState -> Prop) :
  (forall rb st, R rb st st) ->
  (forall rb st1 st2 st3, R rb st1 st2 -> R rb st2 st3 -> R rb st1 st3) ->
  (forall rb st1 st2, R DEPENDENCE st1 st2 -> R rb st1 st2) ->
  (forall rb st st', LoadStep rb st st' -> R rb st st') ->
  (forall rb st gs ws,
      List.map declared gs = List.map declared (girModules st) ->
      missingFileWarnings ws = missingFileWarnings (warnings st) ->
      R rb st {| girModules := gs; failedGirModules := failedGirModules st;
                 modDependencyMap := modDependencyMap st; warnings := ws |}) ->
  forall fuel girModulesToRead ignoreDependencies rb st st',
    stateOf (loadGirModules splitModuleName parseGirFile fuel girModulesToRead
               ignoreDependencies rb st) = Some st' ->
    R rb st st'.
Proof.
  intros Hrefl Htrans Hdep Hstep Hsame fuel.
  apply (loadGirModules_scheme R Hrefl Htrans Hdep).
  - intros girToLoad rb st found st' found' H. apply whileGirToLoad_steps in H.
    induction H as [st|st1 st2 st3 H12 _ IH]; [apply Hrefl|].
    eapply Htrans; [apply Hstep; exact H12|exact IH].
  - intros rb st. apply Hsame; [apply setTraverseDependenciesForModules_declared|reflexivity].
  - intros rb ignoreDependencies girModule st. apply Hsame; [reflexivity|].
    cbn [warnings]. apply missingFileWarnings_ignored.
Qed.

(** *** The list of loaded modules *)

Lemma loadGirModules_declared_prefix (fuel : nat) (girModulesToRead ignoreDependencies : list string)
    (rb : ResolveType) (st st' : LoaderState) :
  stateOf (loadGirModules splitModuleName parseGirFile fuel girModulesToRead
             ignoreDependencies rb st) = Some st' ->
  exists more,
    List.map declared (girModules st') = List.map declared (girModules st) ++ more
    /\ forall d, d ∈ more -> snd d = rb \/ snd d = DEPENDENCE.
Proof.
  apply (loadGirModules_steps
           (fun rb st st' =>
              exists more,
                List.map declared (girModules st') = List.map declared (girModules st) ++ more
                /\ forall d, d ∈ more -> snd d = rb \/ snd d = DEPENDENCE)).
  - intros rb0 st0. exists []. rewrite app_nil_r. split; [reflexivity|].
    intros d H. inversion H.
  - intros rb0 st1 st2 st3 (m1 & E1 & H1) (m2 & E2 & H2). exists (m1 ++ m2).
    rewrite E2, E1, app_assoc. split; [reflexivity|].
    intros d Hd. apply elem_of_app in Hd as [Hd|Hd]; auto.
  - intros rb0 st1 st2 (m & E & H). exists m. split; [exact E|].
    intros d Hd. right. destruct (H d Hd); assumption.
  - intros rb0 st0 st0' Hstep. destruct Hstep; cbn [girModules].
    + exists []. rewrite app_nil_r. split; [reflexivity|]. intros d H'. inversion H'.
    + eexists. rewrite List.map_app. split; [reflexivity|].
      intros d Hd. cbn [List.map declared] in Hd. apply list_elem_of_singleton in Hd.
      subst d. now left.
    + exists []. rewrite app_nil_r. split; [reflexivity|]. intros d H'. inversion H'.
  - intros rb0 st0 gs ws Hgs _. cbn [girModules]. exists []. rewrite app_nil_r.
    split; [exact Hgs|]. intros d H. inversion H.
Qed.

(** X14: [loadGirModules] never drops, reorders or re-tags a loaded module:
    package names, declared dependencies and resolution tags of the modules
    it was given stay in place, and the modules it appends are tagged with
    the tag of the call or as found through a dependency. *)
Theorem loadGirModules_appends (fuel : nat) (girModulesToRead ignoreDependencies : list string)
    (rb : ResolveType) (st st' : LoaderState) :
  stateOf (loadGirModules splitModuleName parseGirFile fuel girModulesToRead
             ignoreDependencies rb st) = Some st' ->
  exists more,
    List.map declared (girModules st') = List.map declared (girModules st) ++ more
    /\ forall d, d ∈ more -> snd d = rb \/ snd d = DEPENDENCE.
Proof. apply loadGirModules_declared_prefix. Qed.

(** *** The set of failed names *)

Lemma loadGirModules_failed_no_document (fuel : nat)
    (girModulesToRead ignoreDependencies : list string)
    (rb : ResolveType) (st st' : LoaderState) :
  stateOf (loadGirModules splitModuleName parseGirFile fuel girModulesToRead
             ignoreDependencies rb st) = Some st' ->
  (forall p, p ∈ failedGirModules st' -> p ∈ failedGirModules st \/ parseGirFile p = None)
  /\ (NoDup (failedGirModules st) -> NoDup (failedGirModules st')).
Proof.
  apply (loadGirModules_steps
           (fun _ st st' =>
              (forall p, p ∈ failedGirModules st' ->
                         p ∈ failedGirModules st \/ parseGirFile p = None)
              /\ (NoDup (failedGirModules st) -> NoDup (failedGirModules st')))).
  - intros _ st0. auto.
  - intros _ st1 st2 st3 [H1 N1] [H2 N2]. split; [|auto].
    intros p Hp. destruct (H2 p Hp) as [H|H]; auto.
  - auto.
  - intros rb0 st0 st0' Hstep. destruct Hstep; cbn [failedGirModules]; auto.
    split.
    + intros q Hq. apply elem_of_app in Hq as [Hq|Hq]; [now left|].
      apply list_elem_of_singleton in Hq. subst q. now right.
    + intros Hnd. apply NoDup_app. split; [assumption|]. split; [|apply NoDup_singleton].
      intros q Hq Hin. apply list_elem_of_singleton in Hin. now subst.
  - intros _ st0 gs ws _ _. cbn [failedGirModules]. auto.
Qed.

(** X15: a name is added to [failed] only when no document is found for
    it, and never twice. *)
Theorem loadGirModules_failed_sound (fuel : nat)
    (girModulesToRead ignoreDependencies : list string)
    (rb : ResolveType) (st st' : LoaderState) :
  stateOf (loadGirModules splitModuleName parseGirFile fuel girModulesToRead
             ignoreDependencies rb st) = Some st' ->
  (forall p, p ∈ failedGirModules st' -> p ∈ failedGirModules st \/ parseGirFile p = None)
  /\ (NoDup (failedGirModules st) -> NoDup (failedGirModules st')).
Proof. apply loadGirModules_failed_no_document. Qed.

(** *** Loaded modules and the dependency map *)

(** Every loaded module has a package name, the one its document gives,
    and an entry in the dependency map. *)
Definition Entered (st : LoaderState) : Prop :=
  forall g, g ∈ girModules st ->
    truthy (packageName g) = true
    /\ is_Some (modDependencyMap st !! packageName g).

Lemma elem_of_declared (gs gs' : list GirModuleResolvedBy) (g : GirModuleResolvedBy) :
  List.map declared gs = List.map declared gs' ->
  g ∈ gs -> exists g', g' ∈ gs' /\ declared g' = declared g.
Proof.
  intros E Hg.
  assert (H : declared g ∈ List.map declared gs') by (rewrite <- E; now apply list_elem_of_fmap_2).
  apply list_elem_of_fmap in H as (g' & H1 & H2). eauto.
Qed.

Lemma is_Some_extend (m : DependencyMap) (girModule : GirModule) (p : string) :
  is_Some (m !! p) -> is_Some (extendDependencyMapByGirModule splitModuleName m girModule !! p).
Proof.
  intros H. unfold extendDependencyMapByGirModule.
  rewrite lookup_insert. case_decide; [eauto|assumption].
Qed.

(** X16: the dependency map is complete for the loaded modules: a state
    in which every loaded module has a non-empty package name and an entry
    in the map is taken to one with the same property. *)
Theorem loadGirModules_map_complete (fuel : nat)
    (girModulesToRead ignoreDependencies : list string)
    (rb : ResolveType) (st st' : LoaderState) :
  stateOf (loadGirModules splitModuleName parseGirFile fuel girModulesToRead
             ignoreDependencies rb st) = Some st' ->
  Entered st -> Entered st'.
Proof.
  apply (loadGirModules_steps (fun _ st st' => Entered st -> Entered st')).
  - auto.
  - auto.
  - auto.
  - intros rb0 st0 st0' Hstep Hin. destruct Hstep; unfold Entered in *;
      cbn [girModules modDependencyMap].
    + exact Hin.
    + intros g Hg. apply elem_of_app in Hg as [Hg|Hg].
      * destruct (Hin g Hg). split; [assumption|]. now apply is_Some_extend.
      * apply list_elem_of_singleton in Hg. subst g. cbn [packageName].
        split; [assumption|]. unfold extendDependencyMapByGirModule.
        match goal with H : truthy (gm_packageName _) = true |- _ => rewrite H end.
        rewrite lookup_insert_eq. eauto.
    + intros g Hg. destruct (Hin g Hg). split; [assumption|]. now apply is_Some_extend.
  - intros _ st0 gs ws Hgs _ Hin. unfold Entered in *. cbn [girModules modDependencyMap].
    intros g Hg. destruct (elem_of_declared _ _ g Hgs Hg) as (g' & Hg' & E).
    injection E as E1 _ _. rewrite <- E1. now apply Hin.
Qed.

(** *** Package names of the loaded modules *)

Lemma declared_names (gs gs' : list GirModuleResolvedBy) :
  List.map declared gs = List.map declared gs' ->
  List.map packageName gs = List.map packageName gs'.
Proof.
  intros E. apply (f_equal (List.map (fun d => fst (fst d)))) in E.
  rewrite !List.map_map in E. exact E.
Qed.

(** The document found for a name declares that name. *)
Definition Consistent : Prop :=
  forall p girModule, parseGirFile p = Some girModule -> gm_packageName girModule = p.

(** No two loaded modules share a package name, every loaded name has a
    document, and no failed name has one. *)
Definition Distinct (st : LoaderState) : Prop :=
  NoDup (loadedNames st)
  /\ (forall p, p ∈ loadedNames st -> is_Some (parseGirFile p))
  /\ (forall p, p ∈ failedGirModules st -> parseGirFile p = None).

Lemma loadGirModules_distinct (fuel : nat)
    (girModulesToRead ignoreDependencies : list string)
    (rb : ResolveType) (st st' : LoaderState) :
  Consistent ->
  stateOf (loadGirModules splitModuleName parseGirFile fuel girModulesToRead
             ignoreDependencies rb st) = Some st' ->
  Distinct st -> Distinct st'.
Proof.
  intros Hcons.
  apply (loadGirModules_steps (fun _ st st' => Distinct st -> Distinct st')).
  - auto.
  - auto.
  - auto.
  - intros rb0 st0 st0' Hstep (Hnd & Hl & Hf).
    destruct Hstep as [st0 p Hp Hparse Hnew|st0 p girModule Hp Hparse Hnew Hname|st0 p girModule Hp Hparse Hname];
      unfold Distinct, loadedNames in *; cbn [girModules failedGirModules].
    + split; [assumption|]. split; [assumption|].
      intros q Hq. apply elem_of_app in Hq as [Hq|Hq]; [auto|].
      apply list_elem_of_singleton in Hq. now subst.
    + rewrite List.map_app. cbn [List.map packageName].
      rewrite (Hcons _ _ Hparse). split; [|split; [|assumption]].
      * apply NoDup_app. split; [assumption|]. split; [|apply NoDup_singleton].
        intros q Hq Hin. apply list_elem_of_singleton in Hin. now subst.
      * intros q Hq. apply elem_of_app in Hq as [Hq|Hq]; [auto|].
        apply list_elem_of_singleton in Hq. subst q. rewrite Hparse. eauto.
    + auto.
  - intros _ st0 gs ws Hgs _ (Hnd & Hl & Hf). unfold Distinct, loadedNames in *.
    cbn [girModules failedGirModules]. rewrite (declared_names _ _ Hgs). auto.
Qed.

(** X17: where the document found for a name declares that name, the
    package names of the loaded modules stay pairwise distinct and no name
    is both loaded and failed. *)
Theorem loadGirModules_names_unique (fuel : nat)
    (girModulesToRead ignoreDependencies : list string)
    (rb : ResolveType) (st st' : LoaderState) :
  (forall p girModule, parseGirFile p = Some girModule -> gm_packageName girModule = p) ->
  stateOf (loadGirModules splitModuleName parseGirFile fuel girModulesToRead
             ignoreDependencies rb st) = Some st' ->
  NoDup (loadedNames st) ->
  (forall p, p ∈ loadedNames st -> is_Some (parseGirFile p)) ->
  (forall p, p ∈ failedGirModules st -> parseGirFile p = None) ->
  NoDup (loadedNames st')
  /\ forall p, p ∈ loadedNames st' -> p ∉ failedGirModules st'.
Proof.
  intros Hcons Hrun Hnd Hl Hf.
  destruct (loadGirModules_distinct _ _ _ _ _ _ Hcons Hrun) as (Hnd' & Hl' & Hf');
    [unfold Distinct; auto|].
  split; [exact Hnd'|].
  intros p Hp Hfailed. destruct (Hl' p Hp) as [gm Hgm]. rewrite (Hf' p Hfailed) in Hgm.
  discriminate.
Qed.

(** *** Names dealt with before *)

Lemma whileGirToLoad_nothing_new (girToLoad : list string) (rb : ResolveType)
    (st : LoaderState) (found : bool) :
  (forall name, name ∈ girToLoad ->
     shiftedName name ∈ loadedNames st
     \/ (shiftedName name ∈ failedGirModules st /\ parseGirFile (shiftedName name) = None)) ->
  whileGirToLoad splitModuleName parseGirFile girToLoad rb st found = Ok (st, found).
Proof.
  induction girToLoad as [|shifted girToLoad IH]; intros Hall; cbn [whileGirToLoad];
    [reflexivity|].
  fold (shiftedName shifted). rewrite shiftedName_truthy. cbn [negb].
  assert (Hrest : whileGirToLoad splitModuleName parseGirFile girToLoad rb st found
                  = Ok (st, found)).
  { apply IH. intros name H. apply Hall. now right. }
  destruct (existsGirModules (girModules st) [shiftedName shifted]) eqn:Hex; cbn [negb];
    [exact Hrest|].
  apply existsGirModules_false in Hex.
  destruct (Hall shifted) as [H|[Hfailed Hnone]]; [left|contradiction|].
  unfold loadAndCreateGirModule. rewrite Hnone.
  unfold JsSet.has. rewrite bool_decide_eq_true_2 by assumption. exact Hrest.
Qed.

(** X18: asking again for names that are loaded already, or that failed
    already and still have no document, changes nothing: the call returns
    the state it was given, with no further warning. *)
Theorem loadGirModules_nothing_new (fuel : nat)
    (girModulesToRead ignoreDependencies : list string)
    (rb : ResolveType) (st : LoaderState) :
  (forall name, name ∈ girModulesToRead ->
     shiftedName name ∈ loadedNames st
     \/ (shiftedName name ∈ failedGirModules st /\ parseGirFile (shiftedName name) = None)) ->
  loadGirModules splitModuleName parseGirFile (S fuel) girModulesToRead
    ignoreDependencies rb st = Returned st.
Proof.
  intros Hall. cbn [loadGirModules].
  now rewrite (whileGirToLoad_nothing_new _ rb st false Hall).
Qed.

(** *** The ignore list of the loader *)

(** Two states that differ at most in the warnings about ignored
    dependencies. *)
Definition SameLoad (st1 st2 : LoaderState) : Prop :=
  girModules st1 = girModules st2
  /\ failedGirModules st1 = failedGirModules st2
  /\ modDependencyMap st1 = modDependencyMap st2
  /\ missingFileWarnings (warnings st1) = missingFileWarnings (warnings st2).

Definition SameRun (r1 r2 : Run) : Prop :=
  match r1, r2 with
  | Returned st1, Returned st2 => SameLoad st1 st2
  | OutOfFuel st1, OutOfFuel st2 => SameLoad st1 st2
  | Raised e1, Raised e2 => e1 = e2
  | _, _ => False
  end.

Lemma whileGirToLoad_same (girToLoad : list string) (rb : ResolveType) :
  forall st1 st2 found,
    SameLoad st1 st2 ->
    match whileGirToLoad splitModuleName parseGirFile girToLoad rb st1 found,
          whileGirToLoad splitModuleName parseGirFile girToLoad rb st2 found with
    | Ok (a, f1), Ok (b, f2) => SameLoad a b /\ f1 = f2
    | Throw e1, Throw e2 => e1 = e2
    | _, _ => False
    end.
Proof.
  induction girToLoad as [|shifted girToLoad IH]; intros st1 st2 found Hsame;
    cbn [whileGirToLoad].
  - auto.
  - destruct st1 as [gs1 f1 m1 w1], st2 as [gs2 f2 m2 w2].
    destruct Hsame as (Hg & Hf & Hm & Hw). cbn [girModules failedGirModules modDependencyMap
                                                  warnings] in *. subst gs2 f2 m2.
    fold (shiftedName shifted). rewrite shiftedName_truthy. cbn [negb girModules].
    destruct (existsGirModules gs1 [shiftedName shifted]); cbn [negb].
    { apply IH. unfold SameLoad. auto. }
    unfold loadAndCreateGirModule.
    destruct (parseGirFile (shiftedName shifted)) as [girModule|];
      cbn [girModules failedGirModules modDependencyMap warnings].
    + destruct (truthy (gm_packageName girModule)); apply IH; unfold SameLoad; auto.
    + destruct (JsSet.has f1 (shiftedName shifted)); cbn [negb]; apply IH;
        unfold SameLoad; cbn [girModules failedGirModules modDependencyMap warnings];
        auto.
      rewrite !missingFileWarnings_app, Hw. auto.
Qed.

Lemma forGirModules_same (recurse1 recurse2 : list string -> LoaderState -> Run)
    (ignore1 ignore2 : list string) :
  (forall toRead st1 st2, SameLoad st1 st2 ->
                          SameRun (recurse1 toRead st1) (recurse2 toRead st2)) ->
  forall turns i st1 st2,
    SameLoad st1 st2 ->
    SameRun (forGirModules recurse1 ignore1 turns i st1)
            (forGirModules recurse2 ignore2 turns i st2).
Proof.
  intros Hrec. induction turns as [|turns IH]; intros i st1 st2 Hsame; cbn [forGirModules].
  - exact Hsame.
  - pose proof Hsame as (Hg & Hf & Hm & Hw). rewrite <- Hg.
    destruct (girModules st1 !! i) as [girModule|]; [|exact Hsame].
    destruct (0 <? length (transitiveDependencies (module girModule))); [|now apply IH].
    assert (Hwarn : SameLoad (warnIgnoredDependencies ignore1 girModule st1)
                             (warnIgnoredDependencies ignore2 girModule st2)).
    { unfold SameLoad, warnIgnoredDependencies.
      cbn [girModules failedGirModules modDependencyMap warnings].
      rewrite !missingFileWarnings_ignored. auto. }
    specialize (Hrec (transitiveDependencies (module girModule)) _ _ Hwarn).
    destruct (recurse1 _ _) as [a|e1|a]; destruct (recurse2 _ _) as [b|e2|b];
      cbn [SameRun] in *; try contradiction; auto.
Qed.

(** X19: the ignore list given to [loadGirModules] decides nothing but
    warnings: with any two ignore lists the run ends the same way, with the
    same modules, the same failed names, the same dependency map and the
    same missing-file warnings.  A dependency on the ignore list is loaded
    all the same. *)
Theorem loadGirModules_ignore_only_warns (fuel : nat) (girModulesToRead : list string)
    (ignore1 ignore2 : list string) (rb : ResolveType) (st : LoaderState) :
  SameRun
    (loadGirModules splitModuleName parseGirFile fuel girModulesToRead ignore1 rb st)
    (loadGirModules splitModuleName parseGirFile fuel girModulesToRead ignore2 rb st).
Proof.
  assert (H : forall fuel toRead rb st1 st2,
            SameLoad st1 st2 ->
            SameRun
              (loadGirModules splitModuleName parseGirFile fuel toRead ignore1 rb st1)
              (loadGirModules splitModuleName parseGirFile fuel toRead ignore2 rb st2)).
  { clear. intros fuel. induction fuel as [|fuel IH]; intros toRead rb st1 st2 Hsame;
      cbn [loadGirModules].
    - exact Hsame.
    - pose proof (whileGirToLoad_same toRead rb st1 st2 false Hsame) as Hloop.
      destruct (whileGirToLoad _ _ toRead rb st1 false) as [[a f1]|e1];
        destruct (whileGirToLoad _ _ toRead rb st2 false) as [[b f2]|e2];
        try contradiction; [|exact Hloop].
      destruct Hloop as [Hab <-].
      destruct f1; cbn [negb]; [|exact Hab].
      apply forGirModules_same; [intros toRead' s1 s2 Hs; now apply IH|].
      destruct Hab as (Hg & Hf & Hm & Hw). unfold SameLoad.
      cbn [girModules failedGirModules modDependencyMap warnings].
      rewrite Hg, Hm. auto. }
  apply H. unfold SameLoad. auto.
Qed.

(** *** The loader reaches a fixpoint *)

(** A name asked for is dealt with: the name looked up for it is loaded or
    failed. *)
Definition Settled (st : LoaderState) (name : string) : Prop :=
  shiftedName name ∈ loadedNames st \/ shiftedName name ∈ failedGirModules st.

(** The entry of every loaded module in the dependency map lists the
    dependencies the module declares. *)
Definition MapAgrees (st : LoaderState) : Prop :=
  forall g, g ∈ girModules st ->
    exists deps, modDependencyMap st !! packageName g = Some deps
                 /\ List.map dep_packageName deps = dependencies (module g).

(** The transitive dependencies stored in every loaded module include the
    dependencies it declares, those named like a member of
    [Object.prototype] apart (the walk skips them). *)
Definition CoversDeclared (st : LoaderState) : Prop :=
  forall g, g ∈ girModules st ->
    forall q, q ∈ dependencies (module g) -> JsObject.prototypeMember q = false ->
              q ∈ transitiveDependencies (module g).

(** Every declared dependency of every loaded module is dealt with, those
    named like a member of [Object.prototype] apart. *)
Definition DependenciesSettled (st : LoaderState) : Prop :=
  forall g, g ∈ girModules st ->
    forall q, q ∈ dependencies (module g) -> JsObject.prototypeMember q = false ->
              Settled st q.

Lemma Settled_grows (st st' : LoaderState) (name : string) :
  Grows st st' -> Settled st name -> Settled st' name.
Proof. intros [Hf Hl] [H|H]; [left; auto|right; auto]. Qed.

Lemma LoadStep_grows (rb : ResolveType) (st st' : LoaderState) :
  LoadStep rb st st' -> Grows st st'.
Proof.
  intros Hstep. destruct Hstep; unfold Grows, loadedNames;
    cbn [girModules failedGirModules]; split; auto.
  - intros q Hq. apply elem_of_app. now left.
  - intros q Hq. rewrite List.map_app. apply elem_of_app. now left.
Qed.

Lemma whileGirToLoad_grows (girToLoad : list string) (rb : ResolveType)
    (st : LoaderState) (found : bool) (st' : LoaderState) (found' : bool) :
  whileGirToLoad splitModuleName parseGirFile girToLoad rb st found = Ok (st', found') ->
  Grows st st'.
Proof.
  intros H. apply whileGirToLoad_steps in H.
  induction H as [st|st1 st2 st3 H12 _ IH]; [apply Grows_refl|].
  eapply Grows_trans; [eapply LoadStep_grows; exact H12|exact IH].
Qed.

Lemma loadGirModules_grows (fuel : nat) (girModulesToRead ignoreDependencies : list string)
    (rb : ResolveType) (st st' : LoaderState) :
  stateOf (loadGirModules splitModuleName parseGirFile fuel girModulesToRead
             ignoreDependencies rb st) = Some st' ->
  Grows st st'.
Proof.
  apply (loadGirModules_steps (fun _ st st' => Grows st st')).
  - intros _ st0. apply Grows_refl.
  - intros _ st1 st2 st3. apply Grows_trans.
  - auto.
  - intros rb0 st0 st0'. apply LoadStep_grows.
  - intros _ st0 gs ws Hgs _. unfold Grows, loadedNames. cbn [girModules failedGirModules].
    rewrite (declared_names _ _ Hgs). auto.
Qed.

Section Closure.
Hypothesis consistent : Consistent.

Lemma whileGirToLoad_settles (girToLoad : list string) (rb : ResolveType) :
  forall st found st' found',
    whileGirToLoad splitModuleName parseGirFile girToLoad rb st found = Ok (st', found') ->
    forall name, name ∈ girToLoad -> Settled st' name.
Proof.
  induction girToLoad as [|shifted girToLoad IH]; intros st found st' found' Hrun name Hname.
  - inversion Hname.
  - revert Hrun. cbn [whileGirToLoad]. fold (shiftedName shifted).
    rewrite shiftedName_truthy. cbn [negb].
    assert (Hnext : forall st2 found2,
              Settled st2 shifted ->
              whileGirToLoad splitModuleName parseGirFile girToLoad rb st2 found2
              = Ok (st', found') ->
              Settled st' name).
    { intros st2 found2 Hs Hrun. apply elem_of_cons in Hname as [->|Hname].
      - eapply Settled_grows; [eapply whileGirToLoad_grows; exact Hrun|exact Hs].
      - eapply IH; eassumption. }
    destruct (existsGirModules (girModules st) [shiftedName shifted]) eqn:Hex; cbn [negb].
    { apply Hnext. left. now apply existsGirModules_loaded. }
    unfold loadAndCreateGirModule.
    destruct (parseGirFile (shiftedName shifted)) as [girModule|] eqn:Hparse; cbv beta iota.
    + pose proof (consistent _ _ Hparse) as Hc. rewrite Hc, shiftedName_truthy.
      apply Hnext. left. unfold loadedNames. cbn [girModules]. rewrite List.map_app.
      apply elem_of_app. right. cbn [List.map packageName]. left.
    + unfold JsSet.has. case_bool_decide as Hfailed; cbn [negb].
      * apply Hnext. now right.
      * apply Hnext. right. cbn [failedGirModules]. unfold JsSet.add, JsSet.has.
        rewrite bool_decide_eq_false_2 by assumption. apply elem_of_app. right. left.
Qed.

(** A pass that found no new module left modules and map as they were. *)
Lemma whileGirToLoad_found_false (girToLoad : list string) (rb : ResolveType) :
  forall st found st',
    whileGirToLoad splitModuleName parseGirFile girToLoad rb st found = Ok (st', false) ->
    found = false /\ girModules st' = girModules st
    /\ modDependencyMap st' = modDependencyMap st.
Proof.
  induction girToLoad as [|shifted girToLoad IH]; intros st found st'; cbn [whileGirToLoad].
  - intros [= <- ->]. auto.
  - fold (shiftedName shifted). rewrite shiftedName_truthy. cbn [negb].
    destruct (existsGirModules (girModules st) [shiftedName shifted]); cbn [negb];
      [apply IH|].
    unfold loadAndCreateGirModule.
    destruct (parseGirFile (shiftedName shifted)) as [girModule|] eqn:Hparse; cbv beta iota.
    + pose proof (consistent _ _ Hparse) as Hc. rewrite Hc, shiftedName_truthy.
      intros H. apply IH in H as [H _]. discriminate.
    + destruct (negb (JsSet.has (failedGirModules st) (shiftedName shifted)));
        intros H; apply IH in H; exact H.
Qed.

Lemma LoadStep_MapAgrees (rb : ResolveType) (st st' : LoaderState) :
  LoadStep rb st st' -> MapAgrees st -> MapAgrees st'.
Proof.
  intros Hstep Hk.
  destruct Hstep as [st0 p Hp Hparse Hnew|st0 p girModule Hp Hparse Hnew Hname|st0 p girModule Hp Hparse Hname];
    unfold MapAgrees in *; cbn [girModules modDependencyMap].
  - exact Hk.
  - pose proof (consistent _ _ Hparse) as Hpn.
    intros g Hg. unfold extendDependencyMapByGirModule. rewrite Hname.
    apply elem_of_app in Hg as [Hg|Hg].
    + rewrite lookup_insert_ne; [now apply Hk|].
      intros E. apply Hnew. unfold loadedNames. rewrite <- Hpn, E.
      now apply list_elem_of_fmap_2.
    + apply list_elem_of_singleton in Hg. subst g. cbn [packageName module].
      rewrite lookup_insert_eq. eexists. split; [reflexivity|].
      rewrite List.map_map. cbn [dep_packageName]. apply List.map_id.
  - pose proof (consistent _ _ Hparse) as Hpn. rewrite Hpn, Hp in Hname. discriminate.
Qed.

Lemma MapAgrees_same (st : LoaderState) (gs : list GirModuleResolvedBy) (ws : list Warning) :
  List.map declared gs = List.map declared (girModules st) ->
  MapAgrees st ->
  MapAgrees {| girModules := gs; failedGirModules := failedGirModules st;
               modDependencyMap := modDependencyMap st; warnings := ws |}.
Proof.
  intros Hgs Hk. unfold MapAgrees in *. cbn [girModules modDependencyMap].
  intros g Hg. destruct (elem_of_declared _ _ g Hgs Hg) as (g' & Hg' & E).
  injection E as E1 E2 _. rewrite <- E1, <- E2. now apply Hk.
Qed.

Lemma whileGirToLoad_MapAgrees (girToLoad : list string) (rb : ResolveType)
    (st : LoaderState) (found : bool) (st' : LoaderState) (found' : bool) :
  whileGirToLoad splitModuleName parseGirFile girToLoad rb st found = Ok (st', found') ->
  MapAgrees st -> MapAgrees st'.
Proof.
  intros H. apply whileGirToLoad_steps in H.
  induction H as [st|st1 st2 st3 H12 _ IH]; [auto|].
  intros Hk. apply IH. eapply LoadStep_MapAgrees; eassumption.
Qed.

Lemma MapAgrees_kept (fuel : nat) (girModulesToRead ignoreDependencies : list string)
    (rb : ResolveType) (st st' : LoaderState) :
  stateOf (loadGirModules splitModuleName parseGirFile fuel girModulesToRead
             ignoreDependencies rb st) = Some st' ->
  MapAgrees st -> MapAgrees st'.
Proof.
  apply (loadGirModules_steps (fun _ st st' => MapAgrees st -> MapAgrees st')).
  - auto.
  - auto.
  - auto.
  - intros rb0 st0 st0'. apply LoadStep_MapAgrees.
  - intros _ st0 gs ws Hgs _. now apply MapAgrees_same.
Qed.

Lemma CoversDeclared_traverse (st : LoaderState) :
  MapAgrees st ->
  CoversDeclared
    {| girModules := setTraverseDependenciesForModules (modDependencyMap st) (girModules st);
       failedGirModules := failedGirModules st;
       modDependencyMap := modDependencyMap st;
       warnings := warnings st |}.
Proof.
  intros Hk g Hg q Hq Hproto. cbn [girModules] in Hg.
  unfold setTraverseDependenciesForModules in Hg.
  apply list_elem_of_fmap in Hg as (g0 & -> & Hg0).
  cbn [module dependencies transitiveDependencies] in *.
  apply transitiveClosure_reachable. apply tc_once. split; [|exact Hproto].
  destruct (Hk g0 Hg0) as (deps & Hdeps & Hnames).
  rewrite <- Hnames in Hq. apply list_elem_of_fmap in Hq as (dep & -> & Hdep).
  exists deps, dep. auto.
Qed.

Lemma declared_lookup (gs gs' : list GirModuleResolvedBy)
    (more : list (string * list string * ResolveType)) (i : nat) (g : GirModuleResolvedBy) :
  List.map declared gs' = List.map declared gs ++ more ->
  gs !! i = Some g ->
  exists g', gs' !! i = Some g' /\ declared g' = declared g.
Proof.
  intros E Hi.
  assert (H : (List.map declared gs') !! i = Some (declared g)).
  { rewrite E. apply lookup_app_l_Some. change (List.map declared gs) with (declared <$> gs).
    rewrite list_lookup_fmap, Hi. reflexivity. }
  change (List.map declared gs') with (declared <$> gs') in H.
  rewrite list_lookup_fmap in H. destruct (gs' !! i) as [g'|]; [|discriminate].
  cbn in H. injection H as H1 H2 H3. exists g'. split; [reflexivity|].
  unfold declared. now rewrite H1, H2, H3.
Qed.

(** What the fixpoint argument needs of a call. *)
Definition SettlesQueue (recurse : list string -> LoaderState -> Run) : Prop :=
  forall toRead st st',
    recurse toRead st = Returned st' ->
    Grows st st'
    /\ (exists more,
          List.map declared (girModules st') = List.map declared (girModules st) ++ more)
    /\ (MapAgrees st -> MapAgrees st')
    /\ (MapAgrees st -> CoversDeclared st ->
        CoversDeclared st' /\ forall name, name ∈ toRead -> Settled st' name).

Lemma forGirModules_settles (recurse : list string -> LoaderState -> Run)
    (ignoreDependencies : list string) :
  SettlesQueue recurse ->
  forall turns i st st',
    forGirModules recurse ignoreDependencies turns i st = Returned st' ->
    MapAgrees st -> CoversDeclared st ->
    Grows st st'
    /\ (exists more,
          List.map declared (girModules st') = List.map declared (girModules st) ++ more)
    /\ MapAgrees st' /\ CoversDeclared st'
    /\ forall j g, i <= j -> girModules st' !! j = Some g ->
         forall q, q ∈ dependencies (module g) -> JsObject.prototypeMember q = false ->
                   Settled st' q.
Proof.
  intros Hrec. induction turns as [|turns IH]; intros i st st'; cbn [forGirModules];
    [discriminate|].
  destruct (girModules st !! i) as [girModule|] eqn:Hi.
  2:{ intros [= <-] Hk Hj. split; [apply Grows_refl|]. split.
      { exists []. now rewrite app_nil_r. }
      split; [assumption|]. split; [assumption|].
      intros j g Hij Hg. apply lookup_ge_None in Hi.
      apply lookup_lt_Some in Hg. lia. }
  assert (Hstep : forall st1,
            Grows st st1 ->
            (exists more, List.map declared (girModules st1)
                          = List.map declared (girModules st) ++ more) ->
            MapAgrees st1 -> CoversDeclared st1 ->
            (forall q, q ∈ dependencies (module girModule) ->
                       JsObject.prototypeMember q = false -> Settled st1 q) ->
            forGirModules recurse ignoreDependencies turns (S i) st1 = Returned st' ->
            Grows st st'
            /\ (exists more,
                  List.map declared (girModules st')
                  = List.map declared (girModules st) ++ more)
            /\ MapAgrees st' /\ CoversDeclared st'
            /\ forall j g, i <= j -> girModules st' !! j = Some g ->
                 forall q, q ∈ dependencies (module g) ->
                           JsObject.prototypeMember q = false -> Settled st' q).
  { intros st1 Hg1 (more1 & E1) Hk1 Hj1 Hset Hrest.
    destruct (IH _ _ _ Hrest Hk1 Hj1) as (Hg2 & (more2 & E2) & Hk' & Hj' & Hlater).
    split; [eapply Grows_trans; eassumption|]. split.
    { exists (more1 ++ more2). now rewrite E2, E1, app_assoc. }
    split; [assumption|]. split; [assumption|].
    intros j g Hij Hg q Hq Hproto.
    destruct (decide (j = i)) as [->|Hne];
      [|apply (Hlater j g); [lia|assumption|assumption|assumption]].
    assert (E : List.map declared (girModules st')
                = List.map declared (girModules st) ++ (more1 ++ more2)).
    { now rewrite E2, E1, app_assoc. }
    destruct (declared_lookup _ _ _ _ _ E Hi) as (g' & Hg' & Hd).
    rewrite Hg in Hg'. injection Hg' as <-. injection Hd as _ Hdeps _.
    eapply Settled_grows; [exact Hg2|]. apply Hset; [|exact Hproto]. now rewrite <- Hdeps. }
  intros Hrun Hk Hj.
  assert (Hin : girModule ∈ girModules st) by (eapply list_elem_of_lookup_2; exact Hi).
  destruct (0 <? length (transitiveDependencies (module girModule))) eqn:Hlen.
  - set (st0 := warnIgnoredDependencies ignoreDependencies girModule st) in *.
    destruct (recurse (transitiveDependencies (module girModule)) st0) as [st1|e|st1] eqn:E;
      [|discriminate|discriminate].
    destruct (Hrec _ _ _ E) as (Hg1 & He1 & Hk1 & Hq1).
    destruct (Hq1 Hk Hj) as (Hj1 & Hset).
    apply (Hstep st1); auto.
  - apply (Hstep st); auto using Grows_refl.
    + exists []. now rewrite app_nil_r.
    + intros q Hq Hproto. pose proof (Hj girModule Hin q Hq Hproto) as Ht.
      apply Nat.ltb_ge in Hlen.
      destruct (transitiveDependencies (module girModule)); [inversion Ht|simpl in Hlen; lia].
Qed.

Lemma loadGirModules_settles (fuel : nat) :
  forall ignoreDependencies rb,
    SettlesQueue (fun toRead =>
                    loadGirModules splitModuleName parseGirFile fuel toRead
                      ignoreDependencies rb)
    /\ forall toRead st st',
         loadGirModules splitModuleName parseGirFile fuel toRead ignoreDependencies rb st
         = Returned st' ->
         MapAgrees st -> CoversDeclared st ->
         DependenciesSettled st -> DependenciesSettled st'.
Proof.
  induction fuel as [|fuel IH]; intros ignoreDependencies rb.
  { split; [intros toRead st st' H|intros toRead st st' H]; discriminate. }
  assert (Hbase : forall toRead st st',
            loadGirModules splitModuleName parseGirFile (S fuel) toRead ignoreDependencies rb st
            = Returned st' ->
            Grows st st'
            /\ (exists more, List.map declared (girModules st')
                             = List.map declared (girModules st) ++ more)
            /\ (MapAgrees st -> MapAgrees st')).
  { intros toRead st st' H.
    assert (Hs : stateOf (loadGirModules splitModuleName parseGirFile (S fuel) toRead
                            ignoreDependencies rb st) = Some st') by now rewrite H.
    split; [eapply loadGirModules_grows; exact Hs|]. split.
    - destruct (loadGirModules_declared_prefix _ _ _ _ _ _ Hs) as (more & E & _). eauto.
    - eapply MapAgrees_kept; exact Hs. }
  assert (Hmain : forall toRead st st',
            loadGirModules splitModuleName parseGirFile (S fuel) toRead ignoreDependencies rb st
            = Returned st' ->
            MapAgrees st -> CoversDeclared st ->
            CoversDeclared st' /\ (forall name, name ∈ toRead -> Settled st' name)
            /\ (DependenciesSettled st -> DependenciesSettled st')).
  { intros toRead st st' Hrun Hk Hj.
    pose proof (Hbase _ _ _ Hrun) as (Hgrow & _ & _).
    revert Hrun. cbn [loadGirModules].
    destruct (whileGirToLoad _ _ toRead rb st false) as [[st1 found]|e] eqn:Hloop;
      [|discriminate].
    pose proof (whileGirToLoad_settles _ _ _ _ _ _ Hloop) as Hq.
    destruct found; cbn [negb].
    - intros Hfor.
      assert (Hk1 : MapAgrees st1) by (eapply whileGirToLoad_MapAgrees; eassumption).
      destruct (forGirModules_settles _ ignoreDependencies
                  (proj1 (IH ignoreDependencies DEPENDENCE)) _ _ _ _ Hfor)
        as (Hg2 & _ & _ & Hj' & Hall).
      { apply MapAgrees_same; [apply setTraverseDependenciesForModules_declared|exact Hk1]. }
      { now apply CoversDeclared_traverse. }
      split; [exact Hj'|]. split.
      + intros name Hname. eapply Settled_grows; [exact Hg2|].
        destruct (Hq name Hname) as [H|H]; [left|right]; [|exact H].
        unfold loadedNames in *. cbn [girModules].
        now rewrite setTraverseDependenciesForModules_names.
      + intros _ g Hg q Hqd Hproto. apply list_elem_of_lookup in Hg as (j & Hg).
        apply (Hall j g); [lia|assumption|assumption|assumption].
    - intros [= <-].
      destruct (whileGirToLoad_found_false _ _ _ _ _ Hloop) as (_ & Hgs & Hm).
      split; [|split; [exact Hq|]].
      + unfold CoversDeclared in *. now rewrite Hgs.
      + intros Hd g Hg q Hqd Hproto. rewrite Hgs in Hg.
        eapply Settled_grows; [exact Hgrow|]. now apply (Hd g). }
  split.
  - intros toRead st st' Hrun. destruct (Hbase _ _ _ Hrun) as (H1 & H2 & H3).
    split; [exact H1|]. split; [exact H2|]. split; [exact H3|].
    intros Hk Hj. destruct (Hmain _ _ _ Hrun Hk Hj) as (H4 & H5 & _). auto.
  - intros toRead st st' Hrun Hk Hj. apply (Hmain _ _ _ Hrun Hk Hj).
Qed.

(** *** The names handed to the recursive calls *)






End Closure.


Lemma loadGirModules_closes (fuel : nat) (girModulesToRead ignoreDependencies : list string)
    (rb : ResolveType) (st st' : LoaderState) :
  (forall p girModule, parseGirFile p = Some girModule -> gm_packageName girModule = p) ->
  girModules st = [] ->
  loadGirModules splitModuleName parseGirFile fuel girModulesToRead ignoreDependencies rb st
  = Returned st' ->
  (forall name, name ∈ girModulesToRead ->
     shiftedName name ∈ loadedNames st' \/ shiftedName name ∈ failedGirModules st')
  /\ forall g, g ∈ girModules st' ->
       forall q, q ∈ dependencies (module g) -> JsObject.prototypeMember q = false ->
         shiftedName q ∈ loadedNames st' \/ shiftedName q ∈ failedGirModules st'.
Proof.
  intros Hcons Hempty Hrun.
  destruct (loadGirModules_settles Hcons fuel ignoreDependencies rb) as [Hq Hd].
  assert (Hk : MapAgrees st) by (intros g Hg; rewrite Hempty in Hg; inversion Hg).
  assert (Hj : CoversDeclared st) by (intros g Hg; rewrite Hempty in Hg; inversion Hg).
  split.
  - destruct (Hq _ _ _ Hrun) as (_ & _ & _ & H). destruct (H Hk Hj) as [_ Hs]. exact Hs.
  - apply (Hd _ _ _ Hrun Hk Hj). intros g Hg. rewrite Hempty in Hg. inversion Hg.
Qed.

(** X20: where the document found for a name declares that name, a call of
    [loadGirModules] that starts with no module and returns has reached a
    fixpoint: every name asked for, and every dependency declared by a
    loaded module, is loaded or recorded as failed (an empty name under
    the name the loop gives it, [unknown]).  The one exception the code
    makes is a dependency named like a member of [Object.prototype], which
    the walk over the dependencies skips. *)
Theorem loadGirModules_fixpoint (fuel : nat) (girModulesToRead ignoreDependencies : list string)
    (rb : ResolveType) (st st' : LoaderState) :
  (forall p girModule, parseGirFile p = Some girModule -> gm_packageName girModule = p) ->
  girModules st = [] ->
  loadGirModules splitModuleName parseGirFile fuel girModulesToRead ignoreDependencies rb st
  = Returned st' ->
  (forall name, name ∈ girModulesToRead ->
     shiftedName name ∈ loadedNames st' \/ shiftedName name ∈ failedGirModules st')
  /\ forall g, g ∈ girModules st' ->
       forall q, q ∈ dependencies (module g) -> JsObject.prototypeMember q = false ->
         shiftedName q ∈ loadedNames st' \/ shiftedName q ∈ failedGirModules st'.
Proof. apply loadGirModules_closes. Qed.

(** *** Missing documents *)



End Loader.

Lemma exampleParseGirFile_consistent (p : string) (girModule : GirModule) :
  exampleParseGirFile p = Some girModule -> gm_packageName girModule = p.
Proof.
  unfold exampleParseGirFile.
  destruct (String.eqb p "Gtk-3.0") eqn:E1.
  - intros [= <-]. symmetry. now apply String.eqb_eq.
  - destruct (String.eqb p "Gdk-3.0") eqn:E2; [|discriminate].
    intros [= <-]. symmetry. now apply String.eqb_eq.
Qed.

Lemma loadGirModules_appends_witness :
  exists st' more,
    stateOf exampleLoad = Some st'
    /\ List.map declared (girModules st')
       = List.map declared (girModules emptyLoaderState) ++ more
    /\ forall d, d ∈ more -> snd d = BY_HAND \/ snd d = DEPENDENCE.
Proof.
  eexists. 
  assert (H : stateOf exampleLoad = Some _) by (vm_compute; reflexivity).
  destruct (loadGirModules_appends exampleSplitModuleName exampleParseGirFile 8
              ["Gtk-3.0"; "Absent-2.0"] [] BY_HAND emptyLoaderState _ H) as (more & E & Ht).
  exists more. split; [exact H|]. split; assumption.
Defined.

Lemma extendDependencyMapByGirModule_entry_witness :
  exists deps,
    extendDependencyMapByGirModule exampleSplitModuleName ∅
      (module (exampleModule "Gtk-3.0" ["Gdk-3.0"])) !! "Gtk-3.0" = Some deps
    /\ List.map dep_packageName deps = ["Gdk-3.0"].
Proof.
  destruct (proj1 (extendDependencyMapByGirModule_entry exampleSplitModuleName ∅
                     (module (exampleModule "Gtk-3.0" ["Gdk-3.0"]))) eq_refl)
    as (_ & (deps & Hlookup & Hnames & _) & _).
  exists deps. split; assumption.
Defined.

Lemma loadGirModules_failed_sound_witness :
  exists st',
    stateOf exampleLoad = Some st'
    /\ (forall p, p ∈ failedGirModules st' ->
          p ∈ failedGirModules emptyLoaderState \/ exampleParseGirFile p = None)
    /\ (NoDup (failedGirModules emptyLoaderState) -> NoDup (failedGirModules st')).
Proof.
  eexists.
  assert (H : stateOf exampleLoad = Some _) by (vm_compute; reflexivity).
  split; [exact H|].
  exact (loadGirModules_failed_sound exampleSplitModuleName exampleParseGirFile 8
           ["Gtk-3.0"; "Absent-2.0"] [] BY_HAND emptyLoaderState _ H).
Defined.

Lemma loadGirModules_map_complete_witness :
  exists st', stateOf exampleLoad = Some st' /\ Entered st'.
Proof.
  eexists.
  assert (H : stateOf exampleLoad = Some _) by (vm_compute; reflexivity).
  split; [exact H|].
  apply (loadGirModules_map_complete exampleSplitModuleName exampleParseGirFile 8
           ["Gtk-3.0"; "Absent-2.0"] [] BY_HAND emptyLoaderState _ H).
  intros g Hg. inversion Hg.
Defined.

Lemma loadGirModules_names_unique_witness :
  exists st', stateOf exampleLoad = Some st' /\ NoDup (loadedNames st').
Proof.
  eexists.
  assert (H : stateOf exampleLoad = Some _) by (vm_compute; reflexivity).
  split; [exact H|].
  apply (loadGirModules_names_unique exampleSplitModuleName exampleParseGirFile 8
           ["Gtk-3.0"; "Absent-2.0"] [] BY_HAND emptyLoaderState _
           exampleParseGirFile_consistent H).
  - apply NoDup_nil_2.
  - intros p Hp. inversion Hp.
  - intros p Hp. inversion Hp.
Defined.

(** A loader that holds [Gtk-3.0] already and has given up on
    [Absent-2.0]. *)
Definition exampleLoadedState : LoaderState :=
  {| girModules := [exampleModule "Gtk-3.0" ["Gdk-3.0"; "Missing-1.0"]];
     failedGirModules := ["Absent-2.0"];
     modDependencyMap := ∅;
     warnings := [] |}.

Lemma loadGirModules_nothing_new_witness :
  loadGirModules exampleSplitModuleName exampleParseGirFile 1
    ["Gtk-3.0"; "Absent-2.0"] ["Gtk-3.0"] DEPENDENCE exampleLoadedState
  = Returned exampleLoadedState.
Proof.
  apply (loadGirModules_nothing_new exampleSplitModuleName exampleParseGirFile 0
           ["Gtk-3.0"; "Absent-2.0"] ["Gtk-3.0"] DEPENDENCE exampleLoadedState).
  intros name Hname.
  apply elem_of_cons in Hname as [-> |Hname].
  - left. vm_compute. apply list_elem_of_here.
  - apply list_elem_of_singleton in Hname. subst name. right. split.
    + vm_compute. apply list_elem_of_here.
    + reflexivity.
Defined.

(** One document on disk, which needs [toString] and [Missing-1.0]. *)
Definition inheritedParseGirFile (packageName_ : string) : option GirModule :=
  if String.eqb packageName_ "Gtk-3.0" then
    Some {| gm_packageName := "Gtk-3.0";
            dependencies := ["toString"; "Missing-1.0"];
            transitiveDependencies := [] |}
  else None.

(** The dependency named like a member of [Object.prototype] is never
    asked for: it is neither loaded nor failed, and no warning is given for
    it. *)
Example loadGirModules_skips_inherited :
  match loadGirModules exampleSplitModuleName inheritedParseGirFile 8 ["Gtk-3.0"] []
          BY_HAND emptyLoaderState with
  | Returned st =>
      List.map (fun g => transitiveDependencies (module g)) (girModules st)
      = [["Missing-1.0"]]
      /\ failedGirModules st = ["Missing-1.0"]
      /\ warnings st = [WARN_NO_GIR_FILE_FOUND_FOR_PACKAGE "Missing-1.0"]
  | _ => False
  end.
Proof. vm_compute. auto. Qed.


Lemma loadGirModules_fixpoint_witness :
  exists st',
    exampleLoad = Returned st'
    /\ (shiftedName "Absent-2.0" ∈ loadedNames st'
        \/ shiftedName "Absent-2.0" ∈ failedGirModules st').
Proof.
  eexists.
  assert (H : exampleLoad = Returned _) by (vm_compute; reflexivity).
  split; [exact H|].
  destruct (loadGirModules_fixpoint exampleSplitModuleName exampleParseGirFile 8
              ["Gtk-3.0"; "Absent-2.0"] [] BY_HAND emptyLoaderState _
              exampleParseGirFile_consistent eq_refl H) as [Hq _].
  apply Hq. apply list_elem_of_further, list_elem_of_here.
Defined.

End LoaderMore.

(** ** Finding documents and [getModules] *)

Module FinderFacts.
Import JsString JsStringFacts JsObjectFacts ModuleLoader ModuleFinder Notions Examples.
Import ResolverFacts ResolverMore LoaderFacts LoaderMore.

Section Finder.
Variable girDirectories : list string.
Variable glob : string -> string -> option (list string).
Variable basename : string -> string.

Lemma globInDirectories_fold (filename : string) (dirs : list string) :
  forall acc : list string * list FindWarning,
    let result :=
      fold_left
        (fun acc girDirectory =>
           match glob filename girDirectory with
           | Some matches => (fst acc ++ matches, snd acc)
           | None => (fst acc, snd acc ++ [WARN_FIND_ERROR filename girDirectory])
           end)
        dirs acc in
    (forall file, file ∈ fst result
                  <-> file ∈ fst acc
                      \/ exists dir matches, dir ∈ dirs /\ glob filename dir = Some matches
                                             /\ file ∈ matches)
    /\ (forall w, w ∈ snd result
                  <-> w ∈ snd acc
                      \/ exists dir, dir ∈ dirs /\ glob filename dir = None
                                     /\ w = WARN_FIND_ERROR filename dir).
Proof.
  induction dirs as [|dir dirs IH]; intros acc; cbn [fold_left].
  - split; intros x; (split; [auto|]).
    + intros [H|(d & m & Hd & _)]; [assumption|inversion Hd].
    + intros [H|(d & Hd & _)]; [assumption|inversion Hd].
  - destruct (glob filename dir) as [matches|] eqn:Hglob.
    + destruct (IH (fst acc ++ matches, snd acc)) as [Hf Hw]. cbn [fst snd] in *. split.
      * intros file. rewrite Hf, elem_of_app. split.
        -- intros [[H|H]|(d & m & Hd & Hg & Hm)]; [now left| |].
           ++ right. exists dir, matches. split; [left|auto].
           ++ right. exists d, m. split; [now right|auto].
        -- intros [H|(d & m & Hd & Hg & Hm)]; [left; now left|].
           apply elem_of_cons in Hd as [->|Hd].
           ++ rewrite Hglob in Hg. injection Hg as <-. left. now right.
           ++ right. exists d, m. auto.
      * intros w. rewrite Hw. split.
        -- intros [H|(d & Hd & Hg & ->)]; [now left|].
           right. exists d. split; [now right|auto].
        -- intros [H|(d & Hd & Hg & ->)]; [now left|].
           apply elem_of_cons in Hd as [->|Hd]; [congruence|].
           right. exists d. auto.
    + destruct (IH (fst acc, snd acc ++ [WARN_FIND_ERROR filename dir])) as [Hf Hw].
      cbn [fst snd] in *. split.
      * intros file. rewrite Hf. split.
        -- intros [H|(d & m & Hd & Hg & Hm)]; [now left|].
           right. exists d, m. split; [now right|auto].
        -- intros [H|(d & m & Hd & Hg & Hm)]; [now left|].
           apply elem_of_cons in Hd as [->|Hd]; [congruence|].
           right. exists d, m. auto.
      * intros w. rewrite Hw, elem_of_app, list_elem_of_singleton. split.
        -- intros [[H|H]|(d & Hd & Hg & ->)]; [now left| |].
           ++ right. exists dir. split; [left|auto].
           ++ right. exists d. split; [now right|auto].
        -- intros [H|(d & Hd & Hg & ->)]; [left; now left|].
           apply elem_of_cons in Hd as [->|Hd]; [left; now right|].
           right. exists d. auto.
Qed.

(** A file name some directory gives for [filename]. *)
Definition Matches (filename file : string) : Prop :=
  exists dir matches, dir ∈ girDirectories /\ glob filename dir = Some matches
                      /\ file ∈ matches.

Lemma globInDirectories_files (filename file : string) :
  file ∈ fst (globInDirectories girDirectories glob filename) <-> Matches filename file.
Proof.
  unfold globInDirectories, Matches.
  destruct (globInDirectories_fold filename girDirectories ([], [])) as [Hf _].
  rewrite Hf. cbn [fst]. rewrite elem_of_nil. tauto.
Qed.

(** The module names a pattern stands for: the base names of the files
    found for it, the ignored ones left out. *)
Definition FoundFor (ignore : list string) (pattern x : string) : Prop :=
  pattern <> "" /\ (x ∉ ignore)
  /\ exists file, Matches (pattern +:+ ".gir") file /\ basename file = x.

Lemma findModules_step_spec (ignore : list string) (acc : list string * list FindWarning)
    (pattern : string) :
  (forall x, x ∈ fst (findModules_step girDirectories glob basename ignore acc pattern)
             <-> x ∈ fst acc \/ FoundFor ignore pattern x)
  /\ (NoDup (fst acc) ->
      NoDup (fst (findModules_step girDirectories glob basename ignore acc pattern)))
  /\ (forall x, WARN_IGNORE x
                  ∈ snd (findModules_step girDirectories glob basename ignore acc pattern) ->
                WARN_IGNORE x ∈ snd acc \/ x ∈ ignore).
Proof.
  unfold findModules_step, FoundFor.
  destruct (truthy pattern) eqn:Ht.
  - apply truthy_spec in Ht. cbn [fst snd]. split; [|split].
    + intros x. rewrite JsSet_add_all_elem, filter_elem_of_names, list_elem_of_fmap. split.
      * intros [H|[(file & -> & Hfile) Hno]]; [now left|].
        right. split; [assumption|]. split; [assumption|].
        exists file. split; [now apply globInDirectories_files|reflexivity].
      * intros [H|(_ & Hno & file & Hfile & <-)]; [now left|].
        right. split; [|assumption]. exists file. split; [reflexivity|].
        now apply globInDirectories_files.
    + apply JsSet_add_all_NoDup.
    + intros x Hx. apply elem_of_app in Hx as [Hx|Hx]; [now left|].
      apply elem_of_app in Hx as [Hx|Hx].
      * exfalso.
        destruct (globInDirectories_fold (pattern +:+ ".gir") girDirectories ([], []))
          as [_ Hw].
        apply Hw in Hx as [Hx|(d & _ & _ & Hx)]; [inversion Hx|discriminate].
      * right. apply list_elem_of_fmap in Hx as (y & [= ->] & Hy).
        apply list_elem_of_In, List.filter_In in Hy as [_ Hy].
        apply list_elem_of_In. now apply array_includes_In.
  - split; [|split; auto]. intros x. split; [auto|].
    intros [H|(Hne & _)]; [assumption|].
    apply truthy_spec in Hne. congruence.
Qed.

Lemma findModules_fold (ignore : list string) (modules : list string) :
  forall acc : list string * list FindWarning,
    let result :=
      fold_left (findModules_step girDirectories glob basename ignore) modules acc in
    (forall x, x ∈ fst result
               <-> x ∈ fst acc \/ exists pattern, pattern ∈ modules /\ FoundFor ignore pattern x)
    /\ (NoDup (fst acc) -> NoDup (fst result))
    /\ (forall x, WARN_IGNORE x ∈ snd result -> WARN_IGNORE x ∈ snd acc \/ x ∈ ignore).
Proof.
  induction modules as [|pattern modules IH]; intros acc; cbn [fold_left].
  - split; [|split; auto]. intros x. split; [auto|].
    intros [H|(p & Hp & _)]; [assumption|inversion Hp].
  - destruct (IH (findModules_step girDirectories glob basename ignore acc pattern))
      as (Hin & Hnd & Hw).
    destruct (findModules_step_spec ignore acc pattern) as (Hin1 & Hnd1 & Hw1).
    split; [|split].
    + intros x. rewrite Hin, Hin1. split.
      * intros [[H|H]|(p & Hp & H)]; [now left| |].
        -- right. exists pattern. split; [left|assumption].
        -- right. exists p. split; [now right|assumption].
      * intros [H|(p & Hp & H)]; [left; now left|].
        apply elem_of_cons in Hp as [->|Hp]; [left; now right|].
        right. exists p. auto.
    + auto.
    + intros x Hx. destruct (Hw x Hx) as [H|H]; auto.
Qed.

(** X21: [findModules] returns, without repetition, exactly the base names
    of the files that some search directory gives for some non-empty
    pattern, the names on the ignore list left out; a directory whose search
    throws does not stop the others.  The warning "Ignore" is only given
    for names on the ignore list. *)
Theorem findModules_exact (modules ignore : list string) :
  (forall x,
      x ∈ fst (findModules girDirectories glob basename modules ignore)
      <-> exists pattern dir matches file,
            pattern ∈ modules /\ pattern <> ""
            /\ dir ∈ girDirectories
            /\ glob (pattern +:+ ".gir") dir = Some matches
            /\ file ∈ matches /\ basename file = x /\ (x ∉ ignore))
  /\ NoDup (fst (findModules girDirectories glob basename modules ignore))
  /\ (forall x, x ∈ fst (findModules girDirectories glob basename modules ignore) ->
                x ∉ ignore)
  /\ (forall x, WARN_IGNORE x ∈ snd (findModules girDirectories glob basename modules ignore) ->
                x ∈ ignore).
Proof.
  destruct (findModules_fold ignore modules ([], [])) as (Hin & Hnd & Hw).
  cbn [fst snd] in *. fold (findModules girDirectories glob basename modules ignore) in *.
  assert (Hexact : forall x,
            x ∈ fst (findModules girDirectories glob basename modules ignore)
            <-> exists pattern dir matches file,
                  pattern ∈ modules /\ pattern <> ""
                  /\ dir ∈ girDirectories
                  /\ glob (pattern +:+ ".gir") dir = Some matches
                  /\ file ∈ matches /\ basename file = x /\ (x ∉ ignore)).
  { intros x. rewrite Hin. unfold FoundFor, Matches. split.
    - intros [H|(p & Hp & Hne & Hno & file & (d & m & Hd & Hg & Hm) & Hb)]; [inversion H|].
      exists p, d, m, file. auto 10.
    - intros (p & d & m & file & Hp & Hne & Hd & Hg & Hm & Hb & Hno).
      right. exists p. split; [assumption|]. split; [assumption|]. split; [assumption|].
      exists file. split; [|assumption]. exists d, m. auto. }
  split; [exact Hexact|]. split; [apply Hnd, NoDup_nil_2|]. split.
  - intros x Hx. apply Hexact in Hx as (p & d & m & file & H). tauto.
  - intros x Hx. destruct (Hw x Hx) as [H|H]; [inversion H|assumption].
Qed.

End Finder.

Section Entry.
Variable girDirectories : list string.
Variable glob : string -> string -> option (list string).
Variable basename : string -> string.
Variable splitModuleName : string -> ModuleName.
Variable toLowerCase : string -> string.
Variable parseGirFile : string -> option GirModule.

(** X22: where the document found for a name declares that name, what
    [getModules] resolves to is complete and consistent: every name found
    for the patterns, and every dependency declared by a loaded module
    whose name is not one a plain object inherits from [Object.prototype],
    is loaded or failed (an empty name as [unknown]); loaded package names
    are pairwise distinct; a failed name is listed once and has no
    document; and the groups hold the loaded modules, each under the
    lower-cased namespace of its package name, which is never an inherited
    name, and nothing else.  The call is rejected only with the
    [TypeError] of [groupGirFiles], after a load that returned a module
    whose lower-cased namespace is an inherited name. *)
Theorem getModules_resolved (fuel : nat) (modDependencyMap_ : DependencyMap)
    (patterns ignore : list string) :
  (forall p girModule, parseGirFile p = Some girModule -> gm_packageName girModule = p) ->
  (forall (result : Modules) (st : LoaderState) (findWarnings : list FindWarning),
      getModules girDirectories glob basename splitModuleName toLowerCase parseGirFile
        fuel modDependencyMap_ patterns ignore
      = Resolved result st findWarnings ->
      (forall x, x ∈ fst (findModules girDirectories glob basename patterns ignore) ->
         shiftedName x ∈ List.map packageName (loaded result)
         \/ shiftedName x ∈ failed result)
      /\ (forall g, g ∈ loaded result ->
            forall q, q ∈ dependencies (module g) -> JsObject.prototypeMember q = false ->
              shiftedName q ∈ List.map packageName (loaded result)
              \/ shiftedName q ∈ failed result)
      /\ NoDup (List.map packageName (loaded result))
      /\ NoDup (failed result)
      /\ (forall p, p ∈ failed result -> parseGirFile p = None)
      /\ (forall m, m ∈ loaded result ->
            JsObject.prototypeMember (Notions.groupId splitModuleName toLowerCase m) = false)
      /\ (forall m, m ∈ loaded result
                    <-> exists grp,
                          (Notions.groupId splitModuleName toLowerCase m, grp)
                            ∈ grouped result
                          /\ m ∈ modules grp)
      /\ (forall id grp m, (id, grp) ∈ grouped result -> m ∈ modules grp ->
                           m ∈ loaded result
                           /\ Notions.groupId splitModuleName toLowerCase m = id))
  /\ (forall message : string,
        getModules girDirectories glob basename splitModuleName toLowerCase parseGirFile
          fuel modDependencyMap_ patterns ignore
        = Rejected message ->
        message = "TypeError: Cannot read properties of undefined (reading 'push')"
        /\ exists st m,
             loadGirModules splitModuleName parseGirFile fuel
               (fst (findModules girDirectories glob basename patterns ignore)) ignore
               BY_HAND
               {| girModules := []; failedGirModules := [];
                  modDependencyMap := modDependencyMap_; warnings := [] |}
             = Returned st
             /\ m ∈ girModules st
             /\ JsObject.prototypeMember (Notions.groupId splitModuleName toLowerCase m)
                = true).
Proof.
  intros Hcons. unfold getModules.
  set (st0 := {| girModules := []; failedGirModules := [];
                 modDependencyMap := modDependencyMap_; warnings := [] |}).
  assert (Hw0 : WarnedOnce st0).
  { split; [apply NoDup_nil_2|]. intros p Hp. inversion Hp. }
  pose proof (loadGirModules_good splitModuleName parseGirFile fuel
                (fst (findModules girDirectories glob basename patterns ignore))
                ignore BY_HAND st0 Hw0) as Hgood.
  destruct (loadGirModules _ _ fuel _ ignore BY_HAND st0) as [st'|e|st'] eqn:Hrun;
    cbn [GoodRun] in Hgood; [|contradiction|split; discriminate].
  pose proof (GrouperFacts.groupGirFiles_spec splitModuleName toLowerCase (girModules st'))
    as Hspec.
  destruct (groupGirFiles splitModuleName toLowerCase (girModules st'))
    as [girModulesGrouped|message'].
  2:{ destruct Hspec as (-> & m & Hm & Hp). split; [discriminate|].
      intros message [= <-]. split; [reflexivity|]. exists st', m. auto. }
  split; [|discriminate].
  destruct Hspec as (Hids & Hkeys & Hget).
  destruct (GrouperFacts.grouped_partition splitModuleName toLowerCase _ _ Hkeys Hget)
    as [Hgroups Hfiled].
  intros result st findWarnings [= <- <- _]. cbn [loaded failed grouped].
  assert (Hs : stateOf (loadGirModules splitModuleName parseGirFile fuel
                          (fst (findModules girDirectories glob basename patterns ignore))
                          ignore BY_HAND st0) = Some st') by now rewrite Hrun.
  destruct (loadGirModules_closes splitModuleName parseGirFile _ _ _ _ st0 _ Hcons eq_refl Hrun)
    as [Hq Hd].
  destruct (loadGirModules_distinct splitModuleName parseGirFile _ _ _ _ st0 _ Hcons Hs)
    as (Hnd & _ & Hf).
  { unfold Distinct, st0, loadedNames. cbn [girModules failedGirModules List.map].
    split; [apply NoDup_nil_2|]. split; intros p Hp; inversion Hp. }
  destruct (loadGirModules_failed_no_document splitModuleName parseGirFile _ _ _ _ _ _ Hs)
    as [_ Hfnd].
  assert (Hmem : forall id m,
            m ∈ Notions.membersOf splitModuleName toLowerCase id (girModules st')
            <-> m ∈ girModules st'
                /\ Notions.groupId splitModuleName toLowerCase m = id).
  { intros id m. unfold Notions.membersOf.
    rewrite list_elem_of_In, List.filter_In, String.eqb_eq, <- list_elem_of_In.
    reflexivity. }
  assert (Hback : forall id grp m, (id, grp) ∈ girModulesGrouped -> m ∈ modules grp ->
                    m ∈ girModules st'
                    /\ Notions.groupId splitModuleName toLowerCase m = id).
  { intros id grp m Hgrp Hm. destruct (Hgroups id grp Hgrp) as (_ & Hmods & _).
    rewrite Hmods in Hm. now apply Hmem. }
  split; [exact Hq|]. split; [exact Hd|]. split; [exact Hnd|].
  split; [apply Hfnd, NoDup_nil_2|]. split; [exact Hf|]. split; [exact Hids|].
  split; [|exact Hback].
  intros m. split; [apply Hfiled|].
  intros (grp & Hgrp & Hm). now destruct (Hback _ _ _ Hgrp Hm).
Qed.

End Entry.

(** A single search directory holding [Gtk-3.0.gir] and [Gdk-3.0.gir]. *)
Definition exampleGlob (filename girDirectory : string) : option (list string) :=
  if String.eqb girDirectory "/usr/share/gir-1.0" then
    if String.eqb filename "Gtk-3.0.gir" || String.eqb filename "Gdk-3.0.gir"
    then Some [filename] else Some []
  else None.

Definition exampleBasename (file : string) : string :=
  String.substring 0 (String.length file - 4) file.

Example findModules_example :
  findModules ["/usr/share/gir-1.0"; "/missing"] exampleGlob exampleBasename
    ["Gtk-3.0"; ""; "Gdk-3.0"; "Gtk-3.0"] ["Gdk-3.0"]
  = (["Gtk-3.0"],
     [WARN_FIND_ERROR "Gtk-3.0.gir" "/missing";
      WARN_FIND_ERROR "Gdk-3.0.gir" "/missing"; WARN_IGNORE "Gdk-3.0";
      WARN_FIND_ERROR "Gtk-3.0.gir" "/missing"]).
Proof. reflexivity. Qed.

Lemma findModules_exact_witness :
  NoDup (fst (findModules ["/usr/share/gir-1.0"; "/missing"] exampleGlob exampleBasename
                ["Gtk-3.0"; ""; "Gdk-3.0"; "Gtk-3.0"] ["Gdk-3.0"])).
Proof.
  exact (proj1 (proj2 (findModules_exact ["/usr/share/gir-1.0"; "/missing"] exampleGlob
                         exampleBasename ["Gtk-3.0"; ""; "Gdk-3.0"; "Gtk-3.0"]
                         ["Gdk-3.0"]))).
Defined.

Lemma getModules_resolved_witness :
  exists result st findWarnings,
    getModules ["/usr/share/gir-1.0"] exampleGlob exampleBasename exampleSplitModuleName
      exampleToLowerCase exampleParseGirFile 8 ∅ ["Gtk-3.0"] []
    = Resolved result st findWarnings
    /\ NoDup (List.map packageName (loaded result))
    /\ forall p, p ∈ failed result -> exampleParseGirFile p = None.
Proof.
  eexists. eexists. eexists.
  assert (H : getModules ["/usr/share/gir-1.0"] exampleGlob exampleBasename
                exampleSplitModuleName exampleToLowerCase exampleParseGirFile 8 ∅
                ["Gtk-3.0"] []
              = Resolved _ _ _) by (vm_compute; reflexivity).
  split; [exact H|].
  destruct (proj1 (getModules_resolved ["/usr/share/gir-1.0"] exampleGlob exampleBasename
                     exampleSplitModuleName exampleToLowerCase exampleParseGirFile 8 ∅
                     ["Gtk-3.0"] [] exampleParseGirFile_consistent) _ _ _ H)
    as (_ & _ & Hnd & _ & Hf & _).
  split; assumption.
Defined.

End FinderFacts.
